(** * serviced: the ZooKeeper coordination layer

    A shallow embedding of the coordination code of serviced:
    - [dao]: the entity records (Service, ServiceState) and the desired-state
      constants;
    - [zkdao]: the versioned entity store over a [*zk.Conn]
      (AddService, AddServiceState, UpdateService, RemoveService and the
      load-and-update helpers);
    - [controlplane]: the snapshot request/wait operation;
    - [zzk]: the listener framework (PathExists, Ready, Listen, Start);
    - [dao_entities]: the methods of the entities (HasImports,
      GetServiceImports, GetHostPort, NewServiceState);
    - [zkdao_store]: the rest of the store (RemoveServiceState,
      UpdateServiceState, GetServiceStates, the snapshot state, the
      methods of ZkDao and their connection);
    - [listeners]: what Listen and Start show whatever the hooks of a
      listener do.

    Go values are modelled as follows: [string] is [string], [[]byte] is
    [bytes], [int] and versions are [Z], an [error] return is
    [option error] ([None] is Go's [nil]), a [(value, error)] return is
    [result]. *)

From stdpp Require Import base gmap strings list pretty.
From Stdlib Require Import ZArith Lia Ascii.

Open Scope string_scope.
Open Scope Z_scope.
Open Scope list_scope.

(** ** Go basics shared by all packages *)

(** A JSON payload, [[]byte] in the source. *)
Definition bytes : Type := string.

(** Go [error] values that the modelled code creates or compares with. *)
Inductive error : Type :=
| ErrNoNode                       (* zk.ErrNoNode / client.ErrNoNode *)
| ErrNodeExists                   (* zk.ErrNodeExists *)
| ErrBadVersion                   (* zk.ErrBadVersion: stale version on Set/Delete *)
| ErrNotEmpty                     (* zk.ErrNotEmpty *)
| ErrConn (msg : string)          (* any other failure of the connection *)
| ErrJSON (msg : string)          (* a failure of encoding/json *)
| errors_New (msg : string)       (* errors.New(msg) and fmt.Errorf results *)
| ErrTimeout                      (* zzk.ErrTimeout *)
| ErrShutdown.                    (* zzk.ErrShutdown *)

Global Instance error_eq_dec : EqDecision error.
Proof. solve_decision. Defined.

(** A Go [(value, error)] pair of which only one side is meaningful. *)
Inductive result (A : Type) : Type :=
| Ok (a : A)
| Err (e : error).
Arguments Ok {A} a.
Arguments Err {A} e.

(** [encoding/json] for one Go type: [json.Marshal(v)] and
    [json.Unmarshal(data, &v)] on a fresh zero value [v]. *)
Class JSON (T : Type) : Type := {
  Marshal : T → result bytes;
  Unmarshal : bytes → result T
}.

(** ** Package dao: entities *)

Module dao.

(** Desired states of services. *)
Definition SVC_RUN : Z := 1.
Definition SVC_STOP : Z := 0.
Definition SVN_RESTART : Z := -1.

(** [time.Time], kept as an instant on an integer time line. *)
Definition Time : Type := Z.

Record ServiceEndpoint : Type := {
  Protocol : string;
  PortNumber : Z;
  Application : string;
  Purpose : string
}.

Module Service.
Record t : Type := {
  Id : string;
  Name : string;
  Context : string;
  Startup : string;
  Description : string;
  Instances : Z;
  ImageId : string;
  PoolId : string;
  DesiredState : Z;
  Launch : string;
  Endpoints : option (list ServiceEndpoint);
  ParentServiceId : string;
  CreatedAt : Time;
  UpdatedAt : Time
}.

(** [s.DesiredState = v] *)
Definition set_DesiredState (v : Z) (s : t) : t :=
  {| Id := Id s; Name := Name s; Context := Context s;
     Startup := Startup s; Description := Description s;
     Instances := Instances s; ImageId := ImageId s; PoolId := PoolId s;
     DesiredState := v; Launch := Launch s; Endpoints := Endpoints s;
     ParentServiceId := ParentServiceId s; CreatedAt := CreatedAt s;
     UpdatedAt := UpdatedAt s |}.
End Service.

Module ServiceState.
Record t : Type := {
  Id : string;
  ServiceId : string;
  HostId : string;
  DockerId : string;
  PrivateIp : string;
  Scheduled : Time;
  Terminated : Time;
  Started : Time;
  PortMapping : gmap string (gmap string string);
  Endpoints : list ServiceEndpoint;
  HostIp : string
}.

(** [ss.Terminated = v] *)
Definition set_Terminated (v : Time) (ss : t) : t :=
  {| Id := Id ss; ServiceId := ServiceId ss; HostId := HostId ss;
     DockerId := DockerId ss; PrivateIp := PrivateIp ss;
     Scheduled := Scheduled ss; Terminated := v; Started := Started ss;
     PortMapping := PortMapping ss; Endpoints := Endpoints ss;
     HostIp := HostIp ss |}.
End ServiceState.

End dao.

(** ** The ZooKeeper connection used by package zzk's dao ([*zk.Conn])

    The store is a finite map from paths to nodes.  Every call on the
    connection is one step of the world: first the environment acts (other
    clients write, the connection may fail), then the call is served and
    recorded in the trace.  The environment's future behaviour is the
    [script]; once it is exhausted the environment stays quiet. *)

Module zk.

(** [zk.Stat]; the version is the only field the code reads. *)
Record Stat : Type := { Version : Z }.

Record znode : Type := { data : bytes; stat : Stat }.

(** A write of another client of the same ensemble. *)
Inductive write : Type :=
| WSet (p : string) (b : bytes)
| WCreate (p : string) (b : bytes)
| WDelete (p : string).

(** What the environment does at one step: the writes of other clients
    that land before the call is served, a failure of the connection
    for this call, and whether the session delivers an event to the
    watchers (go-zookeeper wakes every watcher on session changes). *)
Record tick : Type := {
  others : list write;
  fault : option error;
  session_event : bool
}.

Definition quiet : tick :=
  {| others := []; fault := None; session_event := false |}.

(** A pending one-shot children watch: the watched path and the listing
    it was registered with. *)
Record watch : Type := { wpath : string; wchildren : list string }.

(** The calls of the connection with their answers, as observed. *)
Inductive event : Type :=
| EvConnect (r : option error)
| EvClose
| EvGet (p : string) (r : result (bytes * Stat))
| EvSet (p : string) (b : bytes) (v : Z) (r : option error)
| EvCreate (p : string) (b : bytes) (r : option error)
| EvDelete (p : string) (v : Z) (r : option error)
| EvChildrenW (p : string) (r : result (list string))
| EvSelect (p : string) (fired : bool).

Record world : Type := {
  nodes : gmap string znode;
  script : list tick;
  trace : list event
}.

(** The name of [k] below [p], when [k] is a direct child of [p]. *)
Definition child_name (p k : string) : option string :=
  let pre := p +:+ "/" in
  if String.prefix pre k then
    let n := String.substring (String.length pre)
               (String.length k - String.length pre) k in
    if decide (n = "") then None
    else match String.index 0 "/" n with
         | Some _ => None
         | None => Some n
         end
  else None.

Definition children (m : gmap string znode) (p : string) : list string :=
  omap (child_name p) (elements (dom m)).

Definition store_set (p : string) (b : bytes) (m : gmap string znode)
  : gmap string znode :=
  match m !! p with
  | Some n => <[p := {| data := b; stat := {| Version := Version (stat n) + 1 |} |}]> m
  | None => m
  end.

Definition store_create (p : string) (b : bytes) (m : gmap string znode)
  : gmap string znode :=
  match m !! p with
  | Some _ => m
  | None => <[p := {| data := b; stat := {| Version := 0 |} |}]> m
  end.

Definition apply_write (m : gmap string znode) (w : write)
  : gmap string znode :=
  match w with
  | WSet p b => store_set p b m
  | WCreate p b => store_create p b m
  | WDelete p => delete p m
  end.

(** *** The state monad of a client *)

Definition M (A : Type) : Type := world → A * world.

Global Instance M_ret : MRet M := λ A a w, (a, w).
Global Instance M_bind : MBind M :=
  λ A B f m w, let '(a, w') := m w in f a w'.

(** The environment moves: the next tick of the script is consumed and
    the writes of the other clients are applied. *)
Definition env_tick : M tick := λ w,
  let t := hd quiet (script w) in
  (t, {| nodes := foldl apply_write (nodes w) (others t);
         script := tl (script w); trace := trace w |}).

Definition emit (e : event) : M unit := λ w,
  (tt, {| nodes := nodes w; script := script w; trace := trace w ++ [e] |}).

Definition get_nodes : M (gmap string znode) := λ w, (nodes w, w).

Definition put_nodes (m : gmap string znode) : M unit := λ w,
  (tt, {| nodes := m; script := script w; trace := trace w |}).

(** [zk.Connect(servers, timeout)] *)
Definition Connect : M (option error) :=
  t ← env_tick;
  emit (EvConnect (fault t));;
  mret (fault t).

(** [conn.Close()] *)
Definition Close : M unit := emit EvClose.

(** [conn.Get(path)] *)
Definition Get (p : string) : M (result (bytes * Stat)) :=
  t ← env_tick;
  m ← get_nodes;
  let r := match fault t with
           | Some e => Err e
           | None => match m !! p with
                     | Some n => Ok (data n, stat n)
                     | None => Err ErrNoNode
                     end
           end in
  emit (EvGet p r);;
  mret r.

(** [conn.Set(path, data, version)]: the write is refused unless
    [version] is the node's current version. *)
Definition Set_ (p : string) (b : bytes) (v : Z) : M (option error) :=
  t ← env_tick;
  m ← get_nodes;
  let r := match fault t with
           | Some e => Some e
           | None => match m !! p with
                     | None => Some ErrNoNode
                     | Some n => if decide (Version (stat n) = v) then None
                                 else Some ErrBadVersion
                     end
           end in
  put_nodes (if r is None then store_set p b m else m);;
  emit (EvSet p b v r);;
  mret r.

(** [conn.Create(path, data, 0, acl)] *)
Definition Create (p : string) (b : bytes) : M (option error) :=
  t ← env_tick;
  m ← get_nodes;
  let r := match fault t with
           | Some e => Some e
           | None => match m !! p with
                     | Some _ => Some ErrNodeExists
                     | None => None
                     end
           end in
  put_nodes (if r is None then store_create p b m else m);;
  emit (EvCreate p b r);;
  mret r.

(** [conn.Delete(path, version)] *)
Definition Delete (p : string) (v : Z) : M (option error) :=
  t ← env_tick;
  m ← get_nodes;
  let r := match fault t with
           | Some e => Some e
           | None => match m !! p with
                     | None => Some ErrNoNode
                     | Some n =>
                         if decide (Version (stat n) = v) then
                           if decide (children m p = []) then None
                           else Some ErrNotEmpty
                         else Some ErrBadVersion
                     end
           end in
  put_nodes (if r is None then delete p m else m);;
  emit (EvDelete p v r);;
  mret r.

(** The listing [r] of [p] together with the watch registered on it. *)
Definition with_watch (p : string) (r : result (list string))
  : result (list string * watch) :=
  match r with
  | Ok cs => Ok (cs, {| wpath := p; wchildren := cs |})
  | Err e => Err e
  end.

(** [conn.ChildrenW(path)]: the listing and a watch on it. *)
Definition ChildrenW (p : string) : M (result (list string * watch)) :=
  t ← env_tick;
  m ← get_nodes;
  let r := match fault t with
           | Some e => Err e
           | None => match m !! p with
                     | None => Err ErrNoNode
                     | Some _ => Ok (children m p)
                     end
           end in
  emit (EvChildrenW p r);;
  mret (with_watch p r).

(** [select { case evt := <-zke: ...; case <-time.After(d): ... }] on the
    channel of a children watch.  The environment moves once; the watch
    fires when the listing of the watched node changed, the node went
    away, or the session delivered an event; otherwise the timer wins. *)
Definition select_watch_or_timeout (wt : watch) : M bool :=
  t ← env_tick;
  m ← get_nodes;
  let fired :=
    session_event t
    || bool_decide (m !! wpath wt = None)
    || bool_decide (children m (wpath wt) ≠ wchildren wt) in
  emit (EvSelect (wpath wt) fired);;
  mret fired.

(** *** What each call leaves in the trace *)

Lemma bind_run {A B : Type} (c : M A) (k : A → M B) (w : world) :
  (c ≫= k) w = k (c w).1 (c w).2.
Proof. unfold mbind, M_bind. by destruct (c w). Qed.

Lemma ret_run {A : Type} (a : A) (w : world) : (mret a : M A) w = (a, w).
Proof. done. Qed.

(** Normalises a run of binds and returns. *)
Ltac zk_simp :=
  repeat first [ rewrite bind_run | rewrite ret_run | progress cbn [fst snd] ].

Lemma Connect_run (m : gmap string znode) (t : tick) (sc : list tick)
    (tr : list event) :
  Connect {| nodes := m; script := t :: sc; trace := tr |}
  = (fault t, {| nodes := foldl apply_write m (others t); script := sc;
                 trace := tr ++ [EvConnect (fault t)] |}).
Proof. done. Qed.

Lemma Get_run (p : string) (m : gmap string znode) (t : tick)
    (sc : list tick) (tr : list event) :
  let m' := foldl apply_write m (others t) in
  let r := match fault t with
           | Some e => Err e
           | None => match m' !! p with
                     | Some n => Ok (data n, stat n)
                     | None => Err ErrNoNode
                     end
           end in
  Get p {| nodes := m; script := t :: sc; trace := tr |}
  = (r, {| nodes := m'; script := sc; trace := tr ++ [EvGet p r] |}).
Proof. done. Qed.

Lemma Set_run (p : string) (b : bytes) (v : Z) (m : gmap string znode)
    (t : tick) (sc : list tick) (tr : list event) :
  let m' := foldl apply_write m (others t) in
  let r := match fault t with
           | Some e => Some e
           | None => match m' !! p with
                     | None => Some ErrNoNode
                     | Some n => if decide (Version (stat n) = v) then None
                                 else Some ErrBadVersion
                     end
           end in
  Set_ p b v {| nodes := m; script := t :: sc; trace := tr |}
  = (r, {| nodes := if r is None then store_set p b m' else m';
           script := sc; trace := tr ++ [EvSet p b v r] |}).
Proof. done. Qed.

Lemma Create_run (p : string) (b : bytes) (m : gmap string znode)
    (t : tick) (sc : list tick) (tr : list event) :
  let m' := foldl apply_write m (others t) in
  let r := match fault t with
           | Some e => Some e
           | None => match m' !! p with
                     | Some _ => Some ErrNodeExists
                     | None => None
                     end
           end in
  Create p b {| nodes := m; script := t :: sc; trace := tr |}
  = (r, {| nodes := if r is None then store_create p b m' else m';
           script := sc; trace := tr ++ [EvCreate p b r] |}).
Proof. done. Qed.

Lemma Connect_trace (w : world) :
  trace (Connect w).2 = trace w ++ [EvConnect (Connect w).1].
Proof. done. Qed.

Lemma Close_trace (w : world) : trace (Close w).2 = trace w ++ [EvClose].
Proof. done. Qed.

Lemma Get_trace (p : string) (w : world) :
  trace (Get p w).2 = trace w ++ [EvGet p (Get p w).1].
Proof. done. Qed.

Lemma Set_trace (p : string) (b : bytes) (v : Z) (w : world) :
  trace (Set_ p b v w).2 = trace w ++ [EvSet p b v (Set_ p b v w).1].
Proof. done. Qed.

Lemma Create_trace (p : string) (b : bytes) (w : world) :
  trace (Create p b w).2 = trace w ++ [EvCreate p b (Create p b w).1].
Proof. done. Qed.

Lemma Delete_trace (p : string) (v : Z) (w : world) :
  trace (Delete p v w).2 = trace w ++ [EvDelete p v (Delete p v w).1].
Proof. done. Qed.

(** *** Weakest preconditions

    [wp c Q w]: running [c] from [w] ends with an answer and a world that
    satisfy [Q].  The rules for the calls expose what the trace gains and
    nothing else of the store. *)

Definition wp {A : Type} (c : M A) (Q : A → world → Prop) (w : world)
  : Prop :=
  Q (c w).1 (c w).2.

Lemma wp_ret {A : Type} (a : A) (Q : A → world → Prop) (w : world) :
  Q a w → wp (mret a) Q w.
Proof. done. Qed.

Lemma wp_bind {A B : Type} (c : M A) (k : A → M B) (Q : B → world → Prop)
    (w : world) :
  wp c (λ a w', wp (k a) Q w') w → wp (c ≫= k) Q w.
Proof. unfold wp. by rewrite bind_run. Qed.

Lemma wp_mono {A : Type} (c : M A) (Q Q' : A → world → Prop) (w : world) :
  wp c Q w → (∀ a w', Q a w' → Q' a w') → wp c Q' w.
Proof. unfold wp. auto. Qed.

Lemma wp_Connect (Q : option error → world → Prop) (w : world) :
  (∀ r w', trace w' = trace w ++ [EvConnect r] → Q r w') → wp Connect Q w.
Proof. intros HQ. apply HQ, Connect_trace. Qed.

Lemma wp_Close (Q : unit → world → Prop) (w : world) :
  (∀ w', trace w' = trace w ++ [EvClose] → Q tt w') → wp Close Q w.
Proof. intros HQ. apply HQ, Close_trace. Qed.

Lemma wp_Get (p : string) (Q : result (bytes * Stat) → world → Prop)
    (w : world) :
  (∀ r w', trace w' = trace w ++ [EvGet p r] → Q r w') → wp (Get p) Q w.
Proof. intros HQ. apply HQ, Get_trace. Qed.

Lemma wp_Set (p : string) (b : bytes) (v : Z)
    (Q : option error → world → Prop) (w : world) :
  (∀ r w', trace w' = trace w ++ [EvSet p b v r] → Q r w') →
  wp (Set_ p b v) Q w.
Proof. intros HQ. apply HQ, Set_trace. Qed.

Lemma wp_Create (p : string) (b : bytes) (Q : option error → world → Prop)
    (w : world) :
  (∀ r w', trace w' = trace w ++ [EvCreate p b r] → Q r w') →
  wp (Create p b) Q w.
Proof. intros HQ. apply HQ, Create_trace. Qed.

Lemma wp_Delete (p : string) (v : Z) (Q : option error → world → Prop)
    (w : world) :
  (∀ r w', trace w' = trace w ++ [EvDelete p v r] → Q r w') →
  wp (Delete p v) Q w.
Proof. intros HQ. apply HQ, Delete_trace. Qed.

Lemma wp_ChildrenW (p : string)
    (Q : result (list string * watch) → world → Prop) (w : world) :
  (∀ r w', trace w' = trace w ++ [EvChildrenW p r] →
     Q (with_watch p r) w') →
  wp (ChildrenW p) Q w.
Proof. intros HQ. unfold wp. by apply HQ. Qed.

Lemma wp_select (wt : watch) (Q : bool → world → Prop) (w : world) :
  (∀ fired w', trace w' = trace w ++ [EvSelect (wpath wt) fired] →
     Q fired w') →
  wp (select_watch_or_timeout wt) Q w.
Proof. intros HQ. unfold wp. by apply HQ. Qed.

(** One syntax-directed step of a [wp] proof; the hypothesis about the
    trace of the new world is left at the top of the goal. *)
Ltac wp_step :=
  lazymatch goal with
  | |- wp (mret _) _ _ => apply wp_ret
  | |- wp (_ ≫= _) _ _ => apply wp_bind
  | |- wp Connect _ _ => apply wp_Connect
  | |- wp Close _ _ => apply wp_Close
  | |- wp (Get _) _ _ => apply wp_Get
  | |- wp (Set_ _ _ _) _ _ => apply wp_Set
  | |- wp (Create _ _) _ _ => apply wp_Create
  | |- wp (Delete _ _) _ _ => apply wp_Delete
  | |- wp (ChildrenW _) _ _ => apply wp_ChildrenW
  | |- wp (select_watch_or_timeout _) _ _ => apply wp_select
  end.

End zk.


(** A loop of the source run with a bound on its iterations. *)
Inductive fueled (A : Type) : Type :=
| Returned (a : A)
| OutOfFuel.
Arguments Returned {A} a.
Arguments OutOfFuel {A}.

(** ** Package zzk, the dao over ZooKeeper *)

Module zkdao.
Import dao zk.

Record HostServiceState : Type := {
  HostId : string;
  ServiceId : string;
  ServiceStateId : string;
  DesiredState : Z
}.

(** [hss.DesiredState = v] *)
Definition hss_set_DesiredState (v : Z) (hss : HostServiceState)
  : HostServiceState :=
  {| HostId := HostId hss; ServiceId := ServiceId hss;
     ServiceStateId := ServiceStateId hss; DesiredState := v |}.

(** ServiceState to HostServiceState *)
Definition SsToHss (ss : ServiceState.t) : HostServiceState :=
  {| HostId := ServiceState.HostId ss;
     ServiceId := ServiceState.ServiceId ss;
     ServiceStateId := ServiceState.Id ss;
     DesiredState := SVC_RUN |}.

Definition serviceMutator : Type := Service.t → Service.t.
Definition hssMutator : Type := HostServiceState → HostServiceState.
Definition ssMutator : Type := ServiceState.t → ServiceState.t.

(** How the drain loop of [RemoveService] is left. *)
Inductive loop_exit : Type :=
| Break (children : list string) (err : option error)
| Return (err : option error).

Section Dao.

(** The roots of the namespace are constants of the package that are
    declared outside the files at hand. *)
Variables SERVICE_PATH SCHEDULER_PATH : string.

Context `{JSON Service.t} `{JSON ServiceState.t} `{JSON HostServiceState}.

Definition HostPath (hostId : string) : string :=
  SCHEDULER_PATH +:+ "/" +:+ hostId.

Definition ServicePath (serviceId : string) : string :=
  SERVICE_PATH +:+ "/" +:+ serviceId.

Definition ServiceStatePath (serviceId serviceStateId : string) : string :=
  SERVICE_PATH +:+ "/" +:+ serviceId +:+ "/" +:+ serviceStateId.

Definition HostServiceStatePath (hostId serviceStateId : string) : string :=
  SCHEDULER_PATH +:+ "/" +:+ hostId +:+ "/" +:+ serviceStateId.

Definition AddService (service : Service.t) : M (option error) :=
  let servicePath := ServicePath (Service.Id service) in
  match Marshal service with
  | Err e => mret (Some e)
  | Ok sBytes =>
      err ← Create servicePath sBytes;
      mret err
  end.

Definition AddServiceState (state : ServiceState.t) : M (option error) :=
  let serviceStatePath :=
    ServiceStatePath (ServiceState.ServiceId state) (ServiceState.Id state) in
  match Marshal state with
  | Err e => mret (Some e)
  | Ok ssBytes =>
      err ← Create serviceStatePath ssBytes;
      match err with
      | Some e => mret (Some e)
      | None =>
          let hostServicePath :=
            HostServiceStatePath (ServiceState.HostId state)
              (ServiceState.Id state) in
          match Marshal (SsToHss state) with
          | Err e => mret (Some e)
          | Ok hssBytes =>
              err ← Create hostServicePath hssBytes;
              match err with
              | Some e => mret (Some e)
              | None => mret err
              end
          end
      end
  end.

(** [(this *ZkDao) AddServiceState] *)
Definition ZkDao_AddServiceState (state : ServiceState.t)
  : M (option error) :=
  err ← Connect;
  match err with
  | Some e => mret (Some e)
  | None =>
      r ← AddServiceState state;
      Close;;
      mret r
  end.

(** [(this *ZkDao) UpdateService] *)
Definition UpdateService (service : Service.t) : M (option error) :=
  err ← Connect;
  match err with
  | Some e => mret (Some e)
  | None =>
      let servicePath := ServicePath (Service.Id service) in
      r ← match Marshal service with
          | Err e => mret (Some e)
          | Ok sBytes =>
              g ← Get servicePath;
              match g with
              | Err _ =>
                  err ← AddService service;
                  mret err
              | Ok (_, stats) =>
                  err ← Set_ servicePath sBytes (Version stats);
                  mret err
              end
          end;
      Close;;
      mret r
  end.

Definition LoadService (serviceId : string)
  : M (result (Stat * Service.t)) :=
  g ← Get (ServicePath serviceId);
  match g with
  | Err e => mret (Err e)
  | Ok (sBytes, ssStat) =>
      match Unmarshal sBytes with
      | Err e => mret (Err e)
      | Ok s => mret (Ok (ssStat, s))
      end
  end.

Definition LoadAndUpdateServiceState (serviceId ssId : string)
    (mutator : ssMutator) : M (option error) :=
  let ssPath := ServiceStatePath serviceId ssId in
  g ← Get ssPath;
  match g with
  | Err e => mret (Some e)
  | Ok (serviceStateNode, stats) =>
      match Unmarshal serviceStateNode with
      | Err e => mret (Some e)
      | Ok ss =>
          match Marshal (mutator ss) with
          | Err e => mret (Some e)
          | Ok ssBytes =>
              err ← Set_ ssPath ssBytes (Version stats);
              match err with
              | Some e => mret (Some e)
              | None => mret None
              end
          end
      end
  end.

Definition loadAndUpdateService (serviceId : string)
    (mutator : serviceMutator) : M (option error) :=
  let servicePath := ServicePath serviceId in
  g ← Get servicePath;
  match g with
  | Err e => mret (Some e)
  | Ok (serviceNode, stats) =>
      match Unmarshal serviceNode with
      | Err e => mret (Some e)
      | Ok service =>
          match Marshal (mutator service) with
          | Err e => mret (Some e)
          | Ok serviceBytes =>
              err ← Set_ servicePath serviceBytes (Version stats);
              match err with
              | Some e => mret (Some e)
              | None => mret None
              end
          end
      end
  end.

Definition loadAndUpdateHss (hostId hssId : string) (mutator : hssMutator)
  : M (option error) :=
  let hssPath := HostServiceStatePath hostId hssId in
  g ← Get hssPath;
  match g with
  | Err e => mret (Some e)
  | Ok (hostStateNode, stats) =>
      match Unmarshal hostStateNode with
      | Err e => mret (Some e)
      | Ok hss =>
          match Marshal (mutator hss) with
          | Err e => mret (Some e)
          | Ok hssBytes =>
              err ← Set_ hssPath hssBytes (Version stats);
              match err with
              | Some e => mret (Some e)
              | None => mret None
              end
          end
      end
  end.

(** Communicates to the agent that this service instance should stop *)
Definition TerminateHostService (hostId serviceStateId : string)
  : M (option error) :=
  loadAndUpdateHss hostId serviceStateId (hss_set_DesiredState SVC_STOP).

(** The [for] loop of [RemoveService]: [r] is the answer of the
    [ChildrenW] of the init or post statement. *)
Fixpoint RemoveService_wait (fuel : nat) (servicePath : string)
    (r : result (list string * watch)) : M (fueled loop_exit) :=
  match r with
  | Err e => mret (Returned (Break [] (Some e)))
  | Ok (children, zke) =>
      if bool_decide (0 < length children)%nat then
        match fuel with
        | O => mret OutOfFuel
        | S fuel' =>
            fired ← select_watch_or_timeout zke;
            if fired : bool then
              r' ← ChildrenW servicePath;
              RemoveService_wait fuel' servicePath r'
            else
              mret (Returned (Return (Some (errors_New
                ("Timed out waiting for children to die for "
                   +:+ servicePath)))))
        end
      else mret (Returned (Break children None))
  end.

Definition RemoveService (fuel : nat) (id : string)
  : M (fueled (option error)) :=
  let servicePath := ServicePath id in
  err ← loadAndUpdateService id (Service.set_DesiredState SVC_STOP);
  match err with
  | Some e => mret (Returned (Some e))
  | None =>
      r ← ChildrenW servicePath;
      x ← RemoveService_wait fuel servicePath r;
      match x with
      | OutOfFuel => mret OutOfFuel
      | Returned (Return e) => mret (Returned e)
      | Returned (Break _ (Some e)) => mret (Returned (Some e))
      | Returned (Break _ None) =>
          l ← LoadService id;
          match l with
          | Err e => mret (Returned (Some e))
          | Ok (stats, _) =>
              err ← Delete servicePath (Version stats);
              match err with
              | Some e => mret (Returned (Some e))
              | None => mret (Returned None)
              end
          end
      end
  end.


(** *** Load, mutate, update *)

(** What a caller of a load-and-update helper on [p] observes on the
    connection ([evs]) and gets back ([r]): one read; then nothing more
    when the read or a codec failed; otherwise one write of the mutated
    entity, conditioned on the version that the read returned, whose
    answer is the helper's answer. *)
Definition versioned_calls {T : Type} `{JSON T} (p : string)
    (mutator : T → T) (r : option error) (evs : list event) : Prop :=
  (∃ e, evs = [EvGet p (Err e)] ∧ r = Some e)
  ∨ (∃ b st e, evs = [EvGet p (Ok (b, st))]
       ∧ Unmarshal b = Err e ∧ r = Some e)
  ∨ (∃ b st x e, evs = [EvGet p (Ok (b, st))]
       ∧ Unmarshal b = Ok x ∧ Marshal (mutator x) = Err e ∧ r = Some e)
  ∨ (∃ b st x b', evs = [EvGet p (Ok (b, st)); EvSet p b' (Version st) r]
       ∧ Unmarshal b = Ok x ∧ Marshal (mutator x) = Ok b').

(** The entity at [p] is [n1] when [update] reads it and [n2], with another
    version, when its write arrives: the caller gets the conflict error,
    the store keeps what the other writer left, and there is one write
    attempt only. *)
Definition conflict_surfaces {T : Type} `{JSON T} (p : string)
    (update : (T → T) → M (option error)) : Prop :=
  ∀ (mutator : T → T) (m : gmap string znode) (tr : list event)
    (t1 t2 : tick) (rest : list tick) (n1 n2 : znode) (x : T) (b' : bytes),
    let m1 := foldl apply_write m (others t1) in
    let m2 := foldl apply_write m1 (others t2) in
    fault t1 = None → fault t2 = None →
    m1 !! p = Some n1 → m2 !! p = Some n2 →
    Version (stat n2) ≠ Version (stat n1) →
    Unmarshal (data n1) = Ok x → Marshal (mutator x) = Ok b' →
    update mutator {| nodes := m; script := t1 :: t2 :: rest; trace := tr |}
    = (Some ErrBadVersion,
       {| nodes := m2; script := rest;
          trace := tr ++ [EvGet p (Ok (data n1, stat n1));
                          EvSet p b' (Version (stat n1)) (Some ErrBadVersion)] |}).

Definition versioned_update {T : Type} `{JSON T} (p : string)
    (update : (T → T) → M (option error)) : Prop :=
  (∀ (mutator : T → T) (w : world),
      wp (update mutator)
        (λ r w', ∃ evs, trace w' = trace w ++ evs
                        ∧ versioned_calls p mutator r evs) w)
  ∧ conflict_surfaces p update.

(** The three helpers differ in the path and the entity type only; one
    script proves the shape of their traces. *)
Ltac versioned_calls_tac p :=
  unfold versioned_calls, wp;
  intros mutator w; rewrite bind_run;
  pose proof (Get_trace p w) as HG;
  destruct (Get p w) as [[[b st]|e] w1]; cbn [fst snd] in *;
  [ destruct (Unmarshal b) as [x|e] eqn:HU;
    [ destruct (Marshal (mutator x)) as [b'|e] eqn:HM;
      [ rewrite bind_run;
        pose proof (Set_trace p b' (Version st) w1) as HS;
        destruct (Set_ p b' (Version st) w1) as [r w2]; cbn [fst snd] in *;
        exists [EvGet p (Ok (b, st)); EvSet p b' (Version st) r]; split;
        [ destruct r; cbn; rewrite HS, HG, <- app_assoc; done
        | do 3 right; exists b, st, x, b'; destruct r; cbn; eauto ]
      | eexists; split; [exact HG|]; right; right; left; eauto 10 ]
    | eexists; split; [exact HG|]; right; left; eauto 10 ]
  | eexists; split; [exact HG|]; left; eauto ].

Ltac conflict_tac :=
  cbv zeta; intros mutator m tr t1 t2 rest n1 n2 x b' F1 F2 L1 L2 Hv HU HM;
  rewrite bind_run, Get_run, F1, L1; cbn [fst snd];
  rewrite HU, HM, bind_run, Set_run, F2, L2; cbn [fst snd];
  destruct (decide (Version (stat n2) = Version (stat n1))); [done|];
  rewrite <- app_assoc; done.

Lemma loadAndUpdateService_versioned (serviceId : string) :
  versioned_update (ServicePath serviceId) (loadAndUpdateService serviceId).
Proof.
  split.
  - unfold loadAndUpdateService. versioned_calls_tac (ServicePath serviceId).
  - unfold conflict_surfaces, loadAndUpdateService. conflict_tac.
Qed.

Lemma LoadAndUpdateServiceState_versioned (serviceId ssId : string) :
  versioned_update (ServiceStatePath serviceId ssId)
    (LoadAndUpdateServiceState serviceId ssId).
Proof.
  split.
  - unfold LoadAndUpdateServiceState.
    versioned_calls_tac (ServiceStatePath serviceId ssId).
  - unfold conflict_surfaces, LoadAndUpdateServiceState. conflict_tac.
Qed.

Lemma loadAndUpdateHss_versioned (hostId hssId : string) :
  versioned_update (HostServiceStatePath hostId hssId)
    (loadAndUpdateHss hostId hssId).
Proof.
  split.
  - unfold loadAndUpdateHss.
    versioned_calls_tac (HostServiceStatePath hostId hssId).
  - unfold conflict_surfaces, loadAndUpdateHss. conflict_tac.
Qed.

(** C1.  For each entity kind (Service, ServiceState, HostServiceState) the
    load-and-update helper reads the node once, applies the caller's
    mutator to the decoded entity and issues one write conditioned on
    exactly the version that the read returned; whatever that write
    answers is returned to the caller, so a write refused because the
    entity changed in between surfaces as the conflict error, the store
    keeps the other writer's value and no second attempt is made. *)
Theorem loadAndUpdate_versioned_no_retry
    (serviceId ssId hostId hssId : string) :
  versioned_update (ServicePath serviceId) (loadAndUpdateService serviceId)
  ∧ versioned_update (ServiceStatePath serviceId ssId)
      (LoadAndUpdateServiceState serviceId ssId)
  ∧ versioned_update (HostServiceStatePath hostId hssId)
      (loadAndUpdateHss hostId hssId).
Proof.
  split; [|split].
  - apply loadAndUpdateService_versioned.
  - apply LoadAndUpdateServiceState_versioned.
  - apply loadAndUpdateHss_versioned.
Qed.

(** *** UpdateService *)

(** C9.  UpdateService is an upsert.  After connecting and encoding the
    payload it reads the service node; when that read fails, for whatever
    reason, the read's error is dropped and the node is created with the
    given payload through AddService, whose answer is returned; only when
    the read succeeds is the payload written with a Set conditioned on the
    version read.  In particular, on a store where the node is absent the
    call succeeds and leaves the node there with the payload. *)
Theorem UpdateService_upsert (service : Service.t) :
  let p := ServicePath (Service.Id service) in
  (∀ w : world,
      wp (UpdateService service) (λ r w', ∃ evs,
        trace w' = trace w ++ evs
        ∧ ((∃ e, evs = [EvConnect (Some e)] ∧ r = Some e)
         ∨ (∃ e, Marshal service = Err e
              ∧ evs = [EvConnect None; EvClose] ∧ r = Some e)
         ∨ (∃ sBytes e, Marshal service = Ok sBytes
              ∧ evs = [EvConnect None; EvGet p (Err e);
                       EvCreate p sBytes r; EvClose])
         ∨ (∃ sBytes b st, Marshal service = Ok sBytes
              ∧ evs = [EvConnect None; EvGet p (Ok (b, st));
                       EvSet p sBytes (Version st) r; EvClose]))) w)
  ∧ (∀ (m : gmap string znode) (tr : list event) (tc t1 t2 : tick)
       (rest : list tick) (sBytes : bytes),
        let m0 := foldl apply_write m (others tc) in
        let m1 := foldl apply_write m0 (others t1) in
        let m2 := foldl apply_write m1 (others t2) in
        Marshal service = Ok sBytes →
        fault tc = None → fault t1 = None → fault t2 = None →
        m1 !! p = None → m2 !! p = None →
        UpdateService service
          {| nodes := m; script := tc :: t1 :: t2 :: rest; trace := tr |}
        = (None,
           {| nodes := <[p := {| data := sBytes;
                                 stat := {| Version := 0 |} |}]> m2;
              script := rest;
              trace := tr ++ [EvConnect None; EvGet p (Err ErrNoNode);
                              EvCreate p sBytes None; EvClose] |})).
Proof.
  cbv zeta. split.
  - intros w.
    unfold UpdateService, AddService.
    wp_step. wp_step. intros [e|] w0 HC.
    { wp_step. eexists; split; [exact HC|]. left; eauto. }
    wp_step.
    destruct (Marshal service) as [sBytes|e] eqn:HM.
    2:{ do 3 wp_step. intros w1 HX. wp_step.
        exists [EvConnect None; EvClose]. split.
        - rewrite HX, HC, <- app_assoc; done.
        - right; left; eauto. }
    wp_step. wp_step. intros [[b st]|e] w1 HG.
    + do 2 wp_step. intros r w2 HS. do 3 wp_step. intros w3 HX. wp_step.
      eexists; split.
      * rewrite HX, HS, HG, HC, <- !app_assoc. cbn. reflexivity.
      * do 3 right. eauto 10.
    + do 3 wp_step. intros r w2 HS. do 4 wp_step. intros w3 HX. wp_step.
      eexists; split.
      * rewrite HX, HS, HG, HC, <- !app_assoc. cbn. reflexivity.
      * right; right; left. eauto 10.
  - intros m tr tc t1 t2 rest sBytes HM Fc F1 F2 L1 L2.
    unfold UpdateService, AddService.
    rewrite bind_run, Connect_run, Fc, HM. zk_simp.
    rewrite Get_run, F1, L1. zk_simp.
    rewrite Create_run, F2, L2. zk_simp.
    unfold Close, emit, store_create. rewrite L2. cbn.
    rewrite <- !app_assoc. reflexivity.
Qed.

(** *** AddServiceState and its shadow *)

Lemma SsToHss_ids (ss : ServiceState.t) :
  HostId (SsToHss ss) = ServiceState.HostId ss
  ∧ ServiceId (SsToHss ss) = ServiceState.ServiceId ss
  ∧ ServiceStateId (SsToHss ss) = ServiceState.Id ss.
Proof. done. Qed.

(** The calls of AddServiceState: no call when the state cannot be
    encoded; the primary create alone when it fails or when the shadow
    cannot be encoded; otherwise the primary create followed by the shadow
    create, whose answer is returned. *)
Lemma AddServiceState_calls (state : ServiceState.t) (w : world) :
  let ssPath :=
    ServiceStatePath (ServiceState.ServiceId state) (ServiceState.Id state) in
  let hssPath :=
    HostServiceStatePath (ServiceState.HostId state) (ServiceState.Id state) in
  wp (AddServiceState state) (λ r w', ∃ evs,
    trace w' = trace w ++ evs
    ∧ ((∃ e, Marshal state = Err e ∧ evs = [] ∧ r = Some e)
       ∨ (∃ ssBytes e, Marshal state = Ok ssBytes
            ∧ evs = [EvCreate ssPath ssBytes (Some e)] ∧ r = Some e)
       ∨ (∃ ssBytes e, Marshal state = Ok ssBytes
            ∧ Marshal (SsToHss state) = Err e
            ∧ evs = [EvCreate ssPath ssBytes None] ∧ r = Some e)
       ∨ (∃ ssBytes hssBytes, Marshal state = Ok ssBytes
            ∧ Marshal (SsToHss state) = Ok hssBytes
            ∧ evs = [EvCreate ssPath ssBytes None;
                     EvCreate hssPath hssBytes r]))) w.
Proof.
  cbv zeta. unfold AddServiceState.
  destruct (Marshal state) as [ssBytes|e] eqn:HM.
  2:{ wp_step. exists []. rewrite app_nil_r. split; [done|]. left; eauto. }
  do 2 wp_step. intros [e|] w1 H1'.
  { wp_step. eexists; split; [exact H1'|]. right; left; eauto 10. }
  destruct (Marshal (SsToHss state)) as [hssBytes|e] eqn:HM2.
  2:{ wp_step. eexists; split; [exact H1'|]. right; right; left; eauto 10. }
  do 2 wp_step. intros r w2 H2'.
  destruct r; wp_step; (eexists; split;
    [ rewrite H2', H1', <- app_assoc; reflexivity
    | do 3 right; exists ssBytes, hssBytes; done ]).
Qed.

(** C8.  AddServiceState performs two separate creates: the primary
    ServiceState node at the service-state path, then the HostServiceState
    shadow at the host path with the same HostId, ServiceId and
    ServiceStateId.  When the first create fails, the error is returned
    and no second create is issued.  When the second create fails, its
    error is returned, nothing is undone, and the store keeps the primary
    node that the first create wrote. *)
Theorem AddServiceState_two_creates_no_rollback (state : ServiceState.t) :
  let ssPath :=
    ServiceStatePath (ServiceState.ServiceId state) (ServiceState.Id state) in
  let hssPath :=
    HostServiceStatePath (ServiceState.HostId state) (ServiceState.Id state) in
  (HostId (SsToHss state) = ServiceState.HostId state
   ∧ ServiceId (SsToHss state) = ServiceState.ServiceId state
   ∧ ServiceStateId (SsToHss state) = ServiceState.Id state)
  ∧ (∀ w : world,
       wp (AddServiceState state) (λ r w', ∃ evs,
         trace w' = trace w ++ evs
         ∧ ((∃ e, Marshal state = Err e ∧ evs = [] ∧ r = Some e)
            ∨ (∃ ssBytes e, Marshal state = Ok ssBytes
                 ∧ evs = [EvCreate ssPath ssBytes (Some e)] ∧ r = Some e)
            ∨ (∃ ssBytes e, Marshal state = Ok ssBytes
                 ∧ Marshal (SsToHss state) = Err e
                 ∧ evs = [EvCreate ssPath ssBytes None] ∧ r = Some e)
            ∨ (∃ ssBytes hssBytes, Marshal state = Ok ssBytes
                 ∧ Marshal (SsToHss state) = Ok hssBytes
                 ∧ evs = [EvCreate ssPath ssBytes None;
                          EvCreate hssPath hssBytes r]))) w)
  ∧ (∀ (m : gmap string znode) (tr : list event) (t1 t2 : tick)
       (rest : list tick) (ssBytes hssBytes : bytes) (e : error),
        let m1 := foldl apply_write m (others t1) in
        let primary := {| data := ssBytes; stat := {| Version := 0 |} |} in
        let m2 := foldl apply_write (<[ssPath := primary]> m1) (others t2) in
        Marshal state = Ok ssBytes →
        Marshal (SsToHss state) = Ok hssBytes →
        fault t1 = None → m1 !! ssPath = None →
        (fault t2 = Some e
         ∨ (fault t2 = None ∧ is_Some (m2 !! hssPath) ∧ e = ErrNodeExists)) →
        AddServiceState state
          {| nodes := m; script := t1 :: t2 :: rest; trace := tr |}
        = (Some e,
           {| nodes := m2; script := rest;
              trace := tr ++ [EvCreate ssPath ssBytes None;
                              EvCreate hssPath hssBytes (Some e)] |})).
Proof.
  cbv zeta. split; [done|]. split.
  - intros w. apply AddServiceState_calls.
  - intros m tr t1 t2 rest ssBytes hssBytes e HM HM2 F1 L1 Hfail.
    unfold AddServiceState. rewrite HM.
    rewrite bind_run, Create_run, F1, L1. cbn [fst snd].
    rewrite HM2, bind_run, Create_run. unfold store_create.
    rewrite L1.
    destruct Hfail as [F2|(F2 & [n Hn] & ->)]; rewrite F2.
    + zk_simp. rewrite <- app_assoc. reflexivity.
    + rewrite Hn. zk_simp. rewrite <- app_assoc. reflexivity.
Qed.

(** C10.  The shadow produced by the conversion always has desired state
    SVC_RUN (1), and so has every shadow that AddServiceState writes:
    AddServiceState issues no read, and its second create, if any, carries
    the encoding of a HostServiceState with desired state 1, also on a
    store whose Service node for the state's service decodes to a stopped
    service. *)
Theorem shadow_DesiredState_always_run (state : ServiceState.t) :
  DesiredState (SsToHss state) = SVC_RUN
  ∧ SVC_RUN = 1
  ∧ ∀ (w : world) (n : znode) (svc : Service.t),
      nodes w !! ServicePath (ServiceState.ServiceId state) = Some n →
      Unmarshal (data n) = Ok svc →
      Service.DesiredState svc = SVC_STOP →
      wp (AddServiceState state) (λ r w', ∃ evs,
        trace w' = trace w ++ evs
        ∧ (∀ p r', EvGet p r' ∉ evs)
        ∧ ∀ e1 p b r', evs = [e1; EvCreate p b r'] →
            ∃ hss, Marshal hss = Ok b
                   ∧ DesiredState hss = 1
                   ∧ ServiceStateId hss = ServiceState.Id state) w.
Proof.
  split; [done|]. split; [done|].
  intros w n svc _ _ _.
  pose proof (AddServiceState_calls state w) as HC. cbv zeta in HC.
  unfold wp in *.
  destruct HC as (evs & Htr & Hcases).
  exists evs. split; [exact Htr|].
  destruct Hcases as [(e & _ & -> & _)|[(b & e & _ & -> & _)
    |[(b & e & _ & _ & -> & _)|(b & hb & _ & HM2 & ->)]]].
  - split; [intros p r' Hin; by apply elem_of_nil in Hin|]. intros; discriminate.
  - split; [|intros; discriminate].
    intros p r' Hin. apply list_elem_of_singleton in Hin. discriminate.
  - split; [|intros; discriminate].
    intros p r' Hin. apply list_elem_of_singleton in Hin. discriminate.
  - split.
    + intros p r' Hin. apply elem_of_cons in Hin as [?|Hin]; [discriminate|].
      apply list_elem_of_singleton in Hin. discriminate.
    + intros e1 p b' r' [= _ _ <- _]. exists (SsToHss state). done.
Qed.

(** *** RemoveService *)

Definition timeout_error (servicePath : string) : error :=
  errors_New ("Timed out waiting for children to die for " +:+ servicePath).


(** How the drain loop ends, from its last listing on. *)
Definition wait_end (p : string) (x : fueled loop_exit) (final : list event)
  : Prop :=
  (∃ e, final = [EvChildrenW p (Err e)] ∧ x = Returned (Break [] (Some e)))
  ∨ (∃ cs, cs ≠ [] ∧ final = [EvChildrenW p (Ok cs); EvSelect p false]
       ∧ x = Returned (Return (Some (timeout_error p))))
  ∨ (final = [EvChildrenW p (Ok [])] ∧ x = Returned (Break [] None))
  ∨ (∃ cs, cs ≠ [] ∧ final = [EvChildrenW p (Ok cs)] ∧ x = OutOfFuel).
















End Dao.

(** *** Runs on a concrete store

    The roots are taken as [/services] and [/scheduler]; the codecs are
    lookup tables for the few entities of the runs. *)

Module fixture.

Definition svc (desired : Z) : Service.t :=
  {| Service.Id := "svc"; Service.Name := "web"; Service.Context := "";
     Service.Startup := "run"; Service.Description := "";
     Service.Instances := 1; Service.ImageId := "img";
     Service.PoolId := "default"; Service.DesiredState := desired;
     Service.Launch := "auto"; Service.Endpoints := None;
     Service.ParentServiceId := ""; Service.CreatedAt := 0;
     Service.UpdatedAt := 0 |}.

Definition ss1 : ServiceState.t :=
  {| ServiceState.Id := "ss1"; ServiceState.ServiceId := "svc";
     ServiceState.HostId := "h1"; ServiceState.DockerId := "";
     ServiceState.PrivateIp := ""; ServiceState.Scheduled := 0;
     ServiceState.Terminated := 0; ServiceState.Started := 0;
     ServiceState.PortMapping := ∅; ServiceState.Endpoints := [];
     ServiceState.HostIp := "" |}.

Global Instance json_Service : JSON Service.t := {|
  Marshal s := Ok (if decide (Service.DesiredState s = SVC_STOP)
                   then "svc:stop" else "svc:run");
  Unmarshal b := if decide (b = "svc:stop") then Ok (svc SVC_STOP)
                 else if decide (b = "svc:run") then Ok (svc SVC_RUN)
                 else Err (ErrJSON "unexpected payload")
|}.

Global Instance json_ServiceState : JSON ServiceState.t := {|
  Marshal ss := Ok ("state:" +:+ ServiceState.Id ss);
  Unmarshal b := if decide (b = "state:ss1") then Ok ss1
                 else Err (ErrJSON "unexpected payload")
|}.

Global Instance json_HostServiceState : JSON HostServiceState := {|
  Marshal hss := Ok (if decide (DesiredState hss = SVC_STOP)
                     then "hss:stop" else "hss:run");
  Unmarshal b := if decide (b = "hss:stop")
                 then Ok (hss_set_DesiredState SVC_STOP (SsToHss ss1))
                 else if decide (b = "hss:run") then Ok (SsToHss ss1)
                 else Err (ErrJSON "unexpected payload")
|}.

Definition node (b : bytes) (v : Z) : znode :=
  {| data := b; stat := {| Version := v |} |}.

(** A store with the running service [svc] and no instance of it. *)
Definition store0 : gmap string znode :=
  {[ "/services/svc" := node "svc:run" 3 ]}.

(** The same with the instance [ss1] on host [h1]. *)
Definition store1 : gmap string znode :=
  <["/services/svc/ss1" := node "state:ss1" 0]>
    (<["/scheduler/h1/ss1" := node "hss:run" 0]> store0).

Definition start (m : gmap string znode) (sc : list tick) : world :=
  {| nodes := m; script := sc; trace := [] |}.

(** Another client writes [b] at [p] before the next call is served. *)
Definition other_sets (p : string) (b : bytes) : tick :=
  {| others := [WSet p b]; fault := None; session_event := false |}.

Definition other_deletes (p : string) : tick :=
  {| others := [WDelete p]; fault := None; session_event := false |}.

Definition failing (e : error) : tick :=
  {| others := []; fault := Some e; session_event := false |}.

End fixture.

Section Runs.
Import fixture.

Example children_store1 : children store1 "/services/svc" = ["ss1"].
Proof. vm_compute. reflexivity. Qed.

(** Terminating the instance while another client rewrites its shadow:
    the conflict comes back, one write was attempted with the version
    read, and the other client's payload stays. *)
Lemma loadAndUpdate_versioned_no_retry_witness :
  let run :=
    loadAndUpdateHss "/scheduler" "h1" "ss1" (hss_set_DesiredState SVC_STOP)
      {| nodes := store1;
         script := [quiet; other_sets "/scheduler/h1/ss1" "hss:run"];
         trace := [] |} in
  run.1 = Some ErrBadVersion
  ∧ nodes run.2 !! "/scheduler/h1/ss1" = Some (node "hss:run" 1)
  ∧ trace run.2
    = [EvGet "/scheduler/h1/ss1" (Ok ("hss:run", {| Version := 0 |}));
       EvSet "/scheduler/h1/ss1" "hss:stop" 0 (Some ErrBadVersion)].
Proof.
  cbv zeta.
  rewrite (proj2 (proj2 (proj2 (loadAndUpdate_versioned_no_retry
    "/services" "/scheduler" "svc" "ss1" "h1" "ss1")))
    (hss_set_DesiredState SVC_STOP) store1 [] quiet
    (other_sets "/scheduler/h1/ss1" "hss:run") []
    (node "hss:run" 0) (node "hss:run" 1) (SsToHss ss1) "hss:stop");
    by vm_compute.
Defined.

(** Adding an instance whose host already carries a shadow of that name:
    the second create is refused and the primary node stays behind. *)
Lemma AddServiceState_two_creates_no_rollback_witness :
  let run :=
    AddServiceState "/services" "/scheduler" ss1
      {| nodes := <["/scheduler/h1/ss1" := node "hss:run" 0]> store0;
         script := [quiet; quiet]; trace := [] |} in
  run.1 = Some ErrNodeExists
  ∧ nodes run.2 !! "/services/svc/ss1" = Some (node "state:ss1" 0)
  ∧ trace run.2
    = [EvCreate "/services/svc/ss1" "state:ss1" None;
       EvCreate "/scheduler/h1/ss1" "hss:run" (Some ErrNodeExists)].
Proof.
  cbv zeta.
  rewrite (proj2 (proj2 (AddServiceState_two_creates_no_rollback
    "/services" "/scheduler" ss1))
    (<["/scheduler/h1/ss1" := node "hss:run" 0]> store0) [] quiet quiet []
    "state:ss1" "hss:run" ErrNodeExists); try by vm_compute.
  right. split; [done|]. split; [|done]. vm_compute. eauto.
Defined.

(** Updating a service that is not in the store creates it. *)
Lemma UpdateService_upsert_witness :
  let run :=
    UpdateService "/services" (svc SVC_RUN)
      {| nodes := ∅; script := [quiet; quiet; quiet]; trace := [] |} in
  run.1 = None
  ∧ nodes run.2 !! "/services/svc" = Some (node "svc:run" 0)
  ∧ trace run.2
    = [EvConnect None; EvGet "/services/svc" (Err ErrNoNode);
       EvCreate "/services/svc" "svc:run" None; EvClose].
Proof.
  cbv zeta.
  rewrite (proj2 (UpdateService_upsert "/services" (svc SVC_RUN))
    ∅ [] quiet quiet quiet [] "svc:run"); by vm_compute.
Defined.

(** The shadow written for an instance of a stopped service says RUN. *)
Lemma shadow_DesiredState_always_run_witness :
  let w := {| nodes := {[ "/services/svc" := node "svc:stop" 0 ]};
              script := []; trace := [] |} in
  let run := AddServiceState "/services" "/scheduler" ss1 w in
  run.1 = None
  ∧ nodes run.2 !! "/scheduler/h1/ss1" = Some (node "hss:run" 0)
  ∧ ∃ hss, Marshal hss = Ok "hss:run" ∧ DesiredState hss = 1.
Proof.
  cbv zeta. split; [by vm_compute|]. split; [by vm_compute|].
  destruct (proj2 (proj2 (shadow_DesiredState_always_run
    "/services" "/scheduler" ss1))
    {| nodes := {[ "/services/svc" := node "svc:stop" 0 ]};
       script := []; trace := [] |}
    (node "svc:stop" 0) (svc SVC_STOP)) as (evs & Htr & _ & Hhss);
    try by vm_compute.
  destruct (Hhss (EvCreate "/services/svc/ss1" "state:ss1" None)
             "/scheduler/h1/ss1" "hss:run" None) as (hss & ? & ? & _).
  - vm_compute in Htr. by subst evs.
  - by exists hss.
Defined.

(** Drain correctness on a store without instances: the node is deleted
    at once, with the version left by the STOP update. *)
Example RemoveService_no_children :
  let run := RemoveService "/services" 1 "svc"
               {| nodes := store0; script := []; trace := [] |} in
  run.1 = Returned None
  ∧ nodes run.2 !! "/services/svc" = None
  ∧ trace run.2
    = [EvGet "/services/svc" (Ok ("svc:run", {| Version := 3 |}));
       EvSet "/services/svc" "svc:stop" 3 None;
       EvChildrenW "/services/svc" (Ok []);
       EvGet "/services/svc" (Ok ("svc:stop", {| Version := 4 |}));
       EvDelete "/services/svc" 4 None].
Proof. by vm_compute. Qed.

(** The instance goes away during the first wait: the deletion follows. *)
Example RemoveService_children_drained :
  let run := RemoveService "/services" 5 "svc"
               {| nodes := store1;
                  script := [quiet; quiet; quiet;
                             other_deletes "/services/svc/ss1"];
                  trace := [] |} in
  run.1 = Returned None
  ∧ nodes run.2 !! "/services/svc" = None
  ∧ trace run.2
    = [EvGet "/services/svc" (Ok ("svc:run", {| Version := 3 |}));
       EvSet "/services/svc" "svc:stop" 3 None;
       EvChildrenW "/services/svc" (Ok ["ss1"]);
       EvSelect "/services/svc" true;
       EvChildrenW "/services/svc" (Ok []);
       EvGet "/services/svc" (Ok ("svc:stop", {| Version := 4 |}));
       EvDelete "/services/svc" 4 None].
Proof. by vm_compute. Qed.


End Runs.
End zkdao.

(** ** Package elasticsearch: the snapshot request of the control plane *)

Module controlplane.

(** Modelled from the spec: [dao.SnapshotRequest] is declared outside the
    files at hand; it has an identity, the target service and the two
    result fields, which start empty and are filled by whoever serves the
    request. *)
Record SnapshotRequest : Type := {
  Id : string;
  ServiceId : string;
  SnapshotLabel : string;
  SnapshotError : string
}.

(** [time.Duration] counts nanoseconds. *)
Definition Second : Z := 1000000000.

(** What a run of the wait does, in order. *)
Inductive event : Type :=
| EvLoad (id : string) (err : option error) (loaded : SnapshotRequest)
| EvSleep (d : Z).

Section Snapshot.

(** Everything outside the function: the store, the leader that serves
    requests, the clock.  The methods that [Snapshot] calls on the dao are
    declared outside the files at hand; they are taken as operations on
    this state.  [LoadSnapshotRequestW] fills the request it is given. *)
Variable env : Type.
Variable now : env → Z.
Variable Sleep : Z → env → env.
Variable GetTenantId : string → env → result string * env.
Variable NewSnapshotRequest : string → string → env → result SnapshotRequest * env.
Variable AddSnapshotRequest : SnapshotRequest → env → option error * env.
Variable LoadSnapshotRequestW :
  string → SnapshotRequest → env → (option error * SnapshotRequest) * env.

(** [fmt]'s rendering of a request under the verb [%+v]. *)
Variable fmt_request : SnapshotRequest → string.

(** The error of [fmt.Errorf("timed out waiting %v for snapshot: %+v",
    timeOutValue, snapshotRequest)] for the timeout of one minute. *)
Definition timed_out (snapshotRequest : SnapshotRequest) : error :=
  errors_New ("timed out waiting 1m0s for snapshot: "
                +:+ fmt_request snapshotRequest).

(** The polling loop.  The answer is the returned error and the value of
    [*label]; the events are reported next to it. *)
Fixpoint Snapshot_wait (fuel : nat) (endTime : Z)
    (snapshotRequest : SnapshotRequest) (label : string) (e : env)
  : fueled (option error * string) * list event * env :=
  if bool_decide (now e < endTime) then
    match fuel with
    | O => (OutOfFuel, [], e)
    | S fuel' =>
        let '((err, loaded), e1) :=
          LoadSnapshotRequestW (Id snapshotRequest) snapshotRequest e in
        let ev := EvLoad (Id snapshotRequest) err loaded in
        match err with
        | Some err => (Returned (Some err, label), [ev], e1)
        | None =>
            if bool_decide (SnapshotError loaded ≠ "") then
              (Returned (Some (errors_New (SnapshotError loaded)), label),
               [ev], e1)
            else if bool_decide (SnapshotLabel loaded ≠ "") then
              (Returned (None, SnapshotLabel loaded), [ev], e1)
            else
              let '(x, evs, e2) :=
                Snapshot_wait fuel' endTime loaded label
                  (Sleep (1 * Second) e1) in
              (x, ev :: EvSleep (1 * Second) :: evs, e2)
        end
    end
  else (Returned (Some (timed_out snapshotRequest), label), [], e).

(** Snapshot is called via RPC by the CLI to take a snapshot for a
    serviceId *)
Definition Snapshot (fuel : nat) (serviceId : string) (label : string)
    (e : env) : fueled (option error * string) * list event * env :=
  match GetTenantId serviceId e with
  | (Err err, e) => (Returned (Some err, label), [], e)
  | (Ok tenantId, e) =>
      match NewSnapshotRequest serviceId "" e with
      | (Err err, e) => (Returned (Some err, label), [], e)
      | (Ok snapshotRequest, e) =>
          match AddSnapshotRequest snapshotRequest e with
          | (Some err, e) => (Returned (Some err, label), [], e)
          | (None, e) =>
              let timeOutValue := Second * 60 in
              let endTime := now e + timeOutValue in
              Snapshot_wait fuel endTime snapshotRequest label e
          end
      end
  end.

(** The polls that found nothing: the load succeeded, both result fields
    were empty, and a sleep of one second followed. *)
Inductive idle_polls : list event → Prop :=
| idle_nil : idle_polls []
| idle_cons (id : string) (loaded : SnapshotRequest) (evs : list event) :
    SnapshotError loaded = "" → SnapshotLabel loaded = "" →
    idle_polls evs →
    idle_polls (EvLoad id None loaded :: EvSleep Second :: evs).

(** How a wait that started with the request [first] and the label value
    [label] ends: [last] is the request as the last idle poll left it,
    [final] the events after the idle polls. *)
Definition wait_end (label : string) (last : SnapshotRequest)
    (x : fueled (option error * string)) (final : list event) : Prop :=
  (final = [] ∧ x = Returned (Some (timed_out last), label))
  ∨ (∃ err loaded, final = [EvLoad (Id last) (Some err) loaded]
       ∧ x = Returned (Some err, label))
  ∨ (∃ loaded, final = [EvLoad (Id last) None loaded]
       ∧ SnapshotError loaded ≠ ""
       ∧ x = Returned (Some (errors_New (SnapshotError loaded)), label))
  ∨ (∃ loaded, final = [EvLoad (Id last) None loaded]
       ∧ SnapshotError loaded = "" ∧ SnapshotLabel loaded ≠ ""
       ∧ x = Returned (None, SnapshotLabel loaded))
  ∨ (final = [] ∧ x = OutOfFuel).

(** The request that the idle polls [evs] leave, starting from [first]. *)
Fixpoint last_loaded (first : SnapshotRequest) (evs : list event)
  : SnapshotRequest :=
  match evs with
  | [] => first
  | EvLoad _ _ loaded :: evs' => last_loaded loaded evs'
  | EvSleep _ :: evs' => last_loaded first evs'
  end.

Lemma Snapshot_wait_shape (fuel : nat) (endTime : Z) (label : string) :
  ∀ (first : SnapshotRequest) (e : env),
    let '(x, evs, _) := Snapshot_wait fuel endTime first label e in
    ∃ idle final, evs = idle ++ final ∧ idle_polls idle
      ∧ wait_end label (last_loaded first idle) x final.
Proof.
  induction fuel as [|fuel IH]; intros first e; cbn [Snapshot_wait].
  - case_bool_decide.
    + exists [], []. split; [done|]. split; [constructor|].
      do 4 right. done.
    + exists [], []. split; [done|]. split; [constructor|]. by left.
  - case_bool_decide.
    2:{ exists [], []. split; [done|]. split; [constructor|]. by left. }
    destruct (LoadSnapshotRequestW _ _ e) as [[[err|] loaded] e1].
    { exists [], [EvLoad (Id first) (Some err) loaded].
      split; [done|]. split; [constructor|]. right; left. eauto. }
    case_bool_decide as HE.
    { exists [], [EvLoad (Id first) None loaded].
      split; [done|]. split; [constructor|]. right; right; left. eauto. }
    case_bool_decide as HL.
    { exists [], [EvLoad (Id first) None loaded].
      split; [done|]. split; [constructor|]. do 3 right; left.
      exists loaded. split; [done|]. split; [|done].
      destruct (decide (SnapshotError loaded = "")); [done|]. by destruct HE. }
    specialize (IH loaded (Sleep (1 * Second) e1)).
    destruct (Snapshot_wait fuel endTime loaded label _) as [[x evs] e2].
    destruct IH as (idle & final & -> & Hidle & Hend).
    exists (EvLoad (Id first) None loaded :: EvSleep Second :: idle), final.
    split; [done|]. split; [|done].
    constructor; [| |done].
    + destruct (decide (SnapshotError loaded = "")); [done|]. by destruct HE.
    + destruct (decide (SnapshotLabel loaded = "")); [done|]. by destruct HL.
Qed.

(** The wait as the environment decides it.  From the request [req] and
    the state [e] of the environment, with the deadline [endTime]:
    - the clock of [e] has reached the deadline: the timeout error naming
      [req], without a load;
    - otherwise the request is loaded from [e], and what this load
      answers decides: its error; or the SnapshotError of the request it
      filled; or, that being empty, its SnapshotLabel; or, both being
      empty, a sleep of one second and the wait goes on from the request
      as loaded and the environment as the sleep left it. *)
Inductive polling (endTime : Z) (label : string)
  : SnapshotRequest → env → fueled (option error * string) → list event
    → env → Prop :=
| polling_timeout req e :
    ¬ now e < endTime →
    polling endTime label req e
      (Returned (Some (timed_out req), label)) [] e
| polling_load_error req e err loaded e1 :
    now e < endTime →
    LoadSnapshotRequestW (Id req) req e = ((Some err, loaded), e1) →
    polling endTime label req e
      (Returned (Some err, label)) [EvLoad (Id req) (Some err) loaded] e1
| polling_snapshot_error req e loaded e1 :
    now e < endTime →
    LoadSnapshotRequestW (Id req) req e = ((None, loaded), e1) →
    SnapshotError loaded ≠ "" →
    polling endTime label req e
      (Returned (Some (errors_New (SnapshotError loaded)), label))
      [EvLoad (Id req) None loaded] e1
| polling_label req e loaded e1 :
    now e < endTime →
    LoadSnapshotRequestW (Id req) req e = ((None, loaded), e1) →
    SnapshotError loaded = "" → SnapshotLabel loaded ≠ "" →
    polling endTime label req e
      (Returned (None, SnapshotLabel loaded))
      [EvLoad (Id req) None loaded] e1
| polling_idle req e loaded e1 x evs e' :
    now e < endTime →
    LoadSnapshotRequestW (Id req) req e = ((None, loaded), e1) →
    SnapshotError loaded = "" → SnapshotLabel loaded = "" →
    polling endTime label loaded (Sleep Second e1) x evs e' →
    polling endTime label req e x
      (EvLoad (Id req) None loaded :: EvSleep Second :: evs) e'.

(** The environment leaves the wait no choice. *)
Lemma polling_functional (endTime : Z) (label : string)
    (req : SnapshotRequest) (e : env) x evs e' :
  polling endTime label req e x evs e' →
  ∀ x' evs' e'', polling endTime label req e x' evs' e'' →
    x = x' ∧ evs = evs' ∧ e' = e''.
Proof.
  induction 1 as [req e Hnow|req e err loaded e1 Hnow Hload
                 |req e loaded e1 Hnow Hload HE
                 |req e loaded e1 Hnow Hload HE HL
                 |req e loaded e1 x evs e' Hnow Hload HE HL Hrest IH];
    intros x' evs' e''; inversion 1; subst;
    try done; try congruence;
    match goal with
    | H1 : LoadSnapshotRequestW ?i ?r ?e = _,
      H2 : LoadSnapshotRequestW ?i ?r ?e = _ |- _ =>
        rewrite H1 in H2; inversion H2; subst; clear H2
    end; try done; try congruence.
  match goal with
  | H : polling _ _ _ _ _ _ _ |- _ =>
      by destruct (IH _ _ _ H) as (-> & -> & ->)
  end.
Qed.

(** The loads of a wait are asked of the environment one after the
    other, each with the request as the load before left it, and a wait
    that is over ended as the environment decided. *)
Lemma Snapshot_wait_polling (fuel : nat) (endTime : Z) (label : string) :
  ∀ (first : SnapshotRequest) (e : env),
    (Snapshot_wait fuel endTime first label e).1.1 ≠ OutOfFuel →
    polling endTime label first e
      (Snapshot_wait fuel endTime first label e).1.1
      (Snapshot_wait fuel endTime first label e).1.2
      (Snapshot_wait fuel endTime first label e).2.
Proof.
  induction fuel as [|fuel IH]; intros first e; cbn [Snapshot_wait].
  - case_bool_decide; [done|]. intros _. by apply polling_timeout.
  - case_bool_decide as Hnow; [|intros _; by apply polling_timeout].
    destruct (LoadSnapshotRequestW (Id first) first e)
      as [[[err|] loaded] e1] eqn:Hload.
    { intros _. by eapply polling_load_error. }
    case_bool_decide as HE.
    { intros _. by eapply polling_snapshot_error. }
    assert (HE' : SnapshotError loaded = "")
      by (destruct (decide (SnapshotError loaded = "")); [done|];
          by destruct HE).
    case_bool_decide as HL.
    { intros _. by eapply polling_label. }
    assert (HL' : SnapshotLabel loaded = "")
      by (destruct (decide (SnapshotLabel loaded = "")); [done|];
          by destruct HL).
    specialize (IH loaded (Sleep (1 * Second) e1)).
    destruct (Snapshot_wait fuel endTime loaded label _) as [[x evs] e2].
    cbn [fst snd] in *. intros Hx.
    eapply polling_idle; [done..|]. by apply IH.
Qed.

Section Clock.

(** The clock does not run backwards during a load, and a sleep lasts at
    least as long as asked. *)
Hypothesis load_monotone : ∀ id r e,
  now e ≤ now (LoadSnapshotRequestW id r e).2.
Hypothesis sleep_lasts : ∀ d e, now e + d ≤ now (Sleep d e).

(** A wait that has at most [fuel] seconds left makes at most [fuel]
    polls. *)
Lemma Snapshot_wait_total (fuel : nat) (endTime : Z) (label : string) :
  ∀ (first : SnapshotRequest) (e : env),
    endTime - now e ≤ Z.of_nat fuel * Second →
    (Snapshot_wait fuel endTime first label e).1.1 ≠ OutOfFuel.
Proof.
  induction fuel as [|fuel IH]; intros first e Hleft; cbn [Snapshot_wait].
  - case_bool_decide; [lia|done].
  - case_bool_decide; [|done].
    pose proof (load_monotone (Id first) first e) as Hm.
    destruct (LoadSnapshotRequestW _ _ e) as [[[err|] loaded] e1];
      cbn [fst snd] in *; [done|].
    case_bool_decide; [done|]. case_bool_decide; [done|].
    pose proof (sleep_lasts (1 * Second) e1) as Hs.
    specialize (IH loaded (Sleep (1 * Second) e1)).
    destruct (Snapshot_wait fuel endTime loaded label _) as [[x evs] e2].
    cbn [fst snd] in *. apply IH. unfold Second in *. lia.
Qed.

(** More fuel than needed changes nothing. *)
Lemma Snapshot_wait_fuel (fuel : nat) (endTime : Z) (label : string) :
  ∀ (fuel' : nat) (first : SnapshotRequest) (e : env),
    (fuel ≤ fuel')%nat →
    (Snapshot_wait fuel endTime first label e).1.1 ≠ OutOfFuel →
    Snapshot_wait fuel' endTime first label e
    = Snapshot_wait fuel endTime first label e.
Proof.
  induction fuel as [|fuel IH]; intros fuel' first e Hle; cbn [Snapshot_wait].
  - case_bool_decide; [done|]. intros _.
    destruct fuel'; cbn [Snapshot_wait]; by rewrite bool_decide_eq_false_2.
  - destruct fuel' as [|fuel']; [lia|]. cbn [Snapshot_wait].
    case_bool_decide; [|done].
    destruct (LoadSnapshotRequestW _ _ e) as [[[err|] loaded] e1]; [done|].
    case_bool_decide; [done|]. case_bool_decide; [done|].
    specialize (IH fuel' loaded (Sleep (1 * Second) e1)).
    destruct (Snapshot_wait fuel endTime loaded label _) as [[x evs] e2].
    cbn [fst snd]. intros Hx. rewrite IH; [done|lia|done].
Qed.


(** The number of loads among the events. *)
Fixpoint polls (evs : list event) : nat :=
  match evs with
  | [] => 0
  | EvLoad _ _ _ :: evs' => S (polls evs')
  | EvSleep _ :: evs' => polls evs'
  end.

Lemma Snapshot_wait_polls (fuel : nat) (endTime : Z) (label : string) :
  ∀ (first : SnapshotRequest) (e : env),
    (polls (Snapshot_wait fuel endTime first label e).1.2 ≤ fuel)%nat.
Proof.
  induction fuel as [|fuel IH]; intros first e; cbn [Snapshot_wait].
  - case_bool_decide; cbn; lia.
  - case_bool_decide; [|cbn; lia].
    destruct (LoadSnapshotRequestW _ _ e) as [[[err|] loaded] e1];
      [cbn; lia|].
    case_bool_decide; [cbn; lia|]. case_bool_decide; [cbn; lia|].
    specialize (IH loaded (Sleep (1 * Second) e1)).
    destruct (Snapshot_wait fuel endTime loaded label _) as [[x evs] e2].
    cbn [fst snd polls] in *. lia.
Qed.

(** C2.  Snapshot polls the request once a second for at most sixty
    seconds: sixty iterations always suffice, and more fuel changes
    nothing.  Failures of the calls that place the request are returned
    at once.  Otherwise the events are a run of idle polls, each a
    successful load with both result fields empty followed by a sleep of
    one second, and then one of: a failed load, whose error is returned; a
    load with a non-empty SnapshotError, returned as an error with exactly
    that text; a load with an empty SnapshotError and a non-empty
    SnapshotLabel, which succeeds and stores that label; or no further
    load, when the minute is over, with the timeout error that names the
    request.  The loads are those that the environment answers, each
    asked while the clock is before the deadline of sixty seconds after
    the request was placed, with the request as the load before filled
    it, and the answer of the last one decides the result; the timeout
    is returned only when the clock has reached the deadline.  Nothing
    else is a wait against this environment: result, events and final
    environment are the only ones. *)
Theorem Snapshot_polls_until_result (serviceId label : string) (e : env) :
  ∃ x evs e',
    Snapshot 60 serviceId label e = (x, evs, e')
    ∧ x ≠ OutOfFuel
    ∧ (polls evs ≤ 60)%nat
    ∧ (∀ fuel, (60 ≤ fuel)%nat →
         Snapshot fuel serviceId label e = (x, evs, e'))
    ∧ match GetTenantId serviceId e with
      | (Err err, _) => x = Returned (Some err, label) ∧ evs = []
      | (Ok _, e1) =>
          match NewSnapshotRequest serviceId "" e1 with
          | (Err err, _) => x = Returned (Some err, label) ∧ evs = []
          | (Ok first, e2) =>
              match AddSnapshotRequest first e2 with
              | (Some err, _) => x = Returned (Some err, label) ∧ evs = []
              | (None, e3) =>
                  polling (now e3 + Second * 60) label first e3 x evs e'
                  ∧ (∀ x' evs' e'',
                       polling (now e3 + Second * 60) label first e3
                         x' evs' e'' →
                       x' = x ∧ evs' = evs ∧ e'' = e')
                  ∧ ∃ idle final, evs = idle ++ final ∧ idle_polls idle
                      ∧ wait_end label (last_loaded first idle) x final
              end
          end
      end.
Proof.
  unfold Snapshot.
  assert (Hearly : ∀ (err : error) (e0 : env), ∃ x evs e',
    (Returned (Some err, label), @nil event, e0) = (x, evs, e')
    ∧ x ≠ OutOfFuel ∧ (polls evs ≤ 60)%nat
    ∧ (∀ fuel : nat, (60 ≤ fuel)%nat →
         (Returned (Some err, label), @nil event, e0) = (x, evs, e'))
    ∧ x = Returned (Some err, label) ∧ evs = []).
  { intros err e0. eexists _, _, _. split; [reflexivity|].
    split; [done|]. split; [cbn; lia|]. done. }
  destruct (GetTenantId serviceId e) as [[tenantId|err] e1];
    [|apply Hearly].
  destruct (NewSnapshotRequest serviceId "" e1) as [[first|err] e2];
    [|apply Hearly].
  destruct (AddSnapshotRequest first e2) as [[err|] e3];
    [apply Hearly|].
  cbv zeta.
  pose proof (Snapshot_wait_total 60 (now e3 + Second * 60) label first e3)
    as Htot.
  pose proof (Snapshot_wait_polls 60 (now e3 + Second * 60) label first e3)
    as Hpolls.
  pose proof (Snapshot_wait_shape 60 (now e3 + Second * 60) label first e3)
    as Hshape.
  pose proof (Snapshot_wait_polling 60 (now e3 + Second * 60) label first e3)
    as Hpolling.
  pose proof (λ fuel, Snapshot_wait_fuel 60 (now e3 + Second * 60) label
                fuel first e3) as Hfuel.
  destruct (Snapshot_wait 60 _ first label e3) as [[x evs] e'].
  cbn [fst snd] in *.
  assert (Hx : x ≠ OutOfFuel) by (apply Htot; lia).
  exists x, evs, e'. split; [done|]. split; [done|]. split; [done|].
  split; [intros fuel Hle; by apply Hfuel|].
  specialize (Hpolling Hx).
  split; [exact Hpolling|]. split; [|exact Hshape].
  intros x' evs' e'' Hp.
  by destruct (polling_functional _ _ _ _ _ _ _ Hpolling _ _ _ Hp)
    as (-> & -> & ->).
Qed.

End Clock.
End Snapshot.

(** *** Runs against a scripted leader

    The environment is a clock and the answers that the next loads give;
    a load takes two milliseconds, and once the answers are used up the
    request stays as it is. *)

Module sim.

Record env : Type := {
  clock : Z;
  answers : list (option error * SnapshotRequest)
}.

Definition now (e : env) : Z := clock e.

Definition Sleep (d : Z) (e : env) : env :=
  {| clock := clock e + d; answers := answers e |}.

Definition GetTenantId (serviceId : string) (e : env)
  : result string * env :=
  (Ok serviceId, e).

Definition NewSnapshotRequest (serviceId snapshotLabel : string) (e : env)
  : result SnapshotRequest * env :=
  (Ok {| Id := "req-1"; ServiceId := serviceId;
         SnapshotLabel := snapshotLabel; SnapshotError := "" |}, e).

Definition AddSnapshotRequest (r : SnapshotRequest) (e : env)
  : option error * env :=
  (None, e).

Definition LoadSnapshotRequestW (id : string) (r : SnapshotRequest)
    (e : env) : (option error * SnapshotRequest) * env :=
  match answers e with
  | [] => ((None, r), {| clock := clock e + 2000000; answers := [] |})
  | a :: rest => (a, {| clock := clock e + 2000000; answers := rest |})
  end.

Definition fmt_request (r : SnapshotRequest) : string :=
  "&{Id:" +:+ Id r +:+ " ServiceId:" +:+ ServiceId r
    +:+ " SnapshotLabel:" +:+ SnapshotLabel r
    +:+ " SnapshotError:" +:+ SnapshotError r +:+ "}".

Definition Snapshot (fuel : nat) (serviceId label : string) (e : env)
  : fueled (option error * string) * list event * env :=
  controlplane.Snapshot env now Sleep GetTenantId NewSnapshotRequest
    AddSnapshotRequest LoadSnapshotRequestW fmt_request
    fuel serviceId label e.

Definition pending : SnapshotRequest :=
  {| Id := "req-1"; ServiceId := "svc";
     SnapshotLabel := ""; SnapshotError := "" |}.

Definition fulfilled (l : string) : SnapshotRequest :=
  {| Id := "req-1"; ServiceId := "svc";
     SnapshotLabel := l; SnapshotError := "" |}.

Definition failed (msg : string) : SnapshotRequest :=
  {| Id := "req-1"; ServiceId := "svc";
     SnapshotLabel := ""; SnapshotError := msg |}.

End sim.

(** The leader writes the label during the third second. *)
Example Snapshot_happy_path :
  (sim.Snapshot 60 "svc" ""
     {| sim.clock := 0;
        sim.answers := [(None, sim.pending); (None, sim.pending);
                        (None, sim.fulfilled "snap-1")] |}).1
  = (Returned (None, "snap-1"),
     [EvLoad "req-1" None sim.pending; EvSleep Second;
      EvLoad "req-1" None sim.pending; EvSleep Second;
      EvLoad "req-1" None (sim.fulfilled "snap-1")]).
Proof. by vm_compute. Qed.

(** The leader reports a failure: its text comes back as the error. *)
Example Snapshot_failure_path :
  (sim.Snapshot 60 "svc" "old"
     {| sim.clock := 0;
        sim.answers := [(None, sim.pending);
                        (None, sim.failed "disk full")] |}).1.1
  = Returned (Some (errors_New "disk full"), "old").
Proof. by vm_compute. Qed.

(** A request carrying both an error and a label fails with the error. *)
Example Snapshot_error_before_label :
  (sim.Snapshot 60 "svc" ""
     {| sim.clock := 0;
        sim.answers :=
          [(None, {| Id := "req-1"; ServiceId := "svc";
                     SnapshotLabel := "snap-1";
                     SnapshotError := "disk full" |})] |}).1.1
  = Returned (Some (errors_New "disk full"), "").
Proof. by vm_compute. Qed.

(** The reload fails: the wait is over at once with that error. *)
Example Snapshot_load_error :
  (sim.Snapshot 60 "svc" ""
     {| sim.clock := 0;
        sim.answers := [(None, sim.pending);
                        (Some (ErrConn "connection lost"), sim.pending)] |}).1
  = (Returned (Some (ErrConn "connection lost"), ""),
     [EvLoad "req-1" None sim.pending; EvSleep Second;
      EvLoad "req-1" (Some (ErrConn "connection lost")) sim.pending]).
Proof. by vm_compute. Qed.

(** Nobody serves the request: after sixty polls the minute is over. *)
Example Snapshot_times_out :
  let run := sim.Snapshot 60 "svc" ""
               {| sim.clock := 0; sim.answers := [] |} in
  run.1.1
  = Returned (Some (errors_New
      "timed out waiting 1m0s for snapshot: &{Id:req-1 ServiceId:svc SnapshotLabel: SnapshotError:}"),
      "")
  ∧ polls run.1.2 = 60%nat
  ∧ 60 * Second ≤ sim.now run.2.
Proof. by vm_compute. Qed.

(** The leader writes the label during the third second: the wait is the
    one the environment decides, with its three loads, and it returns
    the label that the third load brought. *)
Lemma Snapshot_polls_until_result_witness :
  let e := {| sim.clock := 0;
              sim.answers := [(None, sim.pending); (None, sim.pending);
                              (None, sim.fulfilled "snap-1")] |} in
  let run := sim.Snapshot 60 "svc" "" e in
  run.1.1 = Returned (None, "snap-1")
  ∧ polls run.1.2 = 3%nat
  ∧ (∀ fuel, (60 ≤ fuel)%nat → sim.Snapshot fuel "svc" "" e = run)
  ∧ polling sim.env sim.now sim.Sleep sim.LoadSnapshotRequestW
      sim.fmt_request (60 * Second) "" sim.pending e
      (Returned (None, "snap-1")) run.1.2 run.2.
Proof.
  cbv zeta.
  destruct (Snapshot_polls_until_result sim.env sim.now sim.Sleep
              sim.GetTenantId sim.NewSnapshotRequest sim.AddSnapshotRequest
              sim.LoadSnapshotRequestW sim.fmt_request)
    with (serviceId := "svc") (label := "")
         (e := {| sim.clock := 0;
                  sim.answers := [(None, sim.pending); (None, sim.pending);
                                  (None, sim.fulfilled "snap-1")] |})
    as (x & evs & e' & Heq & _ & _ & Hfuel & Hwait).
  - intros id r e. unfold sim.now, sim.LoadSnapshotRequestW.
    destruct (sim.answers e); cbn; lia.
  - intros d e. unfold sim.now, sim.Sleep. cbn. lia.
  - cbn in Hwait. destruct Hwait as (Hwait & _).
    split; [by vm_compute|]. split; [by vm_compute|].
    split.
    + intros fuel Hle. fold (sim.Snapshot fuel "svc" "") in Hfuel.
      unfold sim.Snapshot at 2. rewrite Heq. by apply Hfuel.
    + unfold sim.Snapshot. rewrite Heq. cbn [fst snd].
      assert (Hx : x = Returned (None, "snap-1")).
      { apply (f_equal (λ r, r.1.1)) in Heq. cbn [fst snd] in Heq.
        rewrite <- Heq. by vm_compute. }
      rewrite <- Hx. exact Hwait.
Defined.

End controlplane.

(** ** Package zzk: listeners

    A listener runs against an environment that it does not control: the
    tree of the coordination store changes under it, watches fire, workers
    finish, the shutdown channel is closed.  The environment's behaviour
    is a script of ticks, one for each point where the listener calls the
    connection or waits on channels.  A run that needs a tick when the
    script is over is [Blocked]: nothing more is observed of it. *)

Module zzk.

(** [client.EventType] *)
Inductive EventType : Type :=
| EventNodeCreated
| EventNodeDeleted
| EventNodeDataChanged
| EventNodeChildrenChanged
| EventSession.

Global Instance EventType_eq_dec : EqDecision EventType.
Proof. solve_decision. Defined.

(** [client.Event]; the loop reads its type only. *)
Record Event : Type := { Type_ : EventType }.

(** The channel on which a waiting listener is woken. *)
Inductive signal : Type :=
| SigEvent (e : Event)          (* the watch delivers [e] *)
| SigDone (node : string)       (* the worker of [node] sends on [done] *)
| SigShutdown.                  (* the shutdown channel is closed *)

(** One step of the environment: the nodes that exist when the step is
    taken, each with the names of its children; a failure of the
    connection; and the channel that wakes the listener if it waits. *)
Record tick : Type := {
  tree : gmap string (list string);
  fault : option error;
  fired : signal
}.

(** What a listener does, as observed. *)
Inductive event : Type :=
| EvExists (p : string) (r : bool * option error)   (* conn.Exists(p) *)
| EvChildrenW (p : string) (r : result (list string))
| EvWait (shutdown : bool)       (* the select of Ready *)
| EvErrorf                       (* glog.Errorf *)
| EvReadySend (e : error)        (* ready <- err *)
| EvReadyClose                   (* close(ready) *)
| EvSpawn (node : string)        (* go func(node) { l.Spawn(_shutdown, node) } *)
| EvPostProcess (processing : gset string)
| EvSelect (s : signal)          (* the select of the loop *)
| EvDone                         (* l.Done() *)
| EvCloseShutdown                (* close(_shutdown) *)
| EvRecvDone (node : string).    (* <-done while draining *)

(** The workers are the goroutines that were spawned and have not yet
    handed their name over on [done]. *)
Record world : Type := {
  script : list tick;
  trace : list event;
  workers : list string
}.

Inductive outcome (A : Type) : Type :=
| Done (a : A)
| Blocked        (* waits for an environment that has no more steps *)
| Exhausted      (* the bound on the iterations is reached *)
| Infeasible.    (* the script is not an environment of this run *)
Arguments Done {A} a.
Arguments Blocked {A}.
Arguments Exhausted {A}.
Arguments Infeasible {A}.

Definition M (A : Type) : Type := world → outcome A * world.

Global Instance M_ret : MRet M := λ A a w, (Done a, w).
Global Instance M_bind : MBind M := λ A B f m w,
  match m w with
  | (Done a, w') => f a w'
  | (Blocked, w') => (Blocked, w')
  | (Exhausted, w') => (Exhausted, w')
  | (Infeasible, w') => (Infeasible, w')
  end.

Definition exhausted {A : Type} : M A := λ w, (Exhausted, w).

Definition emit (e : event) : M unit := λ w,
  (Done tt, {| script := script w; trace := trace w ++ [e];
               workers := workers w |}).

(** The environment takes its next step. *)
Definition env_tick : M tick := λ w,
  match script w with
  | [] => (Blocked, w)
  | t :: s => (Done t, {| script := s; trace := trace w;
                          workers := workers w |})
  end.

(** [conn.Exists(p)] *)
Definition conn_Exists (p : string) : M (bool * option error) :=
  t ← env_tick;
  let r := match fault t with
           | Some e => (false, Some e)
           | None => (bool_decide (p ∈ dom (tree t)), None)
           end in
  emit (EvExists p r);;
  mret r.

(** [conn.ChildrenW(p)]; the event channel is the environment's. *)
Definition conn_ChildrenW (p : string) : M (result (list string)) :=
  t ← env_tick;
  let r := match fault t with
           | Some e => Err e
           | None => match tree t !! p with
                     | Some nodes => Ok nodes
                     | None => Err ErrNoNode
                     end
           end in
  emit (EvChildrenW p r);;
  mret r.

(** [select { case <-event: ; case <-shutdown: }]: [true] when the
    shutdown channel wins.  No worker of this listener exists yet. *)
Definition select_event_or_shutdown : M bool := λ w,
  match script w with
  | [] => (Blocked, w)
  | t :: s =>
      match fired t with
      | SigEvent _ =>
          (Done false, {| script := s; trace := trace w ++ [EvWait false];
                          workers := workers w |})
      | SigShutdown =>
          (Done true, {| script := s; trace := trace w ++ [EvWait true];
                         workers := workers w |})
      | SigDone _ => (Infeasible, w)
      end
  end.

(** Removes one occurrence of [n]. *)
Fixpoint remove_one (n : string) (l : list string) : list string :=
  match l with
  | [] => []
  | x :: l' => if decide (x = n) then l' else x :: remove_one n l'
  end.

(** [select { case e := <-event: ; case node := <-done: ;
    case <-shutdown: }]: only a live worker can send on [done], and it is
    gone once its name is received. *)
Definition select_loop : M signal := λ w,
  match script w with
  | [] => (Blocked, w)
  | t :: s =>
      match fired t with
      | SigDone n =>
          if decide (n ∈ workers w) then
            (Done (SigDone n),
             {| script := s; trace := trace w ++ [EvSelect (SigDone n)];
                workers := remove_one n (workers w) |})
          else (Infeasible, w)
      | sg =>
          (Done sg, {| script := s; trace := trace w ++ [EvSelect sg];
                       workers := workers w |})
      end
  end.

(** The next worker to send on [done], and the script after it: while
    the listener drains it listens to nothing else. *)
Fixpoint next_done (sc : list tick) : option (string * list tick) :=
  match sc with
  | [] => None
  | t :: sc' =>
      match fired t with
      | SigDone n => Some (n, sc')
      | _ => next_done sc'
      end
  end.

(** [<-done] *)
Definition recv_done : M string := λ w,
  match next_done (script w) with
  | None => (Blocked, {| script := []; trace := trace w;
                         workers := workers w |})
  | Some (n, sc') =>
      if decide (n ∈ workers w) then
        (Done n, {| script := sc'; trace := trace w ++ [EvRecvDone n];
                    workers := remove_one n (workers w) |})
      else (Infeasible, w)
  end.

(** [go func(node string) { defer func() { done <- node }();
    l.Spawn(_shutdown, node) }(node)] *)
Definition go_Spawn (node : string) : M unit := λ w,
  (Done tt, {| script := script w; trace := trace w ++ [EvSpawn node];
               workers := node :: workers w |}).

(** Listener is zookeeper node listener type.  [GetConnection] is the
    world; [Done] and [Spawn] are observed as events; [Ready] answers
    once; [PostProcess] is handed the map itself and gives it back as it
    left it. *)
Record Listener : Type := {
  GetPath : list string → string;
  Listener_Ready : option error;
  PostProcess : gset string → gset string
}.

Section Zzk.

(** [path.Dir] of the Go library. *)
Variable Dir : string → string.

(** PathExists verifies if a path exists and does not raise an exception
    if the path does not exist *)
Definition PathExists (p : string) : M (bool * option error) :=
  '(exists_, err) ← conn_Exists p;
  if decide (err = Some ErrNoNode) then mret (false, None)
  else mret (exists_, err).

(** Ready waits for a node to be available for watching.  [Ready_for] is
    its [for] loop. *)
Fixpoint Ready (fuel : nat) (p : string) : M (option error) :=
  match fuel with
  | O => exhausted
  | S fuel' =>
      '(exists_, err) ← PathExists p;
      match err with
      | Some e => mret (Some e)
      | None =>
          if exists_ : bool then mret None
          else Ready_for fuel' p
      end
  end
with Ready_for (fuel : nat) (p : string) : M (option error) :=
  match fuel with
  | O => exhausted
  | S fuel' =>
      err ← Ready fuel' (Dir p);
      match err with
      | Some e => mret (Some e)
      | None =>
          '(exists_, err) ← PathExists p;
          match err with
          | Some e => mret (Some e)
          | None =>
              if exists_ : bool then mret None
              else
                r ← conn_ChildrenW (Dir p);
                match r with
                | Err e => mret (Some e)
                | Ok _ =>
                    shutdown ← select_event_or_shutdown;
                    if shutdown : bool then mret (Some ErrShutdown)
                    else Ready_for fuel' p
                end
          end
      end
  end.

(** [for _, node := range nodes { if _, ok := processing[node]; !ok
    { ... } }] *)
Fixpoint spawn_new (nodes : list string) (processing : gset string)
  : M (gset string) :=
  match nodes with
  | [] => mret processing
  | node :: nodes' =>
      if decide (node ∈ processing) then spawn_new nodes' processing
      else
        go_Spawn node;;
        spawn_new nodes' ({[node]} ∪ processing)
  end.

(** The loop of Listen; the answer is [processing] as the loop leaves
    it. *)
Fixpoint Listen_loop (fuel : nat) (l : Listener) (processing : gset string)
  : M (gset string) :=
  match fuel with
  | O => exhausted
  | S fuel' =>
      r ← conn_ChildrenW (GetPath l []);
      match r with
      | Err _ => emit EvErrorf;; mret processing
      | Ok nodes =>
          processing ← spawn_new nodes processing;
          let processing := PostProcess l processing in
          emit (EvPostProcess processing);;
          sg ← select_loop;
          match sg with
          | SigEvent e =>
              if decide (Type_ e = EventNodeDeleted) then mret processing
              else Listen_loop fuel' l processing
          | SigDone node => Listen_loop fuel' l (processing ∖ {[node]})
          | SigShutdown => mret processing
          end
      end
  end.

(** [for len(processing) > 0 { delete(processing, <-done) }] *)
Fixpoint Listen_drain (fuel : nat) (processing : gset string) : M unit :=
  if decide (0 < size processing)%nat then
    match fuel with
    | O => exhausted
    | S fuel' =>
        node ← recv_done;
        Listen_drain fuel' (processing ∖ {[node]})
    end
  else mret tt.

(** The deferred function of Listen. *)
Definition Listen_deferred (fuel : nat) (l : Listener)
    (processing : gset string) : M unit :=
  emit EvDone;;
  emit EvCloseShutdown;;
  Listen_drain fuel processing.

(** Listen initializes a listener for a particular zookeeper node *)
Definition Listen (fuel : nat) (l : Listener) : M unit :=
  err ← Ready fuel (GetPath l []);
  match err with
  | Some e => emit EvErrorf;; emit (EvReadySend e)
  | None =>
      match Listener_Ready l with
      | Some e => emit EvErrorf;; emit (EvReadySend e)
      | None =>
          emit EvReadyClose;;
          processing ← Listen_loop fuel l ∅;
          Listen_deferred fuel l processing
      end
  end.


(** *** Runs of the calls *)

Lemma bind_outcome {A B : Type} (c : M A) (k : A → M B) (w : world) :
  (c ≫= k) w
  = match c w with
    | (Done a, w') => k a w'
    | (Blocked, w') => (Blocked, w')
    | (Exhausted, w') => (Exhausted, w')
    | (Infeasible, w') => (Infeasible, w')
    end.
Proof. done. Qed.

(** What [conn.Exists(p)] answers at the tick [t]. *)
Definition exists_answer (t : tick) (p : string) : bool * option error :=
  match fault t with
  | Some e => (false, Some e)
  | None => (bool_decide (p ∈ dom (tree t)), None)
  end.

(** What [PathExists] makes of it. *)
Definition path_exists_answer (t : tick) (p : string)
  : bool * option error :=
  if decide ((exists_answer t p).2 = Some ErrNoNode) then (false, None)
  else exists_answer t p.

Definition children_answer (t : tick) (p : string)
  : result (list string) :=
  match fault t with
  | Some e => Err e
  | None => match tree t !! p with
            | Some nodes => Ok nodes
            | None => Err ErrNoNode
            end
  end.

Lemma PathExists_run (p : string) (w : world) :
  PathExists p w
  = match script w with
    | [] => (Blocked, w)
    | t :: s =>
        (Done (path_exists_answer t p),
         {| script := s; trace := trace w ++ [EvExists p (exists_answer t p)];
            workers := workers w |})
    end.
Proof.
  unfold PathExists, conn_Exists, env_tick, path_exists_answer, exists_answer.
  unfold mbind, M_bind, mret, M_ret, emit.
  destruct (script w) as [|t s]; [done|].
  destruct (fault t) as [e|]; cbn; [|done].
  by destruct (decide (Some e = Some ErrNoNode)).
Qed.

Lemma conn_ChildrenW_run (p : string) (w : world) :
  conn_ChildrenW p w
  = match script w with
    | [] => (Blocked, w)
    | t :: s =>
        (Done (children_answer t p),
         {| script := s;
            trace := trace w ++ [EvChildrenW p (children_answer t p)];
            workers := workers w |})
    end.
Proof.
  unfold conn_ChildrenW, env_tick, children_answer.
  unfold mbind, M_bind, mret, M_ret, emit.
  by destruct (script w) as [|t s].
Qed.

Lemma path_exists_answer_true (t : tick) (p : string) :
  path_exists_answer t p = (true, None) →
  fault t = None ∧ p ∈ dom (tree t)
  ∧ exists_answer t p = (true, None).
Proof.
  unfold path_exists_answer, exists_answer.
  destruct (fault t) as [e|]; cbn.
  - by destruct (decide (Some e = Some ErrNoNode)).
  - destruct (decide (None = Some ErrNoNode)); [done|].
    case_bool_decide; [done|]. intros [=].
Qed.

Lemma select_event_or_shutdown_run (w : world) :
  select_event_or_shutdown w
  = match script w with
    | [] => (Blocked, w)
    | t :: s =>
        match fired t with
        | SigEvent _ =>
            (Done false, {| script := s; trace := trace w ++ [EvWait false];
                            workers := workers w |})
        | SigShutdown =>
            (Done true, {| script := s; trace := trace w ++ [EvWait true];
                           workers := workers w |})
        | SigDone _ => (Infeasible, w)
        end
    end.
Proof. done. Qed.

(** *** Ready *)

(** The error, if any, that an observation of Ready stands for. *)
Definition failure_of (ev : event) : option error :=
  match ev with
  | EvWait true => Some ErrShutdown
  | EvExists _ (_, Some e) => if decide (e = ErrNoNode) then None else Some e
  | EvChildrenW _ (Err e) => Some e
  | _ => None
  end.

Definition quiet (evs : list event) : Prop :=
  Forall (λ ev, failure_of ev = None) evs.



(** How the observations of a run relate to its outcome: nothing in them
    stands for an error, except the last one of a run that returns an
    error, and that one stands for the error returned; a run that returns
    nil ends on finding [p]. *)
Definition Ready_shape (p : string) (o : outcome (option error))
    (evs : list event) : Prop :=
  match o with
  | Done None => quiet evs ∧ last evs = Some (EvExists p (true, None))
  | Done (Some e) =>
      ∃ evs' ev, evs = evs' ++ [ev] ∧ quiet evs' ∧ failure_of ev = Some e
  | _ => quiet evs
  end.







Lemma quiet_snoc_shape (p : string) (e : error) (evs : list event)
    (ev : event) :
  quiet evs → failure_of ev = Some e →
  Ready_shape p (Done (Some e)) (evs ++ [ev]).
Proof. intros. by exists evs, ev. Qed.












(** *** Listen: one worker for each tracked child *)

(** The children that have a worker, after one more observation. *)
Definition track (s : gset string) (ev : event) : gset string :=
  match ev with
  | EvSpawn n => {[n]} ∪ s
  | EvSelect (SigDone n) => s ∖ {[n]}
  | EvRecvDone n => s ∖ {[n]}
  | _ => s
  end.

Definition tracked (t : list event) : gset string := foldl track ∅ t.





(** The observations of Ready. *)
Definition ready_event (ev : event) : Prop :=
  match ev with
  | EvExists _ _ | EvChildrenW _ _ | EvWait _ => True
  | _ => False
  end.

(** [w'] continues [w] by observations in [P] that leave the workers
    alone. *)
Definition observes (P : event → Prop) (w w' : world) : Prop :=
  workers w' = workers w
  ∧ ∃ evs, trace w' = trace w ++ evs ∧ Forall P evs.





Lemma observes_refl (P : event → Prop) (w : world) : observes P w w.
Proof. split; [done|]. exists []. by rewrite app_nil_r. Qed.

Lemma observes_trans (P : event → Prop) (w1 w2 w3 : world) :
  observes P w1 w2 → observes P w2 w3 → observes P w1 w3.
Proof.
  intros [Hw1 (evs1 & Ht1 & Hn1)] [Hw2 (evs2 & Ht2 & Hn2)].
  split; [congruence|]. exists (evs1 ++ evs2).
  split; [by rewrite Ht2, Ht1, app_assoc|]. by apply Forall_app.
Qed.





Lemma PathExists_observes (p : string) (w : world) :
  observes ready_event w (PathExists p w).2.
Proof.
  rewrite PathExists_run. destruct (script w); [apply observes_refl|].
  split; [done|]. eexists [_]. by repeat constructor.
Qed.

Lemma conn_ChildrenW_observes (p : string) (w : world) :
  observes ready_event w (conn_ChildrenW p w).2.
Proof.
  rewrite conn_ChildrenW_run. destruct (script w); [apply observes_refl|].
  split; [done|]. eexists [_]. by repeat constructor.
Qed.

Lemma select_event_or_shutdown_observes (w : world) :
  observes ready_event w (select_event_or_shutdown w).2.
Proof.
  rewrite select_event_or_shutdown_run.
  destruct (script w) as [|t s]; [apply observes_refl|].
  destruct (fired t); cbn [snd]; try apply observes_refl;
    (split; [done|]; eexists [_]; by repeat constructor).
Qed.

(** Ready observes the store and waits; it touches no worker. *)
Lemma Ready_observes (fuel : nat) :
  (∀ p w, observes ready_event w (Ready fuel p w).2)
  ∧ (∀ p w, observes ready_event w (Ready_for fuel p w).2).
Proof.
  induction fuel as [|fuel [IHR IHF]]; [split; intros; apply observes_refl|].
  split; intros p w.
  - cbn [Ready]. rewrite bind_outcome.
    pose proof (PathExists_observes p w) as H1.
    destruct (PathExists p w) as [[[ex [e|]]| | |] w1]; cbn [fst snd] in *;
      try done.
    destruct ex; [done|]. eapply observes_trans; [done|apply IHF].
  - cbn [Ready_for]. rewrite bind_outcome.
    pose proof (IHR (Dir p) w) as H1.
    destruct (Ready fuel (Dir p) w) as [[[e|]| | |] w1]; cbn [fst snd] in *;
      try done.
    rewrite bind_outcome.
    pose proof (PathExists_observes p w1) as H2.
    destruct (PathExists p w1) as [[[ex [e|]]| | |] w2]; cbn [fst snd] in *;
      try (by eapply observes_trans).
    destruct ex; [by eapply observes_trans|].
    rewrite bind_outcome.
    pose proof (conn_ChildrenW_observes (Dir p) w2) as H3.
    destruct (conn_ChildrenW (Dir p) w2) as [[[nodes|e]| | |] w3];
      cbn [fst snd] in *;
      try (by eapply observes_trans; [eapply observes_trans|]).
    rewrite bind_outcome.
    pose proof (select_event_or_shutdown_observes w3) as H4.
    assert (H14 : ∀ w4, observes ready_event w3 w4 →
                        observes ready_event w w4).
    { intros w4 H. eapply observes_trans; [|done].
      eapply observes_trans; [|done]. by eapply observes_trans. }
    destruct (select_event_or_shutdown w3) as [[[|]| | |] w4];
      cbn [fst snd] in *; try (by apply H14).
    eapply observes_trans; [by apply H14|apply IHF].
Qed.









(** [w'] continues [w] by observations in [P]. *)
Definition extends (P : event → Prop) (w w' : world) : Prop :=
  ∃ evs, trace w' = trace w ++ evs ∧ Forall P evs.

Lemma extends_refl (P : event → Prop) (w : world) : extends P w w.
Proof. exists []. by rewrite app_nil_r. Qed.

Lemma extends_trans (P : event → Prop) (w1 w2 w3 : world) :
  extends P w1 w2 → extends P w2 w3 → extends P w1 w3.
Proof.
  intros (evs1 & Ht1 & Hn1) (evs2 & Ht2 & Hn2). exists (evs1 ++ evs2).
  split; [by rewrite Ht2, Ht1, app_assoc|]. by apply Forall_app.
Qed.



Lemma emit_trace (ev : event) (w : world) :
  trace (emit ev w).2 = trace w ++ [ev].
Proof. done. Qed.


Lemma emit_run (ev : event) (w : world) :
  emit ev w = (Done tt, (emit ev w).2).
Proof. done. Qed.














(** A run of Listen from a fresh start. *)
Definition start (sc : list tick) : world :=
  {| script := sc; trace := []; workers := [] |}.











End Zzk.
(** *** Start: a master listener and its dependents *)

Module group.

(** A goroutine started by Start.  The master runs [Listen] or, without a
    master, waits on [_shutdown]; a dependent runs [Listen].  What Listen
    does inside is seen here only so far as the channels of Start are
    concerned. *)
Inductive goroutine : Type :=
| Idle         (* <-_shutdown, the master being nil *)
| Starting     (* in Listen, nothing sent on ready yet *)
| Listening    (* in Listen, ready closed, in the loop *)
| Unwinding    (* in the deferred function of Listen *)
| Leaving      (* Listen has returned; the deferred call is next *)
| Exited.

Global Instance goroutine_eq_dec : EqDecision goroutine.
Proof. solve_decision. Defined.

(** What a goroutine does next. *)
Inductive move : Type :=
| Fail (e : error)    (* ready <- err; return *)
| CloseReady          (* close(ready) *)
| LeaveLoop           (* return, out of the loop of Listen *)
| Unwound             (* the deferred function of Listen is over *)
| Wake                (* <-_shutdown is received *)
| Deferred.           (* defer close(done), defer wg.Done() *)

Global Instance move_eq_dec : EqDecision move.
Proof. solve_decision. Defined.

(** [ready = make(chan error, 1)] *)
Inductive chan : Type :=
| ChEmpty
| ChValue (e : error)
| ChClosed.

Global Instance chan_eq_dec : EqDecision chan.
Proof. solve_decision. Defined.

(** Where Start itself is. *)
Inductive pc : Type :=
| AtSelectReady                     (* the first select *)
| AtLaunch (rest : list Listener)   (* for _, listener := range listeners *)
| AtSelectDone                      (* the second select *)
| AtCloseShutdown                   (* close(_shutdown) *)
| AtWait                            (* wg.Wait() *)
| Returned.

Inductive case_ : Type := CaseReady | CaseDone | CaseShutdown.

Inductive label : Type :=
| Caller                        (* the caller closes [shutdown] *)
| Master (m : move)
| Slave (i : nat) (m : move)
| Select (c : case_)            (* Start takes the case [c] of its select *)
| Step.                         (* Start executes its next statement *)

(** The variables of Start and its goroutines; a channel that is only
    ever closed is [true] once it is. *)
Record state : Type := {
  main : pc;
  master : goroutine;
  slaves : list goroutine;
  ready : chan;
  done : bool;
  shutdown : bool;
  _shutdown : bool;
  wg : nat
}.

Definition set_main (p : pc) (s : state) : state :=
  {| main := p; master := master s; slaves := slaves s; ready := ready s;
     done := done s; shutdown := shutdown s; _shutdown := _shutdown s;
     wg := wg s |}.

Definition set_master (g : goroutine) (s : state) : state :=
  {| main := main s; master := g; slaves := slaves s; ready := ready s;
     done := done s; shutdown := shutdown s; _shutdown := _shutdown s;
     wg := wg s |}.

Definition set_slaves (gs : list goroutine) (s : state) : state :=
  {| main := main s; master := master s; slaves := gs; ready := ready s;
     done := done s; shutdown := shutdown s; _shutdown := _shutdown s;
     wg := wg s |}.

Definition set_ready (c : chan) (s : state) : state :=
  {| main := main s; master := master s; slaves := slaves s; ready := c;
     done := done s; shutdown := shutdown s; _shutdown := _shutdown s;
     wg := wg s |}.

Definition close_done (s : state) : state :=
  {| main := main s; master := master s; slaves := slaves s;
     ready := ready s; done := true; shutdown := shutdown s;
     _shutdown := _shutdown s; wg := wg s |}.

Definition close_shutdown (s : state) : state :=
  {| main := main s; master := master s; slaves := slaves s;
     ready := ready s; done := done s; shutdown := true;
     _shutdown := _shutdown s; wg := wg s |}.

Definition close__shutdown (s : state) : state :=
  {| main := main s; master := master s; slaves := slaves s;
     ready := ready s; done := done s; shutdown := shutdown s;
     _shutdown := true; wg := wg s |}.

Definition set_wg (n : nat) (s : state) : state :=
  {| main := main s; master := master s; slaves := slaves s;
     ready := ready s; done := done s; shutdown := shutdown s;
     _shutdown := _shutdown s; wg := n |}.

(** Listen, from the outside.  It sends on [ready] at most once, an error
    on its way out or nothing by closing it; its deferred function is
    set up only after [ready] is closed. *)
Definition Listen_step (m : move) (g : goroutine) : option goroutine :=
  match m, g with
  | Fail _, Starting => Some Leaving
  | CloseReady, Starting => Some Listening
  | LeaveLoop, Listening => Some Unwinding
  | Unwound, Unwinding => Some Leaving
  | _, _ => None
  end.

Section Refines.

Variable Dir : string → string.

(** What a run of Listen lets its caller see: the error sent on [ready],
    the closing of [ready], and the start of the deferred function. *)
Definition move_of (ev : event) : option move :=
  match ev with
  | EvReadySend e => Some (Fail e)
  | EvReadyClose => Some CloseReady
  | EvDone => Some LeaveLoop
  | _ => None
  end.

Definition moves_of (t : list event) : list move := omap move_of t.

Fixpoint Listen_steps (ms : list move) (g : goroutine) : option goroutine :=
  match ms with
  | [] => Some g
  | m :: ms' => g' ← Listen_step m g; Listen_steps ms' g'
  end.

(** A computation in which the caller sees nothing. *)
Definition silent {A : Type} (c : M A) : Prop :=
  ∀ w, moves_of (trace (c w).2) = moves_of (trace w).

Lemma moves_of_snoc (t : list event) (ev : event) :
  moves_of (t ++ [ev])
  = moves_of t ++ match move_of ev with Some m => [m] | None => [] end.
Proof. unfold moves_of. rewrite omap_app. cbn. by destruct (move_of ev). Qed.

Lemma silent_ret {A : Type} (a : A) : silent (mret a : M A).
Proof. by intros w. Qed.

Lemma silent_exhausted {A : Type} : silent (exhausted : M A).
Proof. by intros w. Qed.

Lemma silent_bind {A B : Type} (c : M A) (k : A → M B) :
  silent c → (∀ a, silent (k a)) → silent (c ≫= k).
Proof.
  intros Hc Hk w. rewrite bind_outcome. specialize (Hc w).
  destruct (c w) as [[a| | |] w1]; cbn [snd] in *; try done.
  by rewrite Hk.
Qed.

Lemma silent_emit (ev : event) : move_of ev = None → silent (emit ev).
Proof.
  intros Hev w. cbn. rewrite moves_of_snoc, Hev. by rewrite app_nil_r.
Qed.

Lemma silent_env_tick : silent env_tick.
Proof. intros w. unfold env_tick. by destruct (script w). Qed.

Lemma silent_conn_Exists (p : string) : silent (conn_Exists p).
Proof.
  apply silent_bind; [apply silent_env_tick|]. intros t.
  apply silent_bind; [by apply silent_emit|]. intros _. apply silent_ret.
Qed.

Lemma silent_conn_ChildrenW (p : string) : silent (conn_ChildrenW p).
Proof.
  apply silent_bind; [apply silent_env_tick|]. intros t.
  apply silent_bind; [by apply silent_emit|]. intros _. apply silent_ret.
Qed.

Lemma silent_select_event_or_shutdown : silent select_event_or_shutdown.
Proof.
  intros w. unfold select_event_or_shutdown.
  destruct (script w) as [|t s]; [done|].
  destruct (fired t); cbn; try done;
    by rewrite moves_of_snoc, app_nil_r.
Qed.

Lemma silent_select_loop : silent select_loop.
Proof.
  intros w. unfold select_loop.
  destruct (script w) as [|t s]; [done|].
  destruct (fired t) as [e|n|]; try destruct (decide (n ∈ workers w));
    cbn; try done; by rewrite moves_of_snoc, app_nil_r.
Qed.

Lemma silent_recv_done : silent recv_done.
Proof.
  intros w. unfold recv_done.
  destruct (next_done (script w)) as [[n sc']|]; [|done].
  destruct (decide (n ∈ workers w)); cbn; [|done].
  by rewrite moves_of_snoc, app_nil_r.
Qed.

Lemma silent_go_Spawn (node : string) : silent (go_Spawn node).
Proof. intros w. cbn. by rewrite moves_of_snoc, app_nil_r. Qed.

Lemma silent_PathExists (p : string) : silent (PathExists p).
Proof.
  apply silent_bind; [apply silent_conn_Exists|]. intros [ex err].
  destruct (decide (err = Some ErrNoNode)); apply silent_ret.
Qed.

Lemma silent_Ready (fuel : nat) :
  (∀ p, silent (Ready Dir fuel p)) ∧ (∀ p, silent (Ready_for Dir fuel p)).
Proof.
  induction fuel as [|fuel [IHR IHF]]; [by split; intros p w|].
  split; intros p.
  - cbn [Ready]. apply silent_bind; [apply silent_PathExists|].
    intros [ex [e|]]; [apply silent_ret|].
    destruct ex; [apply silent_ret|apply IHF].
  - cbn [Ready_for]. apply silent_bind; [apply IHR|].
    intros [e|]; [apply silent_ret|].
    apply silent_bind; [apply silent_PathExists|].
    intros [ex [e|]]; [apply silent_ret|].
    destruct ex; [apply silent_ret|].
    apply silent_bind; [apply silent_conn_ChildrenW|].
    intros [nodes|e]; [|apply silent_ret].
    apply silent_bind; [apply silent_select_event_or_shutdown|].
    intros [|]; [apply silent_ret|apply IHF].
Qed.

Lemma silent_spawn_new (nodes : list string) (processing : gset string) :
  silent (spawn_new nodes processing).
Proof.
  revert processing. induction nodes as [|node nodes IH]; intros processing.
  { apply silent_ret. }
  cbn [spawn_new]. destruct (decide (node ∈ processing)); [apply IH|].
  apply silent_bind; [apply silent_go_Spawn|]. intros _. apply IH.
Qed.

Lemma silent_Listen_loop (fuel : nat) (l : Listener)
    (processing : gset string) :
  silent (Listen_loop fuel l processing).
Proof.
  revert processing. induction fuel as [|fuel IH]; intros processing.
  { apply silent_exhausted. }
  cbn [Listen_loop]. apply silent_bind; [apply silent_conn_ChildrenW|].
  intros [nodes|e].
  - apply silent_bind; [apply silent_spawn_new|]. intros processing'.
    apply silent_bind; [by apply silent_emit|]. intros _.
    apply silent_bind; [apply silent_select_loop|].
    intros [e|n|]; [|apply IH|apply silent_ret].
    destruct (decide (Type_ e = EventNodeDeleted));
      [apply silent_ret|apply IH].
  - apply silent_bind; [by apply silent_emit|]. intros _. apply silent_ret.
Qed.

Lemma silent_Listen_drain (fuel : nat) (processing : gset string) :
  silent (Listen_drain fuel processing).
Proof.
  revert processing. induction fuel as [|fuel IH]; intros processing.
  { cbn [Listen_drain].
    destruct (decide (0 < size processing)%nat);
      [apply silent_exhausted|apply silent_ret]. }
  cbn [Listen_drain].
  destruct (decide (0 < size processing)%nat); [|apply silent_ret].
  apply silent_bind; [apply silent_recv_done|]. intros node. apply IH.
Qed.

(** Listen_step is what Start can see of Listen.  Whatever the store and
    the workers do, a run of Listen shows its caller a path of Listen_step
    from Starting; when Listen has returned, either it has sent its error
    on [ready], or it has closed [ready] and run its deferred function to
    the end. *)
Lemma Listen_follows_Listen_step (fuel : nat) (l : Listener) (w : world) :
  moves_of (trace w) = [] →
  let o := (Listen Dir fuel l w).1 in
  let ms := moves_of (trace (Listen Dir fuel l w).2) in
  ∃ g, Listen_steps ms Starting = Some g
       ∧ (g = Unwinding ∨ ∀ x, o = Done x → g = Leaving)
       ∧ (∀ e, Fail e ∈ ms → ms = [Fail e])
       ∧ (CloseReady ∈ ms → g = Listening ∨ g = Unwinding).
Proof.
  intros Hw. cbv zeta. unfold Listen. rewrite bind_outcome.
  pose proof (proj1 (silent_Ready fuel) (GetPath l []) w) as H1.
  rewrite Hw in H1.
  assert (Hfail : ∀ e w1, moves_of (trace w1) = [] →
    moves_of (trace ((emit EvErrorf;; emit (EvReadySend e)) w1).2)
    = [Fail e]).
  { intros e w1 Hw1. rewrite bind_outcome. cbn -[moves_of].
    by rewrite !moves_of_snoc, Hw1. }
  assert (Hend : ∀ e og w',
    moves_of (trace w') = [Fail e] →
    ∃ g, Listen_steps (moves_of (trace w')) Starting = Some g
       ∧ (g = Unwinding ∨ ∀ x : unit, og = Done x → g = Leaving)
       ∧ (∀ e', Fail e' ∈ moves_of (trace w') →
            moves_of (trace w') = [Fail e'])
       ∧ (CloseReady ∈ moves_of (trace w') →
            g = Listening ∨ g = Unwinding)).
  { intros e og w' ->. exists Leaving. split; [done|]. split; [by right|].
    split.
    - by intros e' ->%list_elem_of_singleton.
    - by intros ?%list_elem_of_singleton. }
  destruct (Ready Dir fuel (GetPath l []) w) as [[[e|]| | |] w1];
    cbn [fst snd] in *.
  - apply (Hend e). by apply Hfail.
  - destruct (Listener_Ready l) as [e|].
    { apply (Hend e). by apply Hfail. }
    rewrite bind_outcome, emit_run. rewrite bind_outcome.
    assert (H2 : moves_of (trace (emit EvReadyClose w1).2) = [CloseReady])
      by (cbn; by rewrite moves_of_snoc, H1).
    pose proof (silent_Listen_loop fuel l ∅ (emit EvReadyClose w1).2) as H3.
    rewrite H2 in H3.
    destruct (Listen_loop fuel l ∅ (emit EvReadyClose w1).2)
      as [[processing| | |] w3]; cbn [fst snd] in *.
    + unfold Listen_deferred.
      rewrite bind_outcome, emit_run, bind_outcome, emit_run.
      pose proof (silent_Listen_drain fuel processing
                    (emit EvCloseShutdown (emit EvDone w3).2).2) as H4.
      assert (H5 : moves_of (trace (emit EvCloseShutdown (emit EvDone w3).2).2)
                   = [CloseReady; LeaveLoop])
        by (cbn -[moves_of]; by rewrite !moves_of_snoc, H3).
      rewrite H4, H5. exists Unwinding. split; [done|]. split; [by left|].
      split; [|by right].
      intros e. rewrite !elem_of_cons. intros [?|[?|?%elem_of_nil]]; done.
    + rewrite H3. exists Listening. split; [done|]. split; [by right|].
      split; [|by left]. by intros e ?%list_elem_of_singleton.
    + rewrite H3. exists Listening. split; [done|]. split; [by right|].
      split; [|by left]. by intros e ?%list_elem_of_singleton.
    + rewrite H3. exists Listening. split; [done|]. split; [by right|].
      split; [|by left]. by intros e ?%list_elem_of_singleton.
  - rewrite H1. exists Starting. split; [done|]. split; [by right|].
    split; [by intros e ?%elem_of_nil|by intros ?%elem_of_nil].
  - rewrite H1. exists Starting. split; [done|]. split; [by right|].
    split; [by intros e ?%elem_of_nil|by intros ?%elem_of_nil].
  - rewrite H1. exists Starting. split; [done|]. split; [by right|].
    split; [by intros e ?%elem_of_nil|by intros ?%elem_of_nil].
Qed.

End Refines.

(** [go func() { defer close(done); if master != nil { Listen(_shutdown,
    ready, master) } else { <-_shutdown } }()] *)
Definition master_step (m : move) (s : state) : option state :=
  match m, master s with
  | Wake, Idle =>
      if _shutdown s then Some (set_master Leaving s) else None
  | Deferred, Leaving => Some (close_done (set_master Exited s))
  | Fail e, Starting =>
      match ready s with
      | ChEmpty => Some (set_ready (ChValue e) (set_master Leaving s))
      | _ => None
      end
  | CloseReady, Starting =>
      Some (set_ready ChClosed (set_master Listening s))
  | _, g => g' ← Listen_step m g; Some (set_master g' s)
  end.

(** [go func(l Listener) { defer wg.Done(); Listen(_shutdown,
    make(chan error, 1), l) }(listener)]; the channel handed to Listen is
    the goroutine's own. *)
Definition slave_step (i : nat) (m : move) (s : state) : option state :=
  g ← slaves s !! i;
  match m, g with
  | Deferred, Leaving =>
      match wg s with
      | O => None
      | S n => Some (set_wg n (set_slaves (<[i := Exited]> (slaves s)) s))
      end
  | _, _ =>
      g' ← Listen_step m g; Some (set_slaves (<[i := g']> (slaves s)) s)
  end.

Section Start.

(** The arguments of Start. *)
Variable master_ : option Listener.
Variable listeners : list Listener.

(** The selects of Start.  A value received from [ready] is an error, and
    breaks out; a closed [ready] gives nil. *)
Definition select_step (c : case_) (s : state) : option state :=
  match main s, c with
  | AtSelectReady, CaseReady =>
      match ready s with
      | ChEmpty => None
      | ChValue _ => Some (set_main AtSelectDone (set_ready ChEmpty s))
      | ChClosed => Some (set_main (AtLaunch listeners) s)
      end
  | AtSelectReady, CaseDone =>
      if done s then Some (set_main AtSelectDone s) else None
  | AtSelectReady, CaseShutdown =>
      if shutdown s then Some (set_main AtSelectDone s) else None
  | AtSelectDone, CaseDone =>
      if done s then Some (set_main AtCloseShutdown s) else None
  | AtSelectDone, CaseShutdown =>
      if shutdown s then Some (set_main AtCloseShutdown s) else None
  | _, _ => None
  end.

(** The statements of Start between and after its selects. *)
Definition main_step (s : state) : option state :=
  match main s with
  | AtLaunch [] => Some (set_main AtSelectDone s)
  | AtLaunch (_ :: rest) =>
      Some (set_main (AtLaunch rest)
              (set_slaves (slaves s ++ [Starting]) (set_wg (S (wg s)) s)))
  | AtCloseShutdown =>
      if _shutdown s then None
      else Some (set_main AtWait (close__shutdown s))
  | AtWait =>
      match wg s with
      | O => Some (set_main Returned s)
      | S _ => None
      end
  | _ => None
  end.

Definition Start_step (lb : label) (s : state) : option state :=
  match lb with
  | Caller => if shutdown s then None else Some (close_shutdown s)
  | Master m => master_step m s
  | Slave i m => slave_step i m s
  | Select c => select_step c s
  | Step => main_step s
  end.

Fixpoint Start_run (ls : list label) (s : state) : option state :=
  match ls with
  | [] => Some s
  | lb :: ls' => s' ← Start_step lb s; Start_run ls' s'
  end.

(** Start has made its channels and launched the goroutine of the
    master. *)
Definition Start_init : state :=
  {| main := AtSelectReady;
     master := match master_ with Some _ => Starting | None => Idle end;
     slaves := [];
     ready := ChEmpty;
     done := false;
     shutdown := false;
     _shutdown := false;
     wg := O |}.

(** The goroutines that the wait group counts. *)
Fixpoint live (gs : list goroutine) : nat :=
  match gs with
  | [] => O
  | g :: gs' => if decide (g = Exited) then live gs' else S (live gs')
  end.

(** What holds of the variables of Start at every moment. *)
Record Inv (s : state) : Prop := {
  inv_wg : wg s = live (slaves s);
  inv_returned : main s = Returned → wg s = O;
  inv_wait : main s = AtWait ∨ main s = Returned → _shutdown s = true;
  inv_launch :
    match main s with
    | AtSelectReady => slaves s = []
    | AtLaunch rest =>
        ready s = ChClosed
        ∧ (length (slaves s) + length rest = length listeners)%nat
    | _ =>
        slaves s = []
        ∨ (ready s = ChClosed ∧ length (slaves s) = length listeners)
    end;
  inv_done : done s = true → master s = Exited;
  inv_starting : master s = Starting ∨ master s = Idle → ready s = ChEmpty;
  inv_idle : master_ = None → ready s = ChEmpty ∧ master s ≠ Starting
}.

(** What a run says about the state it leads to. *)
Record Hist (ls : list label) (s : state) : Prop := {
  hist_fail : ∀ e, Master (Fail e) ∈ ls →
    ready s ≠ ChClosed ∧ master s ≠ Starting;
  hist_closed : ready s = ChClosed → Master CloseReady ∈ ls;
  hist_slaves : slaves s ≠ [] → Select CaseReady ∈ ls;
  hist_launch : ∀ rest, main s = AtLaunch rest → Select CaseReady ∈ ls;
  hist_done : Select CaseDone ∈ ls → done s = true
}.

Lemma Start_run_snoc (ls : list label) (lb : label) (s : state) :
  Start_run (ls ++ [lb]) s = Start_run ls s ≫= Start_step lb.
Proof.
  revert s. induction ls as [|lb' ls IH]; intros s; cbn.
  - by destruct (Start_step lb s).
  - destruct (Start_step lb' s) as [s'|]; cbn; [apply IH|done].
Qed.

Lemma live_app (gs hs : list goroutine) :
  live (gs ++ hs) = (live gs + live hs)%nat.
Proof.
  induction gs as [|g gs IH]; cbn; [done|].
  destruct (decide (g = Exited)); cbn; by rewrite IH.
Qed.

(** A goroutine that moves inside Listen stays counted. *)
Lemma live_insert_same (gs : list goroutine) (i : nat) (g g' : goroutine) :
  gs !! i = Some g → g ≠ Exited → g' ≠ Exited →
  live (<[i := g']> gs) = live gs.
Proof.
  revert i. induction gs as [|h gs IH]; intros [|i] Hi Hg Hg'; try done.
  - cbn in *. simplify_eq. by rewrite !decide_False.
  - cbn in *. destruct (decide (h = Exited)); [by apply IH|].
    f_equal. by apply IH.
Qed.

(** A goroutine that exits is counted no more. *)
Lemma live_insert_exit (gs : list goroutine) (i : nat) (g : goroutine) :
  gs !! i = Some g → g ≠ Exited →
  live gs = S (live (<[i := Exited]> gs)).
Proof.
  revert i. induction gs as [|h gs IH]; intros [|i] Hi Hg; try done.
  - cbn in *. simplify_eq. by rewrite decide_False, decide_True.
  - cbn in *. destruct (decide (h = Exited)); [by apply IH|].
    f_equal. by apply IH.
Qed.

Lemma live_zero (gs : list goroutine) :
  live gs = O → Forall (λ g, g = Exited) gs.
Proof.
  induction gs as [|g gs IH]; cbn; [constructor|].
  destruct (decide (g = Exited)); [|done]. intros H. constructor; auto.
Qed.

Lemma Listen_step_live (m : move) (g g' : goroutine) :
  Listen_step m g = Some g' → g ≠ Exited ∧ g' ≠ Exited.
Proof. destruct m, g; cbn; intros ?; by simplify_eq. Qed.

Lemma Inv_init : Inv Start_init.
Proof.
  split; cbn; first [done | by intros [|] | by destruct master_].
Qed.

Lemma Hist_init : Hist [] Start_init.
Proof.
  split; cbn; try done.
  - intros e He. by apply elem_of_nil in He.
  - intros He. by apply elem_of_nil in He.
Qed.

Ltac inv_solve :=
  cbn in *; try done; try tauto;
  try (intuition (simplify_eq; eauto; done)).

(** Every step of Start and of its goroutines keeps the invariant. *)
Lemma Inv_step (lb : label) (s s' : state) :
  Inv s → Start_step lb s = Some s' → Inv s'.
Proof.
  intros [Hwg Hret Hwait Hlaunch Hdone Hstart Hidle] Hstep.
  destruct s as [p m sl r d sh ish w]; cbn in *.
  destruct lb as [|mv|i mv|c|]; cbn in Hstep.
  - destruct sh; simplify_eq. by split.
  - unfold master_step in Hstep; cbn in Hstep.
    destruct mv, m; cbn in Hstep; try destruct r; try destruct ish;
      simplify_eq; split; cbn; try done; try tauto;
      try (destruct p; inv_solve); inv_solve.
  - unfold slave_step in Hstep; cbn in Hstep.
    destruct (sl !! i) as [g|] eqn:Hi; cbn in Hstep; [|done].
    assert (Hne : sl ≠ []) by (by intros ->).
    assert (Hl : ∀ g', match p with
               | AtSelectReady => <[i := g']> sl = []
               | AtLaunch rest =>
                   r = ChClosed
                   ∧ (length (<[i := g']> sl) + length rest
                      = length listeners)%nat
               | _ =>
                   <[i := g']> sl = []
                   ∨ (r = ChClosed
                      ∧ length (<[i := g']> sl) = length listeners)
               end).
    { intros g'. rewrite length_insert. destruct p; inv_solve. }
    destruct (decide (mv = Deferred ∧ g = Leaving)) as [[-> ->]|Hnd].
    + destruct w as [|n]; cbn in Hstep; simplify_eq.
      pose proof (live_insert_exit sl i Leaving Hi ltac:(done)) as Hx.
      split; cbn; try done.
      * congruence.
      * intros Hp. by apply Hret in Hp.
      * apply Hl.
    + assert (∃ g', Listen_step mv g = Some g'
                    ∧ s' = {| main := p; master := m;
                              slaves := <[i := g']> sl; ready := r;
                              done := d; shutdown := sh; _shutdown := ish;
                              wg := w |}) as (g' & Hg' & ->).
      { destruct mv, g; cbn in Hstep; simplify_eq; try (by eexists);
          destruct Hnd; done. }
      destruct (Listen_step_live _ _ _ Hg') as [Hg1 Hg2].
      split; cbn; try done; [|apply Hl].
      by rewrite (live_insert_same sl i g g').
  - unfold select_step in Hstep; cbn in Hstep.
    destruct p, c; try done; try destruct r; try destruct d;
      try destruct sh; simplify_eq; split; inv_solve.
  - unfold main_step in Hstep; cbn in Hstep.
    destruct p as [|[|l rest]| | | |]; try done.
    + simplify_eq. split; cbn; try done; [by intros [|]|].
      right. destruct Hlaunch as [-> Hlen]. split; [done|]. cbn in Hlen. lia.
    + simplify_eq. split; cbn; try done; try (by intros [|]).
      * rewrite live_app. cbn. rewrite decide_False by done. lia.
      * destruct Hlaunch as [-> Hlen]. split; [done|].
        rewrite length_app. cbn in *. lia.
    + destruct ish; simplify_eq. split; inv_solve.
    + destruct w; simplify_eq. split; inv_solve.
Qed.

Ltac hist_solve :=
  cbn in *; intros;
  repeat match goal with
  | H : _ ∈ _ ++ [_] |- _ =>
      apply elem_of_app in H as [H|H];
      [|apply list_elem_of_singleton in H; simplify_eq]
  | |- _ ∈ _ ++ [_] => rewrite elem_of_app, list_elem_of_singleton
  | Hf : ∀ e, Master (Fail e) ∈ ?ls → _, H : Master (Fail ?e) ∈ ?ls |- _ =>
      specialize (Hf e H)
  end;
  try done; try tauto;
  try (intuition (simplify_eq; eauto; done)).

(** Every step extends what the run says. *)
Lemma Hist_step (ls : list label) (lb : label) (s s' : state) :
  Inv s → Hist ls s → Start_step lb s = Some s' → Hist (ls ++ [lb]) s'.
Proof.
  intros [_ _ _ Hl _ _ _] [Hfail Hclosed Hslaves Hlaunch Hdone] Hstep.
  destruct s as [p m sl r d sh ish w]; cbn in *.
  destruct lb as [|mv|i mv|c|]; cbn in Hstep.
  - destruct sh; simplify_eq. split; hist_solve.
  - unfold master_step in Hstep; cbn in Hstep.
    destruct mv, m; cbn in Hstep; try destruct r; try destruct ish;
      simplify_eq; split; hist_solve.
  - unfold slave_step in Hstep; cbn in Hstep.
    destruct (sl !! i) as [g|] eqn:Hi; cbn in Hstep; [|done].
    assert (Hne : sl ≠ []) by (by intros ->).
    destruct mv, g; cbn in Hstep; try destruct w; simplify_eq;
      split; clear Hl; hist_solve.
  - unfold select_step in Hstep; cbn in Hstep.
    destruct p, c; try done; try destruct r; try destruct d;
      try destruct sh; simplify_eq; split; hist_solve.
  - unfold main_step in Hstep; cbn in Hstep.
    destruct p as [|[|l rest]| | | |]; try done; try destruct ish;
      try destruct w; simplify_eq; split; hist_solve.
Qed.

(** The invariant and the history hold all along every run. *)
Lemma Start_run_Inv (ls : list label) (s : state) :
  Start_run ls Start_init = Some s → Inv s ∧ Hist ls s.
Proof.
  revert s. induction ls as [|lb ls IH] using rev_ind; intros s Hrun.
  - cbn in Hrun. simplify_eq. split; [apply Inv_init|apply Hist_init].
  - rewrite Start_run_snoc in Hrun.
    destruct (Start_run ls Start_init) as [s0|]; [|done]. cbn in Hrun.
    destruct (IH s0 eq_refl) as [Hi Hh]. split.
    + by eapply Inv_step.
    + by eapply Hist_step.
Qed.

(** Dependent listeners exist only if there is a master, its Listen has
    closed [ready] without sending an error on it before, and Start has
    taken the [ready] case of its first select. *)
Lemma Start_dependents_after_ready (ls : list label) (s : state) :
  Start_run ls Start_init = Some s → slaves s ≠ [] →
  master_ ≠ None
  ∧ Master CloseReady ∈ ls
  ∧ Select CaseReady ∈ ls
  ∧ ∀ e, Master (Fail e) ∉ ls.
Proof.
  intros [Hi Hh]%Start_run_Inv Hne.
  assert (Hr : ready s = ChClosed).
  { pose proof (inv_launch s Hi) as Hl. destruct (main s); tauto. }
  split; [|split; [|split]].
  - intros [Hr' _]%(inv_idle s Hi). congruence.
  - by apply (hist_closed ls s Hh).
  - by apply (hist_slaves ls s Hh).
  - intros e [Hr' _]%(hist_fail ls s Hh). done.
Qed.

(** When the start of the master fails, no dependent is ever started. *)
Lemma Start_master_fails (ls : list label) (s : state) (e : error) :
  Start_run ls Start_init = Some s → Master (Fail e) ∈ ls → slaves s = [].
Proof.
  intros Hrun Hin. destruct (decide (slaves s = [])) as [|Hne]; [done|].
  destruct (Start_dependents_after_ready ls s Hrun Hne) as (_ & _ & _ & Hf).
  by destruct (Hf e).
Qed.

(** When Start returns it has closed [_shutdown] and every dependent that
    it started, all of them or none, has run to its end. *)
Lemma Start_joins_dependents (ls : list label) (s : state) :
  Start_run ls Start_init = Some s → main s = Returned →
  _shutdown s = true
  ∧ Forall (λ g, g = Exited) (slaves s)
  ∧ (slaves s = [] ∨ length (slaves s) = length listeners).
Proof.
  intros [Hi _]%Start_run_Inv Hret. split; [|split].
  - apply (inv_wait s Hi). by right.
  - apply live_zero. rewrite <- (inv_wg s Hi). by apply (inv_returned s Hi).
  - pose proof (inv_launch s Hi) as Hl. rewrite Hret in Hl. tauto.
Qed.

(** When Start has seen [done] closed, the goroutine of the master is
    over. *)
Lemma Start_done_joins_master (ls : list label) (s : state) :
  Start_run ls Start_init = Some s → Select CaseDone ∈ ls →
  master s = Exited.
Proof.
  intros [Hi Hh]%Start_run_Inv Hin.
  apply (inv_done s Hi). by apply (hist_done ls s Hh).
Qed.

End Start.

(** C6.  Start can return while the goroutine of the master is still in
    the loop of Listen.  The master closes [ready]; Start launches the
    dependent, which starts to listen; the caller closes [shutdown] and
    the second select of Start takes that case; Start closes [_shutdown]
    and waits for the wait group, which counts the dependent only; the
    dependent unwinds and Start returns.  [done] is still open: nothing
    made Start wait for the master. *)
Theorem Start_returns_before_master (m l : Listener) :
  ∃ s,
    Start_run [l]
      [Master CloseReady; Select CaseReady; Step; Step;
       Slave 0 CloseReady; Caller; Select CaseShutdown; Step;
       Slave 0 LeaveLoop; Slave 0 Unwound; Slave 0 Deferred; Step]
      (Start_init (Some m)) = Some s
    ∧ main s = Returned
    ∧ _shutdown s = true
    ∧ slaves s = [Exited]
    ∧ master s = Listening
    ∧ done s = false.
Proof. eexists. by vm_compute. Qed.

End group.

(** *** Runs of Ready and Listen *)

Module runs.

(** [path.Dir] on paths that are already clean: the part before the last
    slash, the root for a child of the root, [.] without a slash. *)
Fixpoint before_last_slash (s : string) : option string :=
  match s with
  | EmptyString => None
  | String c s' =>
      match before_last_slash s' with
      | Some d => Some (String c d)
      | None => if decide (c = "/"%char) then Some "" else None
      end
  end.

Definition Dir (p : string) : string :=
  match before_last_slash p with
  | Some "" => "/"
  | Some d => d
  | None => "."
  end.

Example Dir_nested : Dir "/hosts/h1" = "/hosts".
Proof. reflexivity. Qed.

Example Dir_top : Dir "/hosts" = "/".
Proof. reflexivity. Qed.

Example Dir_root : Dir "/" = "/".
Proof. reflexivity. Qed.

(** A tick on a given tree, with no failure. *)
Definition on (tr : gmap string (list string)) (sg : signal) : tick :=
  {| tree := tr; fault := None; fired := sg |}.

Definition changed : signal :=
  SigEvent {| Type_ := EventNodeChildrenChanged |}.

Definition deleted : signal := SigEvent {| Type_ := EventNodeDeleted |}.


(** [/hosts] was created. *)
Definition tree1 : gmap string (list string) :=
  {[ "/" := ["hosts"]; "/hosts" := [] ]}.

(** [/hosts/h1] was created, with the children [A] and [B]. *)
Definition tree2 : gmap string (list string) :=
  {[ "/" := ["hosts"]; "/hosts" := ["h1"]; "/hosts/h1" := ["A"; "B"] ]}.

(** A listener on [/hosts/h1] whose hooks do nothing. *)
Definition host_listener : Listener :=
  {| GetPath nodes := foldl (λ p n, p +:+ "/" +:+ n) "/hosts/h1" nodes;
     Listener_Ready := None;
     PostProcess processing := processing |}.




(** The names for which a worker was spawned, in order. *)
Definition spawns (evs : list event) : list string :=
  omap (λ ev, match ev with EvSpawn n => Some n | _ => None end) evs.




(** The worker of [A] finishes and [A] is still listed: a second worker
    is spawned for it, after the first one is gone. *)
Example Listen_respawns_after_done :
  let w' := (Listen Dir 20 host_listener
               (start [on tree2 changed;
                       on tree2 changed; on tree2 (SigDone "A");
                       on tree2 changed])).2 in
  spawns (trace w') = ["A"; "B"; "A"] ∧ workers w' = ["A"; "B"].
Proof. by vm_compute. Qed.

(** The watched node is deleted while two workers are running. *)
Definition removal : list tick :=
  [on tree2 changed;
   on tree2 changed; on tree1 deleted;
   on tree1 (SigDone "B"); on tree1 (SigDone "A")].


(** The same run with the shutdown channel in the place of the deletion
    ends the same way. *)
Example Listen_shutdown_same_end :
  let removed := Listen Dir 20 host_listener (start removal) in
  let stopped := Listen Dir 20 host_listener
                   (start [on tree2 changed;
                           on tree2 changed; on tree2 SigShutdown;
                           on tree2 (SigDone "B"); on tree2 (SigDone "A")]) in
  removed.1 = stopped.1
  ∧ workers removed.2 = workers stopped.2
  ∧ drop 7 (trace removed.2) = drop 7 (trace stopped.2).
Proof. by vm_compute. Qed.

End runs.

End zzk.

(** ** Package dao: the methods of the entities *)

Module dao_entities.
Import dao.

(** The [for] loop of HasImports: it returns at the first import. *)
Fixpoint HasImports_range (eps : list ServiceEndpoint) : bool :=
  match eps with
  | [] => false
  | ep :: eps' =>
      if decide (Purpose ep = "import") then true else HasImports_range eps'
  end.

(** Does the service have endpoint imports *)
Definition HasImports (s : Service.t) : bool :=
  match Service.Endpoints s with
  | None => false
  | Some eps => HasImports_range eps
  end.

(** The [for] loop of GetServiceImports; [endpoints] is the slice built
    so far. *)
Fixpoint GetServiceImports_range (eps endpoints : list ServiceEndpoint)
  : list ServiceEndpoint :=
  match eps with
  | [] => endpoints
  | ep :: eps' =>
      if decide (Purpose ep = "import")
      then GetServiceImports_range eps' (endpoints ++ [ep])
      else GetServiceImports_range eps' endpoints
  end.

(** Retrieve service endpoint imports *)
Definition GetServiceImports (s : Service.t) : list ServiceEndpoint :=
  match Service.Endpoints s with
  | Some eps => GetServiceImports_range eps []
  | None => []
  end.

(** [uint16(n)] for an [int] *)
Definition uint16 (n : Z) : Z := n `mod` 65536.

(** The zero value of ServiceState. *)
Definition ServiceState_zero : ServiceState.t :=
  {| ServiceState.Id := ""; ServiceState.ServiceId := "";
     ServiceState.HostId := ""; ServiceState.DockerId := "";
     ServiceState.PrivateIp := ""; ServiceState.Scheduled := 0;
     ServiceState.Terminated := 0; ServiceState.Started := 0;
     ServiceState.PortMapping := ∅; ServiceState.Endpoints := [];
     ServiceState.HostIp := "" |}.

(** What a call that may dereference a nil pointer ends with. *)
Inductive may_panic (A : Type) : Type :=
| Value (a : A)
| Panic.
Arguments Value {A} a.
Arguments Panic {A}.

Section Library.

(** [fmt.Sprintf("%d", n)] and [strconv.Atoi] of the Go library. *)
Variable Sprintf_d : Z → string.
Variable Atoi : string → result Z.

(** The protocol as PortMapping spells it. *)
Definition mapping_key (protocol : string) : string :=
  if decide (protocol = "tcp") then "Tcp"
  else if decide (protocol = "udp") then "Udp"
  else protocol.

(** [ss.PortMapping[protocol][portS]]: a missing key gives the zero
    value. *)
Definition PortMapping_at (ss : ServiceState.t) (protocol portS : string)
  : string :=
  default "" (default ∅ (ServiceState.PortMapping ss !! protocol) !! portS).

(** The [for] loop of GetHostPort. *)
Fixpoint GetHostPort_range (ss : ServiceState.t)
    (eps : list ServiceEndpoint) (protocol application : string) (port : Z)
  : Z :=
  match eps with
  | [] => 0
  | ep :: eps' =>
      if decide (PortNumber ep = port ∧ Application ep = application
                 ∧ Protocol ep = protocol ∧ Purpose ep = "export")
      then
        let protocol := mapping_key protocol in
        let portS := Sprintf_d port in
        let externalS := PortMapping_at ss protocol portS in
        match Atoi externalS with
        | Ok external => uint16 external
        | Err _ => 0
        end
      else GetHostPort_range ss eps' protocol application port
  end.

(** Retrieve service container port, 0 failure *)
Definition GetHostPort (ss : ServiceState.t) (protocol application : string)
    (port : Z) : Z :=
  GetHostPort_range ss (ServiceState.Endpoints ss) protocol application port.

(** [NewUuid()] and [time.Now()], as they answer this call. *)
Variable NewUuid : string * option error.
Variable Now : Time.

(** A new service instance (ServiceState) *)
Definition NewServiceState (s : Service.t) (hostId : string)
  : may_panic (ServiceState.t * option error) :=
  let '(id, err) := NewUuid in
  let serviceState :=
    {| ServiceState.Id := id; ServiceState.ServiceId := "";
       ServiceState.HostId := ""; ServiceState.DockerId := "";
       ServiceState.PrivateIp := ""; ServiceState.Scheduled := 0;
       ServiceState.Terminated := 0; ServiceState.Started := 0;
       ServiceState.PortMapping := ∅; ServiceState.Endpoints := [];
       ServiceState.HostIp := "" |} in
  match err with
  | None =>
      match Service.Endpoints s with
      | None => Panic
      | Some eps =>
          Value ({| ServiceState.Id := id;
                    ServiceState.ServiceId := Service.Id s;
                    ServiceState.HostId := hostId;
                    ServiceState.DockerId := "";
                    ServiceState.PrivateIp := "";
                    ServiceState.Scheduled := Now;
                    ServiceState.Terminated := 0;
                    ServiceState.Started := 0;
                    ServiceState.PortMapping := ∅;
                    ServiceState.Endpoints := eps;
                    ServiceState.HostIp := "" |}, None)
      end
  | Some e => Value (serviceState, Some e)
  end.

(** The endpoint is an export of [application] on [port] over
    [protocol]. *)
Definition exports (protocol application : string) (port : Z)
    (ep : ServiceEndpoint) : Prop :=
  PortNumber ep = port ∧ Application ep = application
  ∧ Protocol ep = protocol ∧ Purpose ep = "export".

Global Instance exports_dec protocol application port ep :
  Decision (exports protocol application port ep).
Proof. unfold exports. apply _. Defined.

(** What PortMapping holds for the port, read as a [uint16]. *)
Definition mapped_port (ss : ServiceState.t) (protocol : string) (port : Z)
  : Z :=
  match Atoi (PortMapping_at ss (mapping_key protocol) (Sprintf_d port)) with
  | Ok external => uint16 external
  | Err _ => 0
  end.

Lemma HasImports_range_Exists (eps : list ServiceEndpoint) :
  HasImports_range eps = true ↔ Exists (λ ep, Purpose ep = "import") eps.
Proof.
  induction eps as [|ep eps IH]; cbn.
  - split; [done|]. by intros ?%Exists_nil.
  - rewrite Exists_cons. destruct (decide (Purpose ep = "import")); [tauto|].
    rewrite IH. tauto.
Qed.

Lemma GetServiceImports_range_filter (eps endpoints : list ServiceEndpoint) :
  GetServiceImports_range eps endpoints
  = endpoints ++ filter (λ ep, Purpose ep = "import") eps.
Proof.
  revert endpoints. induction eps as [|ep eps IH]; intros endpoints;
    cbn [GetServiceImports_range].
  - by rewrite app_nil_r.
  - rewrite filter_cons. destruct (decide (Purpose ep = "import")).
    + by rewrite IH, <- app_assoc.
    + apply IH.
Qed.

(** The imports that GetServiceImports returns are the endpoints of the
    service whose purpose is import, all of them, once each and in the
    order of the service; a service without endpoints has none. *)
Theorem GetServiceImports_are_the_imports (s : Service.t) :
  GetServiceImports s
  = filter (λ ep, Purpose ep = "import") (default [] (Service.Endpoints s)).
Proof.
  unfold GetServiceImports. destruct (Service.Endpoints s) as [eps|]; [|done].
  by rewrite GetServiceImports_range_filter.
Qed.

(** HasImports answers whether GetServiceImports finds anything. *)
Theorem HasImports_iff_GetServiceImports (s : Service.t) :
  HasImports s = true ↔ GetServiceImports s ≠ [].
Proof.
  unfold HasImports, GetServiceImports.
  destruct (Service.Endpoints s) as [eps|]; [|done].
  rewrite HasImports_range_Exists, GetServiceImports_range_filter. cbn.
  induction eps as [|ep eps IH].
  - split; [by intros ?%Exists_nil|done].
  - rewrite Exists_cons, filter_cons.
    destruct (decide (Purpose ep = "import")); [by split; [|left]|].
    rewrite <- IH. tauto.
Qed.

Lemma uint16_range (n : Z) : 0 ≤ uint16 n < 65536.
Proof. unfold uint16. apply Z.mod_pos_bound. lia. Qed.

Lemma GetHostPort_range_spec (ss : ServiceState.t)
    (eps : list ServiceEndpoint) (protocol application : string) (port : Z) :
  GetHostPort_range ss eps protocol application port
  = if decide (Exists (exports protocol application port) eps)
    then mapped_port ss protocol port else 0.
Proof.
  induction eps as [|ep eps IH]; cbn.
  - rewrite decide_False; [done|]. by intros ?%Exists_nil.
  - fold (exports protocol application port ep).
    destruct (decide (exports protocol application port ep)) as [Hep|Hep].
    + rewrite decide_True by (by left). done.
    + rewrite IH.
      destruct (decide (Exists (exports protocol application port) eps)).
      * rewrite decide_True by (by right). done.
      * rewrite decide_False; [done|]. by intros [?|?]%Exists_cons.
Qed.

(** GetHostPort stops at the first export of the application on the port
    and protocol asked for, yet which one is first does not matter: the
    answer is the port that PortMapping holds under the capitalised
    protocol, cut to 16 bits, when the state has such an export, and 0
    when it has none or the mapping holds no number.  So states whose
    endpoints are the same up to order and repetition answer alike. *)
Theorem GetHostPort_first_export_decides (ss : ServiceState.t)
    (protocol application : string) (port : Z) :
  GetHostPort ss protocol application port
  = (if decide (Exists (exports protocol application port)
                  (ServiceState.Endpoints ss))
     then mapped_port ss protocol port else 0)
  ∧ 0 ≤ GetHostPort ss protocol application port < 65536.
Proof.
  unfold GetHostPort. rewrite GetHostPort_range_spec. split; [done|].
  destruct (decide _); [|lia]. unfold mapped_port.
  destruct (Atoi _); [apply uint16_range|lia].
Qed.

(** A state that NewServiceState has just made maps no port yet: whatever
    is asked of it, GetHostPort answers 0, the library's Atoi refusing
    the empty string. *)
Theorem GetHostPort_of_new_state (s : Service.t) (hostId : string)
    (serviceState : ServiceState.t) (err : option error)
    (protocol application : string) (port : Z) :
  (∃ e, Atoi "" = Err e) →
  NewServiceState s hostId = Value (serviceState, err) →
  GetHostPort serviceState protocol application port = 0.
Proof.
  intros [e He] Hnew. unfold GetHostPort. rewrite GetHostPort_range_spec.
  destruct (decide _); [|done].
  assert (Hpm : ServiceState.PortMapping serviceState = ∅).
  { unfold NewServiceState in Hnew. destruct NewUuid as [id [e'|]];
      [by simplify_eq|].
    destruct (Service.Endpoints s); by simplify_eq. }
  unfold mapped_port, PortMapping_at. rewrite Hpm, lookup_empty. cbn.
  rewrite lookup_empty. cbn. by rewrite He.
Qed.

End Library.

(** *** The library, for runs *)

Module lib.

(** The value of a decimal digit. *)
Definition digit (c : ascii) : option Z :=
  let n := Z.of_nat (nat_of_ascii c) - 48 in
  if decide (0 ≤ n ≤ 9) then Some n else None.

Fixpoint digits (s : string) (n : Z) : option Z :=
  match s with
  | EmptyString => Some n
  | String c s' => d ← digit c; digits s' (n * 10 + d)
  end.

(** [strconv.Atoi] on a 64-bit platform: an optional sign, then decimal
    digits, at least one, of a number that fits an [int]. *)
Definition Atoi (s : string) : result Z :=
  match s with
  | EmptyString => Err (errors_New "invalid syntax")
  | String c s' =>
      let body := if decide (c = "-"%char ∨ c = "+"%char) then s' else s in
      if decide (body = EmptyString) then Err (errors_New "invalid syntax")
      else
        match digits body 0 with
        | None => Err (errors_New "invalid syntax")
        | Some n =>
            let n := if decide (c = "-"%char) then - n else n in
            if decide (- 2 ^ 63 ≤ n < 2 ^ 63) then Ok n
            else Err (errors_New "value out of range")
        end
  end.

(** [fmt.Sprintf("%d", n)] *)
Definition Sprintf_d (n : Z) : string := pretty n.

Example Atoi_port : Atoi "49153" = Ok 49153.
Proof. reflexivity. Qed.

Example Atoi_signed : Atoi "-7" = Ok (-7) ∧ Atoi "+7" = Ok 7.
Proof. split; reflexivity. Qed.

Example Atoi_refuses :
  Atoi "" = Err (errors_New "invalid syntax")
  ∧ Atoi "-" = Err (errors_New "invalid syntax")
  ∧ Atoi "80/tcp" = Err (errors_New "invalid syntax")
  ∧ Atoi "9223372036854775808" = Err (errors_New "value out of range").
Proof. repeat split; reflexivity. Qed.

Example Sprintf_d_port : Sprintf_d 8080 = "8080".
Proof. reflexivity. Qed.

End lib.

Module runs.
Import lib.

Definition web : ServiceEndpoint :=
  {| Protocol := "tcp"; PortNumber := 8080; Application := "web";
     Purpose := "export" |}.

Definition db : ServiceEndpoint :=
  {| Protocol := "tcp"; PortNumber := 3306; Application := "mysql";
     Purpose := "import" |}.

Definition svc (eps : option (list ServiceEndpoint)) : Service.t :=
  {| Service.Id := "svc1"; Service.Name := "web"; Service.Context := "";
     Service.Startup := "/bin/web"; Service.Description := "";
     Service.Instances := 1; Service.ImageId := "img"; Service.PoolId := "default";
     Service.DesiredState := SVC_RUN; Service.Launch := "auto";
     Service.Endpoints := eps; Service.ParentServiceId := "";
     Service.CreatedAt := 0; Service.UpdatedAt := 0 |}.

(** A running instance with the given port mapping. *)
Definition running (pm : gmap string (gmap string string)) : ServiceState.t :=
  {| ServiceState.Id := "ss1"; ServiceState.ServiceId := "svc1";
     ServiceState.HostId := "h1"; ServiceState.DockerId := "d1";
     ServiceState.PrivateIp := "172.17.0.2"; ServiceState.Scheduled := 5;
     ServiceState.Terminated := 0; ServiceState.Started := 6;
     ServiceState.PortMapping := pm;
     ServiceState.Endpoints := [db; web; web];
     ServiceState.HostIp := "10.0.0.1" |}.

Example imports_of_svc :
  GetServiceImports (svc (Some [web; db; web; db])) = [db; db]
  ∧ HasImports (svc (Some [web; db])) = true
  ∧ HasImports (svc (Some [web])) = false
  ∧ HasImports (svc None) = false
  ∧ GetServiceImports (svc None) = [].
Proof. repeat split; reflexivity. Qed.

(** The mapping is found under [Tcp] for the protocol [tcp]. *)
Example GetHostPort_mapped :
  GetHostPort Sprintf_d Atoi
    (running {[ "Tcp" := {[ "8080" := "49153" ]} ]}) "tcp" "web" 8080
  = 49153.
Proof. by vm_compute. Qed.

(** A mapping spelled as the endpoint spells its protocol is not found. *)
Example GetHostPort_lowercase_key :
  GetHostPort Sprintf_d Atoi
    (running {[ "tcp" := {[ "8080" := "49153" ]} ]}) "tcp" "web" 8080
  = 0.
Proof. by vm_compute. Qed.

(** A number beyond 16 bits is cut, not refused. *)
Example GetHostPort_wraps :
  GetHostPort Sprintf_d Atoi
    (running {[ "Tcp" := {[ "8080" := "65537" ]} ]}) "tcp" "web" 8080
  = 1.
Proof. by vm_compute. Qed.

(** An import is not looked up, whatever the mapping. *)
Example GetHostPort_import :
  GetHostPort Sprintf_d Atoi
    (running {[ "Tcp" := {[ "3306" := "49154" ]} ]}) "tcp" "mysql" 3306
  = 0.
Proof. by vm_compute. Qed.

Example NewServiceState_nil_endpoints :
  NewServiceState ("ss2", None) 7 (svc None) "h1" = Panic
  ∧ HasImports (svc None) = false.
Proof. split; reflexivity. Qed.

Lemma GetHostPort_of_new_state_witness :
  ∃ serviceState,
    NewServiceState ("ss2", None) 7 (svc (Some [web; db])) "h1"
    = Value (serviceState, None)
    ∧ ServiceState.Endpoints serviceState = [web; db]
    ∧ GetHostPort Sprintf_d Atoi serviceState "tcp" "web" 8080 = 0.
Proof.
  eexists. split; [reflexivity|]. split; [reflexivity|].
  apply (GetHostPort_of_new_state Sprintf_d Atoi ("ss2", None) 7
           (svc (Some [web; db])) "h1" _ None).
  - by eexists.
  - reflexivity.
Defined.

End runs.

End dao_entities.

(** ** Package zzk, the dao over ZooKeeper: the rest of the store *)

Module zkdao_store.
Import dao zk zkdao.

(** [conn.Children(path)]: the listing of [ChildrenW], without the
    watch. *)
Definition Children (p : string) : M (result (list string)) :=
  r ← ChildrenW p;
  mret (match r with
        | Ok (cs, _) => Ok cs
        | Err e => Err e
        end).

(** [conn.ExistsW(path)], of which its callers here keep the answer and
    the error.  That the node is missing is an answer, not an error; the
    trace keeps no record of the check. *)
Definition ExistsW (p : string) : M (bool * option error) :=
  t ← env_tick;
  m ← get_nodes;
  mret (match fault t with
        | Some e => (false, Some e)
        | None => (bool_decide (is_Some (m !! p)), None)
        end).

(** [conn, _, err := zk.Connect(this.Zookeepers, time.Second*10);
    if err != nil { return err }; defer conn.Close(); return f(conn)],
    the frame of the methods of ZkDao; [fail] makes the method's answer
    of the error. *)
Definition ZkDao_call {A : Type} (fail : error → A) (f : M A) : M A :=
  err ← Connect;
  match err with
  | Some e => mret (fail e)
  | None =>
      r ← f;
      Close;;
      mret r
  end.

(** This is created by selecting from service_state and joining to
    service *)
Record RunningService : Type := {
  rs_Id : string;
  rs_ServiceId : string;
  rs_StartedAt : Time;
  rs_Name : string;
  rs_Startup : string;
  rs_Description : string;
  rs_Instances : Z;
  rs_ImageId : string;
  rs_PoolId : string;
  rs_DesiredState : Z;
  rs_ParentServiceId : string
}.

(** Service & ServiceState to RunningService *)
Definition sssToRs (s : Service.t) (ss : ServiceState.t) : RunningService :=
  {| rs_Id := ServiceState.Id ss;
     rs_ServiceId := ServiceState.ServiceId ss;
     rs_StartedAt := ServiceState.Started ss;
     rs_Name := Service.Name s;
     rs_Startup := Service.Startup s;
     rs_Description := Service.Description s;
     rs_Instances := Service.Instances s;
     rs_ImageId := Service.ImageId s;
     rs_PoolId := Service.PoolId s;
     rs_DesiredState := Service.DesiredState s;
     rs_ParentServiceId := Service.ParentServiceId s |}.

Section Store.

Variables SERVICE_PATH SCHEDULER_PATH SNAPSHOT_PATH : string.

Context `{JSON Service.t} `{JSON ServiceState.t} `{JSON HostServiceState}.

(** [encoding/json] on the Go string that holds the snapshot state. *)
Context (json_string : JSON string).

Definition LoadServiceState (serviceId serviceStateId : string)
  : M (result (Stat * ServiceState.t)) :=
  let ssPath := ServiceStatePath SERVICE_PATH serviceId serviceStateId in
  g ← Get ssPath;
  match g with
  | Err e => mret (Err e)
  | Ok (ssBytes, ssStat) =>
      match Unmarshal ssBytes with
      | Err e => mret (Err e)
      | Ok ss => mret (Ok (ssStat, ss))
      end
  end.

Definition LoadHostServiceState (hostId hssId : string)
  : M (result (Stat * HostServiceState)) :=
  let hssPath := HostServiceStatePath SCHEDULER_PATH hostId hssId in
  g ← Get hssPath;
  match g with
  | Err e => mret (Err e)
  | Ok (hssBytes, hssStat) =>
      match Unmarshal hssBytes with
      | Err e => mret (Err e)
      | Ok hss => mret (Ok (hssStat, hss))
      end
  end.

Definition GetServiceState (serviceId serviceStateId : string)
  : M (result ServiceState.t) :=
  g ← Get (ServiceStatePath SERVICE_PATH serviceId serviceStateId);
  match g with
  | Err e => mret (Err e)
  | Ok (serviceStateNode, _) => mret (Unmarshal serviceStateNode)
  end.

Definition RemoveServiceState (serviceId serviceStateId : string)
  : M (option error) :=
  let ssPath := ServiceStatePath SERVICE_PATH serviceId serviceStateId in
  l ← LoadServiceState serviceId serviceStateId;
  match l with
  | Err e => mret (Some e)
  | Ok (stats, ss) =>
      err ← Delete ssPath (Version stats);
      match err with
      | Some e => mret (Some e)
      | None =>
          let hssPath :=
            HostServiceStatePath SCHEDULER_PATH (ServiceState.HostId ss)
              serviceStateId in
          g ← Get hssPath;
          match g with
          | Err e => mret (Some e)
          | Ok (_, stats) =>
              err ← Delete hssPath (Version stats);
              match err with
              | Some e => mret (Some e)
              | None => mret None
              end
          end
      end
  end.

(** [(this *ZkDao) UpdateServiceState] *)
Definition UpdateServiceState (state : ServiceState.t) : M (option error) :=
  err ← Connect;
  match err with
  | Some e => mret (Some e)
  | None =>
      r ← match Marshal state with
          | Err e => mret (Some e)
          | Ok ssBytes =>
              let serviceStatePath :=
                ServiceStatePath SERVICE_PATH (ServiceState.ServiceId state)
                  (ServiceState.Id state) in
              g ← Get serviceStatePath;
              match g with
              | Err e => mret (Some e)
              | Ok (_, stats) =>
                  err ← Set_ serviceStatePath ssBytes (Version stats);
                  mret err
              end
          end;
      Close;;
      mret r
  end.

(** The [for] loop of appendServiceStates; [_ss] holds the states of the
    children done so far. *)
Fixpoint appendServiceStates_range (servicePath : string)
    (childNodes : list string) (_ss : list ServiceState.t)
  : M (result (list ServiceState.t)) :=
  match childNodes with
  | [] => mret (Ok _ss)
  | childId :: childNodes' =>
      let childPath := servicePath +:+ "/" +:+ childId in
      g ← Get childPath;
      match g with
      | Err e => mret (Err e)
      | Ok (serviceStateNode, _) =>
          match Unmarshal serviceStateNode with
          | Err e => mret (Err e)
          | Ok serviceState =>
              appendServiceStates_range servicePath childNodes'
                (_ss ++ [serviceState])
          end
      end
  end.

(** The answer comes with the slice that [serviceStates] points to when
    the call is over. *)
Definition appendServiceStates (serviceId : string)
    (serviceStates : list ServiceState.t)
  : M (option error * list ServiceState.t) :=
  let servicePath := ServicePath SERVICE_PATH serviceId in
  r ← Children servicePath;
  match r with
  | Err e => mret (Some e, serviceStates)
  | Ok childNodes =>
      x ← appendServiceStates_range servicePath childNodes [];
      match x with
      | Err e => mret (Some e, serviceStates)
      | Ok _ss => mret (None, serviceStates ++ _ss)
      end
  end.

Fixpoint GetServiceStates (serviceStates : list ServiceState.t)
    (serviceIds : list string) : M (option error * list ServiceState.t) :=
  match serviceIds with
  | [] => mret (None, serviceStates)
  | serviceId :: serviceIds' =>
      '(err, serviceStates) ← appendServiceStates serviceId serviceStates;
      match err with
      | Some e => mret (Some e, serviceStates)
      | None => GetServiceStates serviceStates serviceIds'
      end
  end.

(** Snapshot section start *)
Definition SnapshotStatePath : string := SNAPSHOT_PATH.

Definition AddSnapshotState (snapshotState : string) : M (option error) :=
  let snapshotStatePath := SnapshotStatePath in
  match Marshal snapshotState with
  | Err e => mret (Some e)
  | Ok sBytes =>
      err ← Create snapshotStatePath sBytes;
      match err with
      | Some e =>
          if decide (e = ErrNodeExists) then
            g ← Get snapshotStatePath;
            match g with
            | Err e => mret (Some e)
            | Ok (_, stats) =>
                err ← Set_ snapshotStatePath sBytes (Version stats);
                match err with
                | Some e => mret (Some e)
                | None => mret None
                end
            end
          else mret (Some e)
      | None => mret None
      end
  end.

Definition GetSnapshotState : M (result string) :=
  g ← Get SnapshotStatePath;
  match g with
  | Err e => mret (Err e)
  | Ok (snapshotStateNode, _) => mret (Unmarshal snapshotStateNode)
  end.

Definition UpdateSnapshotState (snapshotState : string)
  : M (option error) :=
  match Marshal snapshotState with
  | Err e => mret (Some e)
  | Ok ssBytes =>
      let snapshotStatePath := SnapshotStatePath in
      '(exists_, err) ← ExistsW snapshotStatePath;
      if decide (err = Some ErrNoNode) then AddSnapshotState snapshotState
      else if negb exists_ then AddSnapshotState snapshotState
      else
        g ← Get snapshotStatePath;
        match g with
        | Err e => mret (Some e)
        | Ok (_, stats) =>
            err ← Set_ snapshotStatePath ssBytes (Version stats);
            mret err
        end
  end.

Definition RemoveSnapshotState : M (option error) :=
  let snapshotStatePath := SnapshotStatePath in
  g ← Get snapshotStatePath;
  match g with
  | Err e => if decide (e = ErrNoNode) then mret None else mret (Some e)
  | Ok (_, stats) =>
      err ← Delete snapshotStatePath (Version stats);
      match err with
      | Some e => mret (Some e)
      | None => mret None
      end
  end.

(** The methods of ZkDao that only frame a function of the package. *)
Definition ZkDao_TerminateHostService (hostId serviceStateId : string)
  : M (option error) :=
  ZkDao_call Some (TerminateHostService SCHEDULER_PATH hostId serviceStateId).

Definition ZkDao_AddService (service : Service.t) : M (option error) :=
  ZkDao_call Some (AddService SERVICE_PATH service).

Definition ZkDao_GetServiceState (serviceId serviceStateId : string)
  : M (result ServiceState.t) :=
  ZkDao_call Err (GetServiceState serviceId serviceStateId).

Definition ZkDao_GetServiceStates (serviceStates : list ServiceState.t)
    (serviceIds : list string) : M (option error * list ServiceState.t) :=
  ZkDao_call (λ e, (Some e, serviceStates))
    (GetServiceStates serviceStates serviceIds).

Definition ZkDao_RemoveService (fuel : nat) (id : string)
  : M (fueled (option error)) :=
  ZkDao_call (λ e, Returned (Some e)) (RemoveService SERVICE_PATH fuel id).

Definition ZkDao_AddSnapshotState (snapshotState : string)
  : M (option error) :=
  ZkDao_call Some (AddSnapshotState snapshotState).

Definition ZkDao_GetSnapshotState : M (result string) :=
  ZkDao_call Err GetSnapshotState.

Definition ZkDao_UpdateSnapshotState (snapshotState : string)
  : M (option error) :=
  ZkDao_call Some (UpdateSnapshotState snapshotState).

Definition ZkDao_RemoveSnapshotState : M (option error) :=
  ZkDao_call Some RemoveSnapshotState.

(** *** A store at rest

    The environment has nothing more to do: no other client writes and
    the connection does not fail. *)

Definition at_rest (m : gmap string znode) (tr : list event) : world :=
  {| nodes := m; script := []; trace := tr |}.

Lemma Get_at_rest (p : string) (m : gmap string znode) (tr : list event) :
  let r := match m !! p with
           | Some n => Ok (data n, stat n)
           | None => Err ErrNoNode
           end in
  Get p (at_rest m tr) = (r, at_rest m (tr ++ [EvGet p r])).
Proof. done. Qed.

Lemma Set_at_rest (p : string) (b : bytes) (v : Z) (m : gmap string znode)
    (tr : list event) :
  let r := match m !! p with
           | None => Some ErrNoNode
           | Some n => if decide (Version (stat n) = v) then None
                       else Some ErrBadVersion
           end in
  Set_ p b v (at_rest m tr)
  = (r, at_rest (if r is None then store_set p b m else m)
          (tr ++ [EvSet p b v r])).
Proof. done. Qed.

Lemma Create_at_rest (p : string) (b : bytes) (m : gmap string znode)
    (tr : list event) :
  let r := match m !! p with
           | Some _ => Some ErrNodeExists
           | None => None
           end in
  Create p b (at_rest m tr)
  = (r, at_rest (if r is None then store_create p b m else m)
          (tr ++ [EvCreate p b r])).
Proof. done. Qed.

Lemma Delete_at_rest (p : string) (v : Z) (m : gmap string znode)
    (tr : list event) :
  let r := match m !! p with
           | None => Some ErrNoNode
           | Some n =>
               if decide (Version (stat n) = v) then
                 if decide (children m p = []) then None
                 else Some ErrNotEmpty
               else Some ErrBadVersion
           end in
  Delete p v (at_rest m tr)
  = (r, at_rest (if r is None then delete p m else m)
          (tr ++ [EvDelete p v r])).
Proof. done. Qed.

Lemma ExistsW_at_rest (p : string) (m : gmap string znode)
    (tr : list event) :
  ExistsW p (at_rest m tr)
  = ((bool_decide (is_Some (m !! p)), None), at_rest m tr).
Proof. done. Qed.

Lemma nodes_at_rest (m : gmap string znode) (tr : list event) :
  nodes (at_rest m tr) = m.
Proof. done. Qed.

(** Rewrites the calls on a store at rest. *)
Ltac at_rest_simp :=
  repeat first
    [ rewrite bind_run | rewrite ret_run | rewrite Get_at_rest
    | rewrite Set_at_rest | rewrite Create_at_rest | rewrite Delete_at_rest
    | rewrite ExistsW_at_rest | rewrite nodes_at_rest
    | progress cbn [fst snd] ].

Lemma children_nil (m : gmap string znode) (p : string) :
  children m p = [] ↔ ∀ k, k ∈ dom m → child_name p k = None.
Proof.
  unfold children. split.
  - intros Hnil k Hk. apply elem_of_elements in Hk.
    destruct (child_name p k) as [c|] eqn:Hc; [|done].
    assert (c ∈ omap (child_name p) (elements (dom m))) as Hin
      by (apply list_elem_of_omap; eauto).
    rewrite Hnil in Hin. by apply elem_of_nil in Hin.
  - intros Hall. destruct (omap _ _) as [|c cs] eqn:Ho; [done|].
    assert (c ∈ omap (child_name p) (elements (dom m))) as Hin
      by (rewrite Ho; left).
    apply list_elem_of_omap in Hin as (k & Hk & Hc).
    apply elem_of_elements, Hall in Hk. congruence.
Qed.

Lemma children_nil_insert (m : gmap string znode) (p k : string)
    (n : znode) :
  children m p = [] → child_name p k = None →
  children (<[k := n]> m) p = [].
Proof.
  rewrite !children_nil. intros Hm Hk k'. rewrite dom_insert_L.
  intros [->%elem_of_singleton|?]%elem_of_union; auto.
Qed.

Lemma children_nil_delete (m : gmap string znode) (p k : string) :
  children m p = [] → children (delete k m) p = [].
Proof.
  rewrite !children_nil. intros Hm k'. rewrite dom_delete_L.
  intros [? _]%elem_of_difference. auto.
Qed.

Lemma prefix_longer (p : string) : String.prefix (p +:+ "/") p = false.
Proof.
  induction p as [|a p IH]; [done|]. simpl.
  by destruct (Ascii.ascii_dec a a).
Qed.

(** No node is below itself. *)
Lemma child_name_self (p : string) : child_name p p = None.
Proof. unfold child_name. by rewrite prefix_longer. Qed.

(** The version of a node of [p] that a create or an accepted set has
    just written. *)
Definition written_version (m : gmap string znode) (p : string) : Z :=
  match m !! p with
  | Some n => Version (stat n) + 1
  | None => 0
  end.

Lemma AddSnapshotState_at_rest (snapshotState : string) (b : bytes)
    (m : gmap string znode) (tr : list event) :
  Marshal snapshotState = Ok b →
  ∃ tr', AddSnapshotState snapshotState (at_rest m tr)
         = (None,
            at_rest (<[SNAPSHOT_PATH :=
                        {| data := b;
                           stat := {| Version :=
                                        written_version m SNAPSHOT_PATH |} |}]>
                       m) tr').
Proof.
  intros HM. unfold AddSnapshotState, SnapshotStatePath, written_version.
  rewrite HM. at_rest_simp.
  destruct (m !! SNAPSHOT_PATH) as [n|] eqn:Hm; cbn [fst snd].
  - case_decide; [|done]. at_rest_simp. rewrite Hm. cbn [fst snd].
    at_rest_simp. rewrite Hm.
    rewrite decide_True by done. cbn. unfold store_set. rewrite Hm.
    by eexists.
  - cbn. unfold store_create. rewrite Hm. by eexists.
Qed.

(** AddSnapshotState writes the snapshot state whether or not the node is
    there: on a store at rest it answers nil and leaves the encoded state
    in the node, created with version 0 or set to the next version, every
    other node being as it was. *)
Theorem AddSnapshotState_upserts (snapshotState : string) (b : bytes)
    (m : gmap string znode) (tr : list event) :
  Marshal snapshotState = Ok b →
  let r := AddSnapshotState snapshotState (at_rest m tr) in
  r.1 = None
  ∧ nodes r.2
    = <[SNAPSHOT_PATH :=
          {| data := b;
             stat := {| Version := written_version m SNAPSHOT_PATH |} |}]> m
  ∧ script r.2 = [].
Proof.
  intros HM. cbv zeta.
  destruct (AddSnapshotState_at_rest snapshotState b m tr HM) as [tr' ->].
  done.
Qed.

(** What AddSnapshotState has written, GetSnapshotState reads back,
    provided decoding undoes encoding. *)
Theorem GetSnapshotState_after_AddSnapshotState (snapshotState : string)
    (b : bytes) (m : gmap string znode) (tr : list event) :
  Marshal snapshotState = Ok b → Unmarshal b = Ok snapshotState →
  let w1 := (AddSnapshotState snapshotState (at_rest m tr)).2 in
  (GetSnapshotState w1).1 = Ok snapshotState.
Proof.
  intros HM HU. cbv zeta.
  destruct (AddSnapshotState_at_rest snapshotState b m tr HM) as [tr' ->].
  cbn [snd]. unfold GetSnapshotState, SnapshotStatePath. at_rest_simp.
  rewrite lookup_insert_eq. cbn. done.
Qed.

(** On a store at rest UpdateSnapshotState does what AddSnapshotState
    does: the same answer, the same store. *)
Theorem UpdateSnapshotState_as_AddSnapshotState (snapshotState : string)
    (b : bytes) (m : gmap string znode) (tr : list event) :
  Marshal snapshotState = Ok b →
  let u := UpdateSnapshotState snapshotState (at_rest m tr) in
  let a := AddSnapshotState snapshotState (at_rest m tr) in
  u.1 = a.1 ∧ nodes u.2 = nodes a.2.
Proof.
  intros HM. cbv zeta.
  destruct (AddSnapshotState_at_rest snapshotState b m tr HM) as [tr' Ha].
  unfold UpdateSnapshotState, SnapshotStatePath. rewrite HM. at_rest_simp.
  rewrite decide_False by done.
  destruct (m !! SNAPSHOT_PATH) as [n|] eqn:Hm.
  - rewrite bool_decide_eq_true_2 by eauto. cbn [negb].
    at_rest_simp. rewrite Hm. cbn [fst snd]. at_rest_simp. rewrite Hm.
    rewrite decide_True by done. cbn [fst snd]. rewrite Ha. cbn.
    unfold store_set, written_version. by rewrite Hm.
  - rewrite bool_decide_eq_false_2 by (by intros [? ?]). cbn [negb]. done.
Qed.

(** UpdateSnapshotState asks first whether the node exists, and lets no
    error of that question out: when the question fails, the method goes
    on as AddSnapshotState, which writes the state. *)
Theorem UpdateSnapshotState_hides_ExistsW_error (snapshotState : string)
    (b : bytes) (w : world) (t : tick) (sc : list tick) (e : error) :
  Marshal snapshotState = Ok b →
  script w = t :: sc → fault t = Some e →
  UpdateSnapshotState snapshotState w
  = AddSnapshotState snapshotState
      {| nodes := foldl apply_write (nodes w) (others t); script := sc;
         trace := trace w |}.
Proof.
  intros HM Hs Hf. unfold UpdateSnapshotState. rewrite HM.
  unfold ExistsW. rewrite !bind_run.
  unfold env_tick. rewrite Hs. cbn [hd tl fst snd get_nodes].
  rewrite ret_run. cbn [fst snd]. rewrite Hf.
  destruct (decide (Some e = Some ErrNoNode)); done.
Qed.

(** RemoveSnapshotState is content with a node that is not there: on a
    store at rest, where the node has no children, it answers nil and the
    node is gone; run again, it answers nil again and changes nothing. *)
Theorem RemoveSnapshotState_idempotent (m : gmap string znode)
    (tr : list event) :
  children m SNAPSHOT_PATH = [] →
  let r1 := RemoveSnapshotState (at_rest m tr) in
  let r2 := RemoveSnapshotState r1.2 in
  r1.1 = None ∧ nodes r1.2 = delete SNAPSHOT_PATH m
  ∧ r2.1 = None ∧ nodes r2.2 = nodes r1.2.
Proof.
  intros Hc. cbv zeta.
  assert (Hgone : ∀ m' tr', m' !! SNAPSHOT_PATH = None →
            ∃ tr'', RemoveSnapshotState (at_rest m' tr')
                    = (None, at_rest m' tr'')).
  { intros m' tr' Hm'. unfold RemoveSnapshotState, SnapshotStatePath.
    at_rest_simp. rewrite Hm'. rewrite decide_True by done. by eexists. }
  assert (H1' : ∃ tr1, RemoveSnapshotState (at_rest m tr)
                       = (None, at_rest (delete SNAPSHOT_PATH m) tr1)).
  { destruct (m !! SNAPSHOT_PATH) as [n|] eqn:Hm.
    - unfold RemoveSnapshotState, SnapshotStatePath. at_rest_simp.
      rewrite Hm. cbn [fst snd]. at_rest_simp. rewrite Hm.
      rewrite !decide_True by done. by eexists.
    - rewrite delete_id by done. by apply Hgone. }
  destruct H1' as [tr1 ->]. cbn [fst snd].
  destruct (Hgone (delete SNAPSHOT_PATH m) tr1) as [tr2 ->];
    [apply lookup_delete_eq|].
  done.
Qed.

(** RemoveServiceState deletes the node of the instance before it so much
    as reads the node that the host keeps for it, and undoes nothing: it
    reads the instance; deletes it under the version read; reads the
    host's node, whose path it makes from the HostId found in the
    instance; deletes that under its version.  The first call that fails
    ends the run with its error, so a failure on the host's node leaves
    the instance deleted and the host's node in the store. *)
Theorem RemoveServiceState_instance_first (serviceId serviceStateId : string)
    (w : world) :
  let ssPath := ServiceStatePath SERVICE_PATH serviceId serviceStateId in
  wp (RemoveServiceState serviceId serviceStateId) (λ r w', ∃ evs,
    trace w' = trace w ++ evs
    ∧ ((∃ e, evs = [EvGet ssPath (Err e)] ∧ r = Some e)
       ∨ (∃ b st e, evs = [EvGet ssPath (Ok (b, st))]
            ∧ Unmarshal (T := ServiceState.t) b = Err e ∧ r = Some e)
       ∨ (∃ b st (ss : ServiceState.t), Unmarshal b = Ok ss
            ∧ let hssPath :=
                HostServiceStatePath SCHEDULER_PATH (ServiceState.HostId ss)
                  serviceStateId in
              (∃ e, evs = [EvGet ssPath (Ok (b, st));
                           EvDelete ssPath (Version st) (Some e)]
                    ∧ r = Some e)
              ∨ (∃ e, evs = [EvGet ssPath (Ok (b, st));
                             EvDelete ssPath (Version st) None;
                             EvGet hssPath (Err e)]
                      ∧ r = Some e)
              ∨ (∃ b' st', evs = [EvGet ssPath (Ok (b, st));
                                  EvDelete ssPath (Version st) None;
                                  EvGet hssPath (Ok (b', st'));
                                  EvDelete hssPath (Version st') r])))) w.
Proof.
  cbv zeta. unfold RemoveServiceState, LoadServiceState.
  do 3 wp_step. intros [[b st]|e] w1 H1'.
  2:{ do 2 wp_step. eexists. split; [exact H1'|]. left. eauto. }
  destruct (Unmarshal b) as [ss|e] eqn:HU.
  2:{ do 2 wp_step. eexists. split; [exact H1'|]. right; left. eauto 10. }
  wp_step. do 2 wp_step. intros [e|] w2 H2'.
  { wp_step. eexists. split; [by rewrite H2', H1', <- app_assoc|].
    right; right. exists b, st, ss. split; [done|]. left. eauto. }
  do 2 wp_step. intros [[b' st']|e] w3 H3'.
  2:{ wp_step. eexists.
      split; [by rewrite H3', H2', H1', <- !app_assoc|].
      right; right. exists b, st, ss. split; [done|]. right; left. eauto. }
  do 2 wp_step. intros r w4 H4'.
  assert (Htr : trace w4 = trace w ++
            [EvGet (ServiceStatePath SERVICE_PATH serviceId serviceStateId)
               (Ok (b, st));
             EvDelete (ServiceStatePath SERVICE_PATH serviceId serviceStateId)
               (Version st) None;
             EvGet (HostServiceStatePath SCHEDULER_PATH
                      (ServiceState.HostId ss) serviceStateId)
               (Ok (b', st'));
             EvDelete (HostServiceStatePath SCHEDULER_PATH
                         (ServiceState.HostId ss) serviceStateId)
               (Version st') r])
    by (by rewrite H4', H3', H2', H1', <- !app_assoc).
  destruct r; wp_step; (eexists; split; [exact Htr|]);
    right; right; exists b, st, ss; (split; [done|]); right; right; eauto.
Qed.

(** UpdateServiceState, unlike UpdateService, creates nothing: it reads
    the node of the instance and sets it under the version read; when the
    node is not there the error of the read comes back.  It touches no
    other node, so the node that the host keeps for the instance stays as
    it is.  The connection is closed whenever it was opened. *)
Theorem UpdateServiceState_sets_only (state : ServiceState.t) (w : world) :
  let p := ServiceStatePath SERVICE_PATH (ServiceState.ServiceId state)
             (ServiceState.Id state) in
  wp (UpdateServiceState state) (λ r w', ∃ evs,
    trace w' = trace w ++ evs
    ∧ ((∃ e, evs = [EvConnect (Some e)] ∧ r = Some e)
       ∨ (∃ e, Marshal state = Err e
            ∧ evs = [EvConnect None; EvClose] ∧ r = Some e)
       ∨ (∃ e, evs = [EvConnect None; EvGet p (Err e); EvClose]
            ∧ r = Some e)
       ∨ (∃ ssBytes b st, Marshal state = Ok ssBytes
            ∧ evs = [EvConnect None; EvGet p (Ok (b, st));
                     EvSet p ssBytes (Version st) r; EvClose]))) w.
Proof.
  cbv zeta. unfold UpdateServiceState.
  do 2 wp_step. intros [e|] w1 H1'.
  { wp_step. eexists. split; [exact H1'|]. left. eauto. }
  wp_step. destruct (Marshal state) as [ssBytes|e] eqn:HM.
  2:{ wp_step. do 2 wp_step. intros w2 H2'. wp_step.
      eexists. split; [by rewrite H2', H1', <- app_assoc|].
      right; left. eauto. }
  do 2 wp_step. intros [[b st]|e] w2 H2'.
  2:{ wp_step. do 2 wp_step. intros w3 H3'. wp_step.
      eexists. split; [by rewrite H3', H2', H1', <- !app_assoc|].
      right; right; left. eauto. }
  do 2 wp_step. intros r w3 H3'. wp_step.
  do 2 wp_step. intros w4 H4'. wp_step.
  eexists. split; [by rewrite H4', H3', H2', H1', <- !app_assoc|].
  do 3 right. eauto 10.
Qed.

(** A node as a create leaves it. *)
Definition created (b : bytes) : znode :=
  {| data := b; stat := {| Version := 0 |} |}.

Lemma AddServiceState_at_rest (state : ServiceState.t) (b1 b2 : bytes)
    (m : gmap string znode) (tr : list event) :
  let ssPath := ServiceStatePath SERVICE_PATH (ServiceState.ServiceId state)
                  (ServiceState.Id state) in
  let hssPath := HostServiceStatePath SCHEDULER_PATH
                   (ServiceState.HostId state) (ServiceState.Id state) in
  Marshal state = Ok b1 → Marshal (SsToHss state) = Ok b2 →
  m !! ssPath = None → m !! hssPath = None → ssPath ≠ hssPath →
  ∃ tr', AddServiceState SERVICE_PATH SCHEDULER_PATH state (at_rest m tr)
         = (None,
            at_rest (<[hssPath := created b2]> (<[ssPath := created b1]> m))
              tr').
Proof.
  cbv zeta. intros HM1 HM2 Hss Hhss Hne. unfold AddServiceState.
  rewrite HM1. at_rest_simp. rewrite Hss. cbn [fst snd]. rewrite HM2.
  at_rest_simp.
  assert (Hsc : store_create
                  (ServiceStatePath SERVICE_PATH
                     (ServiceState.ServiceId state) (ServiceState.Id state))
                  b1 m
                = <[ServiceStatePath SERVICE_PATH
                      (ServiceState.ServiceId state) (ServiceState.Id state)
                    := created b1]> m)
    by (unfold store_create; by rewrite Hss).
  rewrite !Hsc, !lookup_insert_ne, !Hhss by done. rewrite ret_run.
  unfold store_create. rewrite lookup_insert_ne, Hhss by done.
  by eexists.
Qed.

(** RemoveServiceState undoes AddServiceState: on a store at rest that
    has neither node and nothing below them, adding the instance and
    removing it again succeeds twice and leaves the store exactly as it
    was, provided decoding undoes encoding. *)
Theorem RemoveServiceState_undoes_AddServiceState (state : ServiceState.t)
    (b1 b2 : bytes) (m : gmap string znode) (tr : list event) :
  let ssPath := ServiceStatePath SERVICE_PATH (ServiceState.ServiceId state)
                  (ServiceState.Id state) in
  let hssPath := HostServiceStatePath SCHEDULER_PATH
                   (ServiceState.HostId state) (ServiceState.Id state) in
  Marshal state = Ok b1 → Unmarshal b1 = Ok state →
  Marshal (SsToHss state) = Ok b2 →
  m !! ssPath = None → m !! hssPath = None → ssPath ≠ hssPath →
  children m ssPath = [] → children m hssPath = [] →
  child_name ssPath hssPath = None →
  let added := AddServiceState SERVICE_PATH SCHEDULER_PATH state
                 (at_rest m tr) in
  let removed := RemoveServiceState (ServiceState.ServiceId state)
                   (ServiceState.Id state) added.2 in
  added.1 = None
  ∧ nodes added.2 !! ssPath = Some (created b1)
  ∧ nodes added.2 !! hssPath = Some (created b2)
  ∧ removed.1 = None
  ∧ nodes removed.2 = m.
Proof.
  cbv zeta. intros HM1 HU HM2 Hss Hhss Hne Hc1 Hc2 Hcn.
  destruct (AddServiceState_at_rest state b1 b2 m tr HM1 HM2 Hss Hhss Hne)
    as [tr' ->].
  cbn [fst snd]. rewrite !nodes_at_rest. split; [done|].
  split; [by rewrite lookup_insert_ne, lookup_insert_eq|].
  split; [by rewrite lookup_insert_eq|].
  unfold RemoveServiceState, LoadServiceState. at_rest_simp.
  rewrite lookup_insert_ne, lookup_insert_eq by done. cbn [fst snd data stat created].
  rewrite HU. at_rest_simp.
  rewrite lookup_insert_ne, lookup_insert_eq by done.
  cbn [fst snd data stat created Version].
  rewrite decide_True by done.
  rewrite decide_True
    by (apply children_nil_insert; [apply children_nil_insert|];
        auto using child_name_self).
  cbn [fst snd]. at_rest_simp.
  rewrite delete_insert_ne, delete_insert_id by done.
  rewrite lookup_insert_eq. cbn [fst snd data stat created Version].
  at_rest_simp. rewrite lookup_insert_eq.
  cbn [fst snd data stat created Version].
  rewrite decide_True by done.
  rewrite decide_True
    by (apply children_nil_insert; auto using child_name_self).
  at_rest_simp. by rewrite delete_insert_id.
Qed.

(** TerminateHostService after AddServiceState: on a store at rest, the
    node that the host keeps for the instance is rewritten once, with
    the same identifiers and the desired state SVC_STOP, while the node
    of the instance itself is not touched. *)
Theorem TerminateHostService_after_AddServiceState (state : ServiceState.t)
    (b1 b2 b3 : bytes) (m : gmap string znode) (tr : list event) :
  let ssPath := ServiceStatePath SERVICE_PATH (ServiceState.ServiceId state)
                  (ServiceState.Id state) in
  let hssPath := HostServiceStatePath SCHEDULER_PATH
                   (ServiceState.HostId state) (ServiceState.Id state) in
  Marshal state = Ok b1 → Marshal (SsToHss state) = Ok b2 →
  Unmarshal b2 = Ok (SsToHss state) →
  Marshal (hss_set_DesiredState SVC_STOP (SsToHss state)) = Ok b3 →
  m !! ssPath = None → m !! hssPath = None → ssPath ≠ hssPath →
  let added := AddServiceState SERVICE_PATH SCHEDULER_PATH state
                 (at_rest m tr) in
  let stopped := TerminateHostService SCHEDULER_PATH
                   (ServiceState.HostId state) (ServiceState.Id state)
                   added.2 in
  stopped.1 = None
  ∧ nodes stopped.2
    = <[hssPath := {| data := b3; stat := {| Version := 1 |} |}]>
        (nodes added.2)
  ∧ nodes stopped.2 !! ssPath = Some (created b1)
  ∧ HostId (hss_set_DesiredState SVC_STOP (SsToHss state))
    = ServiceState.HostId state
  ∧ ServiceStateId (hss_set_DesiredState SVC_STOP (SsToHss state))
    = ServiceState.Id state
  ∧ DesiredState (hss_set_DesiredState SVC_STOP (SsToHss state)) = SVC_STOP.
Proof.
  cbv zeta. intros HM1 HM2 HU HM3 Hss Hhss Hne.
  destruct (AddServiceState_at_rest state b1 b2 m tr HM1 HM2 Hss Hhss Hne)
    as [tr' ->].
  cbn [fst snd]. rewrite !nodes_at_rest.
  unfold TerminateHostService, loadAndUpdateHss.
  at_rest_simp. rewrite lookup_insert_eq.
  cbn [fst snd data stat created Version]. rewrite HU, HM3. at_rest_simp.
  rewrite lookup_insert_eq. cbn [fst snd data stat created Version].
  rewrite decide_True by done. at_rest_simp.
  unfold store_set. rewrite lookup_insert_eq.
  cbn [data stat created Version].
  split; [done|]. split; [done|]. split; [|done].
  by rewrite insert_insert_eq, lookup_insert_ne, lookup_insert_eq.
Qed.

(** *** Listing the instances of services *)

(** The reads of the children [cs] of [p], one after the other, each
    decoded to the state at the same place in [sts]. *)
Fixpoint reads (p : string) (cs : list string) (sts : list ServiceState.t)
    (evs : list event) : Prop :=
  match cs, sts, evs with
  | [], [], [] => True
  | c :: cs', st :: sts', ev :: evs' =>
      (∃ b s, ev = EvGet (p +:+ "/" +:+ c) (Ok (b, s)) ∧ Unmarshal b = Ok st)
      ∧ reads p cs' sts' evs'
  | _, _, _ => False
  end.

Lemma reads_snoc (p : string) (cs : list string) (sts : list ServiceState.t)
    (evs : list event) (c : string) (st : ServiceState.t) (b : bytes)
    (s : Stat) :
  reads p cs sts evs → Unmarshal b = Ok st →
  reads p (cs ++ [c]) (sts ++ [st])
    (evs ++ [EvGet (p +:+ "/" +:+ c) (Ok (b, s))]).
Proof.
  revert sts evs. induction cs as [|c' cs IH]; intros [|st' sts] [|ev evs];
    cbn; try done.
  - intros _ HU. eauto.
  - intros [Hev Hr] HU. split; [done|]. by apply IH.
Qed.

Lemma reads_length (p : string) (cs : list string)
    (sts : list ServiceState.t) (evs : list event) :
  reads p cs sts evs → length sts = length cs.
Proof.
  revert sts evs. induction cs as [|c cs IH]; intros [|st sts] [|ev evs];
    cbn; try done.
  intros [_ Hr]. f_equal. by eapply IH.
Qed.

Lemma appendServiceStates_range_spec (p : string) (cs : list string) :
  ∀ (done_ : list string) (_ss : list ServiceState.t) (w0 w : world)
    (evs0 : list event),
    trace w = trace w0 ++ evs0 → reads p done_ _ss evs0 →
    wp (appendServiceStates_range p cs _ss) (λ x w', ∃ evs,
      trace w' = trace w0 ++ evs
      ∧ match x with
        | Ok out => reads p (done_ ++ cs) out evs
        | Err _ => True
        end) w.
Proof.
  induction cs as [|c cs IH]; intros done_ _ss w0 w evs0 Ht Hr;
    cbn [appendServiceStates_range].
  - wp_step. exists evs0. by rewrite app_nil_r.
  - do 2 wp_step. intros [[b s]|e] w1 H1'.
    2:{ wp_step. eexists. split; [by rewrite H1', Ht, <- app_assoc|done]. }
    destruct (Unmarshal b) as [st|e] eqn:HU.
    2:{ wp_step. eexists. split; [by rewrite H1', Ht, <- app_assoc|done]. }
    replace (done_ ++ c :: cs) with ((done_ ++ [c]) ++ cs)
      by (by rewrite <- app_assoc).
    eapply IH.
    + by rewrite H1', Ht, <- app_assoc.
    + by apply reads_snoc.
Qed.

Lemma appendServiceStates_spec (serviceId : string)
    (serviceStates : list ServiceState.t) (w : world) :
  let p := ServicePath SERVICE_PATH serviceId in
  wp (appendServiceStates serviceId serviceStates) (λ x w', ∃ evs,
    trace w' = trace w ++ evs
    ∧ match x.1 with
      | Some _ => x.2 = serviceStates
      | None =>
          ∃ cs sts gets, evs = EvChildrenW p (Ok cs) :: gets
            ∧ reads p cs sts gets ∧ x.2 = serviceStates ++ sts
      end) w.
Proof.
  cbv zeta. unfold appendServiceStates, Children.
  do 3 wp_step. intros [cs|e] w1 H1'; cbn [with_watch].
  2:{ do 2 wp_step. eexists. split; [exact H1'|done]. }
  wp_step. wp_step.
  eapply wp_mono.
  { apply (appendServiceStates_range_spec _ cs [] [] w1 w1 []);
      [by rewrite app_nil_r|done]. }
  intros [out|e] w2 (evs & Ht & Hr); wp_step.
  - eexists. split; [by rewrite Ht, H1', <- app_assoc|]. cbn.
    exists cs, out, evs. done.
  - eexists. split; [by rewrite Ht, H1', <- app_assoc|done].
Qed.

(** appendServiceStates adds the instances of one service or nothing: it
    lists the children of the service and reads and decodes them in the
    order of the listing; when all went well, the slice has grown by one
    state for each child listed, in that order; when the listing, a read
    or a decoding failed, the slice is as the caller passed it. *)
Theorem appendServiceStates_all_or_nothing (serviceId : string)
    (serviceStates : list ServiceState.t) (w : world) :
  let p := ServicePath SERVICE_PATH serviceId in
  let r := appendServiceStates serviceId serviceStates w in
  match r.1.1 with
  | Some _ => r.1.2 = serviceStates
  | None =>
      ∃ cs sts gets,
        trace r.2 = trace w ++ EvChildrenW p (Ok cs) :: gets
        ∧ reads p cs sts gets
        ∧ length sts = length cs
        ∧ r.1.2 = serviceStates ++ sts
  end.
Proof.
  cbv zeta. pose proof (appendServiceStates_spec serviceId serviceStates w)
    as (evs & Ht & Hx).
  destruct ((appendServiceStates serviceId serviceStates w).1.1); [done|].
  destruct Hx as (cs & sts & gets & -> & Hr & Hout).
  exists cs, sts, gets. split; [done|]. split; [done|].
  split; [by eapply reads_length|done].
Qed.

(** The children that the listings in [evs] found, all together. *)
Fixpoint listed (evs : list event) : nat :=
  match evs with
  | [] => O
  | EvChildrenW _ (Ok cs) :: evs' => (length cs + listed evs')%nat
  | _ :: evs' => listed evs'
  end.

Lemma listed_app (evs1 evs2 : list event) :
  listed (evs1 ++ evs2) = (listed evs1 + listed evs2)%nat.
Proof.
  induction evs1 as [|ev evs1 IH]; [done|].
  destruct ev as [| | | | | |p [cs|e]|]; cbn; rewrite ?IH; lia.
Qed.

Lemma reads_listed (p : string) (cs : list string)
    (sts : list ServiceState.t) (evs : list event) :
  reads p cs sts evs → listed evs = O.
Proof.
  revert sts evs. induction cs as [|c cs IH]; intros [|st sts] [|ev evs];
    cbn; try done.
  intros [(b & s & -> & _) Hr]. by eapply IH.
Qed.

(** GetServiceStates goes through the services in the order given and
    stops at the first that fails, keeping what it has: the slice that
    the caller passed is always a prefix of the slice that comes back;
    when all went well, the slice has grown by as many states as the
    listings found children; with no service to look at, nothing is asked
    of the store. *)
Theorem GetServiceStates_keeps_what_it_has (serviceIds : list string) :
  ∀ (serviceStates : list ServiceState.t) (w : world),
    let r := GetServiceStates serviceStates serviceIds w in
    serviceStates `prefix_of` r.1.2
    ∧ (∃ evs, trace r.2 = trace w ++ evs
         ∧ (r.1.1 = None →
              length r.1.2 = (length serviceStates + listed evs)%nat)
         ∧ (serviceIds = [] → evs = []))
    ∧ (serviceIds = [] → r.1.1 = None).
Proof.
  induction serviceIds as [|serviceId serviceIds IH];
    intros serviceStates w; cbv zeta.
  { cbn. split; [done|]. split; [|done].
    exists []. rewrite app_nil_r. split; [done|]. split; [|done].
    intros _. cbn. lia. }
  cbn [GetServiceStates]. rewrite bind_run.
  pose proof (appendServiceStates_spec serviceId serviceStates w)
    as (evs & Ht & Hx).
  destruct (appendServiceStates serviceId serviceStates w) as [[err out] w1].
  cbn [fst snd] in *. destruct err as [e|].
  - subst out. rewrite ret_run. cbn. split; [done|]. split; [|done].
    exists evs. done.
  - destruct Hx as (cs & sts & gets & -> & Hr & ->).
    destruct (IH (serviceStates ++ sts) w1) as (Hpre & (evs' & Ht' & Hlen & _) & _).
    split; [|split; [|done]].
    + etrans; [|exact Hpre]. by apply prefix_app_r.
    + eexists. split; [by rewrite Ht', Ht, <- app_assoc|]. split; [|done].
      intros Hok. rewrite (Hlen Hok), length_app. cbn [listed app].
      rewrite listed_app, (reads_listed _ _ _ _ Hr).
      rewrite (reads_length _ _ _ _ Hr). lia.
Qed.

(** *** The connection of a method of ZkDao *)

(** A call on a connection that is open. *)
Definition on_conn (ev : event) : Prop :=
  match ev with
  | EvConnect _ | EvClose => False
  | _ => True
  end.

(** A computation that uses the connection it is given and neither opens
    nor closes one. *)
Definition inner {A : Type} (c : M A) : Prop :=
  ∀ w, ∃ evs, trace (c w).2 = trace w ++ evs ∧ Forall on_conn evs.

(** A method that opens a connection, and then closes it after its last
    call on it, or fails to open it and does nothing more. *)
Definition opens_and_closes {A : Type} (c : M A) : Prop :=
  ∀ w, ∃ evs, trace (c w).2 = trace w ++ evs
    ∧ ((∃ e, evs = [EvConnect (Some e)])
       ∨ (∃ mid, evs = EvConnect None :: mid ++ [EvClose]
            ∧ Forall on_conn mid)).

Lemma inner_ret {A : Type} (a : A) : inner (mret a : M A).
Proof. intros w. exists []. by rewrite app_nil_r. Qed.

Lemma inner_bind {A B : Type} (c : M A) (k : A → M B) :
  inner c → (∀ a, inner (k a)) → inner (c ≫= k).
Proof.
  intros Hc Hk w. rewrite bind_run.
  destruct (Hc w) as (evs1 & Ht1 & Hf1).
  destruct (Hk (c w).1 (c w).2) as (evs2 & Ht2 & Hf2).
  exists (evs1 ++ evs2). split; [by rewrite Ht2, Ht1, app_assoc|].
  by apply Forall_app.
Qed.

Lemma inner_one {A : Type} (c : M A) (ev : A → event) :
  (∀ w, trace (c w).2 = trace w ++ [ev (c w).1]) →
  (∀ a, on_conn (ev a)) → inner c.
Proof.
  intros Ht Hev w. exists [ev (c w).1]. split; [apply Ht|].
  by repeat constructor.
Qed.

Lemma inner_Get (p : string) : inner (Get p).
Proof. by apply (inner_one _ (EvGet p)). Qed.

Lemma inner_Set (p : string) (b : bytes) (v : Z) : inner (Set_ p b v).
Proof. by apply (inner_one _ (EvSet p b v)). Qed.

Lemma inner_Create (p : string) (b : bytes) : inner (Create p b).
Proof. by apply (inner_one _ (EvCreate p b)). Qed.

Lemma inner_Delete (p : string) (v : Z) : inner (Delete p v).
Proof. by apply (inner_one _ (EvDelete p v)). Qed.

Lemma inner_ChildrenW (p : string) : inner (ChildrenW p).
Proof.
  intros w.
  apply (wp_ChildrenW p
           (λ _ w', ∃ evs, trace w' = trace w ++ evs ∧ Forall on_conn evs)).
  intros r w' Ht. exists [EvChildrenW p r]. split; [done|].
  by repeat constructor.
Qed.

Lemma inner_select (wt : watch) : inner (select_watch_or_timeout wt).
Proof.
  intros w.
  apply (wp_select wt
           (λ _ w', ∃ evs, trace w' = trace w ++ evs ∧ Forall on_conn evs)).
  intros fired w' Ht. exists [EvSelect (wpath wt) fired]. split; [done|].
  by repeat constructor.
Qed.

Lemma inner_ExistsW (p : string) : inner (ExistsW p).
Proof. intros w. exists []. by rewrite app_nil_r. Qed.

(** One step through a computation that is made of calls on the
    connection. *)
Ltac inner_step :=
  lazymatch goal with
  | |- inner (mret _) => apply inner_ret
  | |- inner (_ ≫= _) => apply inner_bind; [|intros ?]
  | |- inner (Get _) => apply inner_Get
  | |- inner (Set_ _ _ _) => apply inner_Set
  | |- inner (Create _ _) => apply inner_Create
  | |- inner (Delete _ _) => apply inner_Delete
  | |- inner (ChildrenW _) => apply inner_ChildrenW
  | |- inner (select_watch_or_timeout _) => apply inner_select
  | |- inner (ExistsW _) => apply inner_ExistsW
  | |- inner (match ?x with _ => _ end) => destruct x
  end.

Ltac inner_tac := cbv zeta; repeat inner_step.

Lemma inner_loadAndUpdateService (serviceId : string)
    (mutator : serviceMutator) :
  inner (loadAndUpdateService SERVICE_PATH serviceId mutator).
Proof. unfold loadAndUpdateService. inner_tac. Qed.

Lemma inner_loadAndUpdateHss (hostId hssId : string) (mutator : hssMutator) :
  inner (loadAndUpdateHss SCHEDULER_PATH hostId hssId mutator).
Proof. unfold loadAndUpdateHss. inner_tac. Qed.

Lemma inner_AddService (service : Service.t) :
  inner (AddService SERVICE_PATH service).
Proof. unfold AddService. inner_tac. Qed.

Lemma inner_AddServiceState (state : ServiceState.t) :
  inner (AddServiceState SERVICE_PATH SCHEDULER_PATH state).
Proof. unfold AddServiceState. inner_tac. Qed.

Lemma inner_LoadService (serviceId : string) :
  inner (LoadService SERVICE_PATH serviceId).
Proof. unfold LoadService. inner_tac. Qed.

Lemma inner_RemoveService_wait (fuel : nat) (servicePath : string) :
  ∀ r, inner (RemoveService_wait fuel servicePath r).
Proof.
  induction fuel as [|fuel IH]; intros r; cbn [RemoveService_wait];
    inner_tac; apply IH.
Qed.

Lemma inner_RemoveService (fuel : nat) (id : string) :
  inner (RemoveService SERVICE_PATH fuel id).
Proof.
  unfold RemoveService. cbv zeta.
  apply inner_bind; [apply inner_loadAndUpdateService|]. intros [e|];
    [apply inner_ret|].
  apply inner_bind; [apply inner_ChildrenW|]. intros r.
  apply inner_bind; [apply inner_RemoveService_wait|]. intros x.
  repeat first [apply inner_LoadService | inner_step].
Qed.

Lemma inner_GetServiceState (serviceId serviceStateId : string) :
  inner (GetServiceState serviceId serviceStateId).
Proof. unfold GetServiceState. inner_tac. Qed.

Lemma inner_appendServiceStates_range (p : string) (cs : list string) :
  ∀ _ss, inner (appendServiceStates_range p cs _ss).
Proof.
  induction cs as [|c cs IH]; intros _ss; cbn [appendServiceStates_range];
    inner_tac; apply IH.
Qed.

Lemma inner_appendServiceStates (serviceId : string)
    (serviceStates : list ServiceState.t) :
  inner (appendServiceStates serviceId serviceStates).
Proof.
  unfold appendServiceStates, Children. cbv zeta.
  apply inner_bind.
  { apply inner_bind; [apply inner_ChildrenW|]. intros r. apply inner_ret. }
  intros [cs|e]; [|apply inner_ret].
  apply inner_bind; [apply inner_appendServiceStates_range|].
  intros x. inner_tac.
Qed.

Lemma inner_GetServiceStates (serviceIds : list string) :
  ∀ serviceStates, inner (GetServiceStates serviceStates serviceIds).
Proof.
  induction serviceIds as [|serviceId serviceIds IH]; intros serviceStates;
    cbn [GetServiceStates]; [apply inner_ret|].
  apply inner_bind; [apply inner_appendServiceStates|].
  intros [[e|] out]; [apply inner_ret|apply IH].
Qed.

Lemma inner_AddSnapshotState (snapshotState : string) :
  inner (AddSnapshotState snapshotState).
Proof. unfold AddSnapshotState. inner_tac. Qed.

Lemma inner_GetSnapshotState : inner GetSnapshotState.
Proof. unfold GetSnapshotState. inner_tac. Qed.

Lemma inner_UpdateSnapshotState (snapshotState : string) :
  inner (UpdateSnapshotState snapshotState).
Proof.
  unfold UpdateSnapshotState. cbv zeta.
  destruct (Marshal snapshotState); [|apply inner_ret].
  apply inner_bind; [apply inner_ExistsW|]. intros [ex err].
  destruct (decide (err = Some ErrNoNode)); [apply inner_AddSnapshotState|].
  destruct (negb ex); [apply inner_AddSnapshotState|]. inner_tac.
Qed.

Lemma inner_RemoveSnapshotState : inner RemoveSnapshotState.
Proof. unfold RemoveSnapshotState. inner_tac. Qed.

Lemma inner_RemoveServiceState (serviceId serviceStateId : string) :
  inner (RemoveServiceState serviceId serviceStateId).
Proof. unfold RemoveServiceState, LoadServiceState. inner_tac. Qed.

Lemma ZkDao_call_opens_and_closes {A : Type} (fail : error → A) (f : M A) :
  inner f → opens_and_closes (ZkDao_call fail f).
Proof.
  intros Hf w. unfold ZkDao_call. rewrite bind_run.
  pose proof (Connect_trace w) as HC.
  destruct (Connect w) as [[e|] w1]; cbn [fst snd] in *.
  - exists [EvConnect (Some e)]. split; [done|]. left. eauto.
  - rewrite !bind_run. cbn [fst snd].
    destruct (Hf w1) as (mid & Ht & Hmid).
    exists (EvConnect None :: mid ++ [EvClose]). split; [|right; eauto].
    rewrite ret_run. cbn [snd]. rewrite Close_trace, Ht, HC.
    by rewrite <- !app_assoc.
Qed.

(** The methods of ZkDao own their connection: each opens one, makes its
    calls on it and closes it after the last of them, on every path, also
    the failing ones; when the connection cannot be opened, the method
    makes no call at all. *)
Theorem ZkDao_methods_open_and_close :
  (∀ state, opens_and_closes
     (ZkDao_AddServiceState SERVICE_PATH SCHEDULER_PATH state))
  ∧ (∀ service, opens_and_closes (UpdateService SERVICE_PATH service))
  ∧ (∀ state, opens_and_closes (UpdateServiceState state))
  ∧ (∀ service, opens_and_closes (ZkDao_AddService service))
  ∧ (∀ hostId serviceStateId,
       opens_and_closes (ZkDao_TerminateHostService hostId serviceStateId))
  ∧ (∀ fuel id, opens_and_closes (ZkDao_RemoveService fuel id))
  ∧ (∀ serviceId serviceStateId,
       opens_and_closes (ZkDao_GetServiceState serviceId serviceStateId))
  ∧ (∀ serviceStates serviceIds,
       opens_and_closes (ZkDao_GetServiceStates serviceStates serviceIds))
  ∧ (∀ snapshotState, opens_and_closes (ZkDao_AddSnapshotState snapshotState))
  ∧ opens_and_closes ZkDao_GetSnapshotState
  ∧ (∀ snapshotState,
       opens_and_closes (ZkDao_UpdateSnapshotState snapshotState))
  ∧ opens_and_closes ZkDao_RemoveSnapshotState.
Proof.
  repeat split; intros.
  - apply (ZkDao_call_opens_and_closes Some), inner_AddServiceState.
  - apply (ZkDao_call_opens_and_closes Some).
    destruct (Marshal service); [|apply inner_ret].
    inner_tac; apply inner_AddService.
  - apply (ZkDao_call_opens_and_closes Some).
    destruct (Marshal state); [|apply inner_ret]. inner_tac.
  - apply ZkDao_call_opens_and_closes, inner_AddService.
  - apply ZkDao_call_opens_and_closes, inner_loadAndUpdateHss.
  - apply ZkDao_call_opens_and_closes, inner_RemoveService.
  - apply ZkDao_call_opens_and_closes, inner_GetServiceState.
  - apply ZkDao_call_opens_and_closes, inner_GetServiceStates.
  - apply ZkDao_call_opens_and_closes, inner_AddSnapshotState.
  - apply ZkDao_call_opens_and_closes, inner_GetSnapshotState.
  - apply ZkDao_call_opens_and_closes, inner_UpdateSnapshotState.
  - apply ZkDao_call_opens_and_closes, inner_RemoveSnapshotState.
Qed.

End Store.

(** *** Runs *)

Module runs.
Import fixture.

(** A codec for the snapshot state that marks what it has encoded. *)
Definition json_string : JSON string := {|
  Marshal s := Ok ("json:" +:+ s);
  Unmarshal b := if String.prefix "json:" b
                 then Ok (String.substring 5 (String.length b - 5) b)
                 else Err (ErrJSON "unexpected payload")
|}.

Definition snapshots : string := "/snapshots".

Lemma AddSnapshotState_upserts_witness :
  let r := AddSnapshotState snapshots json_string "paused"
             (at_rest store0 []) in
  let r' := AddSnapshotState snapshots json_string "resumed" r.2 in
  nodes r.2 !! snapshots = Some (node "json:paused" 0)
  ∧ r'.1 = None
  ∧ nodes r'.2
    = <[snapshots := node "json:resumed" 1]> (nodes r.2).
Proof.
  cbv zeta. split; [by vm_compute|].
  destruct (AddSnapshotState_upserts snapshots json_string "resumed"
              "json:resumed"
              (<[snapshots := node "json:paused" 0]> store0)
              [EvCreate snapshots "json:paused" None] eq_refl)
    as (Hr & Hn & _).
  split; [exact Hr|exact Hn].
Defined.

Lemma GetSnapshotState_after_AddSnapshotState_witness :
  (GetSnapshotState snapshots json_string
     (AddSnapshotState snapshots json_string "paused"
        (at_rest store0 [])).2).1
  = Ok "paused".
Proof.
  apply (GetSnapshotState_after_AddSnapshotState snapshots json_string
           "paused" "json:paused" store0 []); reflexivity.
Defined.

Lemma UpdateSnapshotState_as_AddSnapshotState_witness :
  let m := <[snapshots := node "json:paused" 4]> store0 in
  let u := UpdateSnapshotState snapshots json_string "resumed"
             (at_rest m []) in
  let a := AddSnapshotState snapshots json_string "resumed" (at_rest m []) in
  u.1 = a.1 ∧ nodes u.2 = nodes a.2
  ∧ nodes u.2 !! snapshots = Some (node "json:resumed" 5).
Proof.
  cbv zeta. 
  destruct (UpdateSnapshotState_as_AddSnapshotState snapshots json_string
              "resumed" "json:resumed"
              (<[snapshots := node "json:paused" 4]> store0) [] eq_refl)
    as [H1 H2].
  split; [exact H1|]. split; [exact H2|]. by vm_compute.
Defined.

(** The existence check fails on a broken connection; the create that
    follows goes through and the state is written all the same. *)
Lemma UpdateSnapshotState_hides_ExistsW_error_witness :
  let w := start store0 [failing (ErrConn "connection closed")] in
  (UpdateSnapshotState snapshots json_string "paused" w).1 = None
  ∧ nodes (UpdateSnapshotState snapshots json_string "paused" w).2
      !! snapshots
    = Some (node "json:paused" 0).
Proof.
  cbv zeta.
  rewrite (UpdateSnapshotState_hides_ExistsW_error snapshots json_string
             "paused" "json:paused"
             (start store0 [failing (ErrConn "connection closed")])
             (failing (ErrConn "connection closed")) []
             (ErrConn "connection closed") eq_refl eq_refl eq_refl).
  split; by vm_compute.
Defined.

Lemma RemoveSnapshotState_idempotent_witness :
  let m := <[snapshots := node "json:paused" 4]> store0 in
  let r1 := RemoveSnapshotState snapshots (at_rest m []) in
  let r2 := RemoveSnapshotState snapshots r1.2 in
  r1.1 = None ∧ nodes r1.2 = delete snapshots m
  ∧ r2.1 = None ∧ nodes r2.2 = nodes r1.2.
Proof.
  apply (RemoveSnapshotState_idempotent snapshots
           (<[snapshots := node "json:paused" 4]> store0) []).
  by vm_compute.
Defined.

Lemma RemoveServiceState_undoes_AddServiceState_witness :
  let added := AddServiceState "/services" "/scheduler" ss1
                 (at_rest store0 []) in
  let removed := RemoveServiceState "/services" "/scheduler" "svc" "ss1"
                   added.2 in
  added.1 = None
  ∧ nodes added.2 !! "/services/svc/ss1" = Some (created "state:ss1")
  ∧ nodes added.2 !! "/scheduler/h1/ss1" = Some (created "hss:run")
  ∧ removed.1 = None
  ∧ nodes removed.2 = store0.
Proof.
  apply (RemoveServiceState_undoes_AddServiceState "/services" "/scheduler"
           ss1 "state:ss1" "hss:run" store0 []);
    first [reflexivity | by vm_compute].
Defined.

Lemma TerminateHostService_after_AddServiceState_witness :
  let added := AddServiceState "/services" "/scheduler" ss1
                 (at_rest store0 []) in
  let stopped := TerminateHostService "/scheduler" "h1" "ss1" added.2 in
  stopped.1 = None
  ∧ nodes stopped.2 !! "/scheduler/h1/ss1" = Some (node "hss:stop" 1)
  ∧ nodes stopped.2 !! "/services/svc/ss1" = Some (created "state:ss1").
Proof.
  cbv zeta.
  pose proof (TerminateHostService_after_AddServiceState "/services"
                "/scheduler" ss1 "state:ss1" "hss:run" "hss:stop" store0 [])
    as Hstop.
  cbv zeta in Hstop.
  specialize (Hstop eq_refl eq_refl eq_refl eq_refl).
  specialize (Hstop ltac:(by vm_compute) ltac:(by vm_compute) ltac:(done)).
  destruct Hstop as (Hr & Hn & Hss & _).
  split; [exact Hr|]. split; [|exact Hss].
  etrans; [exact (f_equal (λ m, m !! "/scheduler/h1/ss1") Hn)|].
  by vm_compute.
Defined.

(** The instance is gone and the node of its host is left behind when
    the connection breaks between the two. *)
Example RemoveServiceState_leaves_host_node :
  let w := start store1 [quiet; quiet; failing (ErrConn "connection closed")] in
  let r := RemoveServiceState "/services" "/scheduler" "svc" "ss1" w in
  r.1 = Some (ErrConn "connection closed")
  ∧ nodes r.2 !! "/services/svc/ss1" = None
  ∧ nodes r.2 !! "/scheduler/h1/ss1" = Some (node "hss:run" 0).
Proof. by vm_compute. Qed.

(** UpdateServiceState on an instance that is not in the store: the
    error of the read, and a store that is as it was. *)
Example UpdateServiceState_missing :
  let r := UpdateServiceState "/services" ss1 (start store0 []) in
  r.1 = Some ErrNoNode ∧ nodes r.2 = store0
  ∧ trace r.2 = [EvConnect None;
                 EvGet "/services/svc/ss1" (Err ErrNoNode); EvClose].
Proof. by vm_compute. Qed.

(** The second service cannot be listed: the states of the first stay in
    the slice that comes back with the error. *)
Example GetServiceStates_partial :
  let r := GetServiceStates "/services" [] ["svc"; "gone"]
             (start store1 []) in
  r.1 = (Some ErrNoNode, [ss1]).
Proof. by vm_compute. Qed.

Example GetServiceStates_none :
  GetServiceStates "/services" [ss1] [] (start store1 [])
  = ((None, [ss1]), start store1 []).
Proof. reflexivity. Qed.

End runs.

End zkdao_store.

(** ** Package zzk: what a listener shows, whatever its hooks do *)

Module listeners.
Import zzk.

(** What the loop of Listen does. *)
Definition loop_event (ev : event) : Prop :=
  match ev with
  | EvChildrenW _ _ | EvSpawn _ | EvPostProcess _ | EvSelect _ | EvErrorf =>
      True
  | _ => False
  end.

(** What the deferred function of Listen does once it drains. *)
Definition drain_event (ev : event) : Prop :=
  match ev with
  | EvRecvDone _ => True
  | _ => False
  end.

(** A computation that adds observations in [P] to the trace and
    nothing else. *)
Definition emits {A : Type} (P : event → Prop) (c : M A) : Prop :=
  ∀ w, extends P w (c w).2.

(** The observations of a run of Listen from its start to where it is:
    those of Ready, then
    - nothing more, Listen not having returned; or
    - the report of the error and the error on [ready], and Listen has
      returned; or
    - the closing of [ready] and what the loop does, Listen not having
      returned; or
    - the closing of [ready], what the loop did, the cleanup hook, the
      closing of [_shutdown] and the completions received. *)
Inductive Listen_trace (o : outcome unit) : list event → Prop :=
| Listen_starting revs :
    Forall ready_event revs → (∀ x, o ≠ Done x) →
    Listen_trace o revs
| Listen_failed revs e :
    Forall ready_event revs → o = Done tt →
    Listen_trace o (revs ++ [EvErrorf; EvReadySend e])
| Listen_listening revs levs :
    Forall ready_event revs → Forall loop_event levs → (∀ x, o ≠ Done x) →
    Listen_trace o (revs ++ EvReadyClose :: levs)
| Listen_unwinding revs levs devs :
    Forall ready_event revs → Forall loop_event levs →
    Forall drain_event devs →
    Listen_trace o (revs ++ EvReadyClose :: levs
                      ++ EvDone :: EvCloseShutdown :: devs).

Section Listeners.

Variable Dir : string → string.

Lemma emits_ret {A : Type} (P : event → Prop) (a : A) :
  emits P (mret a : M A).
Proof. intros w. apply extends_refl. Qed.

Lemma emits_exhausted {A : Type} (P : event → Prop) :
  emits P (exhausted : M A).
Proof. intros w. apply extends_refl. Qed.

Lemma emits_bind {A B : Type} (P : event → Prop) (c : M A) (k : A → M B) :
  emits P c → (∀ a, emits P (k a)) → emits P (c ≫= k).
Proof.
  intros Hc Hk w. rewrite bind_outcome. specialize (Hc w).
  destruct (c w) as [[a| | |] w1]; cbn [snd] in *; try done.
  eapply extends_trans; [done|apply Hk].
Qed.

Lemma emits_emit (P : event → Prop) (ev : event) : P ev → emits P (emit ev).
Proof. intros Hev w. exists [ev]. by repeat constructor. Qed.

Lemma emits_conn_ChildrenW (P : event → Prop) (p : string) :
  (∀ r, P (EvChildrenW p r)) → emits P (conn_ChildrenW p).
Proof.
  intros HP w. rewrite conn_ChildrenW_run.
  destruct (script w); [apply extends_refl|].
  eexists [_]. split; [done|]. by repeat constructor.
Qed.

Lemma emits_select_loop (P : event → Prop) :
  (∀ sg, P (EvSelect sg)) → emits P select_loop.
Proof.
  intros HP w. unfold select_loop.
  destruct (script w) as [|t s]; [apply extends_refl|].
  destruct (fired t) as [e|n|]; try destruct (decide (n ∈ workers w));
    try apply extends_refl;
    (eexists [_]; split; [done|]; by repeat constructor).
Qed.

Lemma emits_recv_done (P : event → Prop) :
  (∀ n, P (EvRecvDone n)) → emits P recv_done.
Proof.
  intros HP w. unfold recv_done.
  destruct (next_done (script w)) as [[n sc']|].
  - destruct (decide (n ∈ workers w)); [|apply extends_refl].
    eexists [_]. split; [done|]. by repeat constructor.
  - exists []. by rewrite app_nil_r.
Qed.

Lemma emits_go_Spawn (P : event → Prop) (node : string) :
  P (EvSpawn node) → emits P (go_Spawn node).
Proof. intros HP w. eexists [_]. split; [done|]. by repeat constructor. Qed.

Lemma emits_spawn_new (nodes : list string) (processing : gset string) :
  emits loop_event (spawn_new nodes processing).
Proof.
  revert processing. induction nodes as [|node nodes IH]; intros processing.
  { apply emits_ret. }
  cbn [spawn_new]. destruct (decide (node ∈ processing)); [apply IH|].
  apply emits_bind; [by apply emits_go_Spawn|]. intros _. apply IH.
Qed.

Lemma emits_Listen_loop (fuel : nat) (l : Listener)
    (processing : gset string) :
  emits loop_event (Listen_loop fuel l processing).
Proof.
  revert processing. induction fuel as [|fuel IH]; intros processing.
  { apply emits_exhausted. }
  cbn [Listen_loop]. apply emits_bind; [by apply emits_conn_ChildrenW|].
  intros [nodes|e].
  - apply emits_bind; [apply emits_spawn_new|]. intros processing'.
    apply emits_bind; [by apply emits_emit|]. intros _.
    apply emits_bind; [by apply emits_select_loop|].
    intros [e|n|]; [|apply IH|apply emits_ret].
    destruct (decide (Type_ e = EventNodeDeleted));
      [apply emits_ret|apply IH].
  - apply emits_bind; [by apply emits_emit|]. intros _. apply emits_ret.
Qed.

Lemma emits_Listen_drain (fuel : nat) (processing : gset string) :
  emits drain_event (Listen_drain fuel processing).
Proof.
  revert processing. induction fuel as [|fuel IH]; intros processing;
    cbn [Listen_drain];
    (destruct (decide (0 < size processing)%nat); [|apply emits_ret]).
  - apply emits_exhausted.
  - apply emits_bind; [by apply emits_recv_done|]. intros node. apply IH.
Qed.

(** Every run of Listen, as far as it got, reads as Listen_trace says,
    whatever the store, the workers and the hooks of the listener do. *)
Lemma Listen_reads (fuel : nat) (l : Listener) (sc : list tick) :
  Listen_trace (Listen Dir fuel l (start sc)).1
    (trace (Listen Dir fuel l (start sc)).2).
Proof.
  unfold Listen. rewrite bind_outcome.
  pose proof (proj1 (Ready_observes Dir fuel) (GetPath l []) (start sc))
    as [_ (revs & Ht1 & Hrevs)].
  cbn [trace start app] in Ht1.
  assert (Hfail : ∀ e w1, trace w1 = revs →
    Listen_trace ((emit EvErrorf;; emit (EvReadySend e)) w1).1
      (trace ((emit EvErrorf;; emit (EvReadySend e)) w1).2)).
  { intros e w1 Hw1. rewrite bind_outcome. cbn. rewrite Hw1, <- app_assoc.
    by apply Listen_failed. }
  destruct (Ready Dir fuel (GetPath l []) (start sc)) as [[[e|]| | |] w1];
    cbn [fst snd] in *.
  - by apply Hfail.
  - destruct (Listener_Ready l) as [e|]; [by apply Hfail|].
    rewrite bind_outcome, emit_run, bind_outcome.
    destruct (emits_Listen_loop fuel l ∅ (emit EvReadyClose w1).2)
      as (levs & Ht3 & Hlevs).
    rewrite emit_trace, Ht1 in Ht3.
    destruct (Listen_loop fuel l ∅ (emit EvReadyClose w1).2)
      as [[processing| | |] w3]; cbn [fst snd] in *.
    + unfold Listen_deferred.
      rewrite bind_outcome, emit_run, bind_outcome, emit_run.
      destruct (emits_Listen_drain fuel processing
                  (emit EvCloseShutdown (emit EvDone w3).2).2)
        as (devs & Ht4 & Hdevs).
      rewrite !emit_trace, Ht3 in Ht4. rewrite Ht4.
      replace (((((revs ++ [EvReadyClose]) ++ levs) ++ [EvDone])
                  ++ [EvCloseShutdown]) ++ devs)
        with (revs ++ EvReadyClose :: levs
                ++ EvDone :: EvCloseShutdown :: devs)
        by (by rewrite <- !app_assoc).
      by apply Listen_unwinding.
    + rewrite Ht3, <- app_assoc. by apply Listen_listening.
    + rewrite Ht3, <- app_assoc. by apply Listen_listening.
    + rewrite Ht3, <- app_assoc. by apply Listen_listening.
  - rewrite Ht1. by apply Listen_starting.
  - rewrite Ht1. by apply Listen_starting.
  - rewrite Ht1. by apply Listen_starting.
Qed.

Lemma split_after (P : event → Prop) (r s l1 l2 : list event)
    (x y : event) :
  Forall P r → ¬ P x → x ≠ y → l1 ++ x :: l2 = r ++ y :: s →
  ∃ l1', l1 = r ++ y :: l1' ∧ s = l1' ++ x :: l2.
Proof.
  intros Hr Hx Hxy. revert l1.
  induction r as [|a r IH]; intros [|b l1] Heq; cbn in *; simplify_eq.
  - by exists l1.
  - by apply Forall_cons in Hr as [? _].
  - apply Forall_cons in Hr as [_ Hr].
    destruct (IH Hr l1) as (l1' & -> & ->); [done|]. by exists l1'.
Qed.

(** What comes only after [ready] was closed. *)
Definition after_ready (ev : event) : Prop :=
  match ev with
  | EvSpawn _ | EvPostProcess _ | EvSelect _ | EvDone | EvCloseShutdown
  | EvRecvDone _ => True
  | _ => False
  end.

(** When Listen cannot start, because Ready returns an error for the
    path of the listener or, the path being ready, because the listener's
    own Ready refuses, it reports the error, sends it on [ready] and
    returns: after what Ready observed, the report and the send are all
    that happens.  No worker was spawned, the hook Done was not called
    and [_shutdown] was not closed, the deferred function not being set
    up yet; [ready] is not closed, and nothing else is sent on it. *)
Theorem Listen_start_failure (fuel : nat) (l : Listener) (sc : list tick)
    (e : error) :
  let r0 := Ready Dir fuel (GetPath l []) (start sc) in
  let r := Listen Dir fuel l (start sc) in
  r0.1 = Done (Some e) ∨ (r0.1 = Done None ∧ Listener_Ready l = Some e) →
  r.1 = Done tt
  ∧ trace r.2 = trace r0.2 ++ [EvErrorf; EvReadySend e]
  ∧ Forall ready_event (trace r0.2)
  ∧ script r.2 = script r0.2
  ∧ workers r.2 = []
  ∧ (∀ ev, ev ∈ trace r.2 → ¬ after_ready ev ∧ ev ≠ EvReadyClose)
  ∧ (∀ e', EvReadySend e' ∈ trace r.2 → e' = e).
Proof.
  cbv zeta. intros Hcause.
  pose proof (proj1 (Ready_observes Dir fuel) (GetPath l []) (start sc))
    as [Hw (revs & Ht1 & Hrevs)].
  cbn [trace workers start app] in Ht1, Hw.
  assert (Hrun : Listen Dir fuel l (start sc)
                 = (emit EvErrorf;; emit (EvReadySend e))
                     (Ready Dir fuel (GetPath l []) (start sc)).2).
  { unfold Listen. rewrite bind_outcome.
    destruct (Ready Dir fuel (GetPath l []) (start sc)) as [o1 w1].
    cbn [fst snd] in *.
    destruct Hcause as [->|[-> Hl]]; [done|by rewrite Hl]. }
  rewrite Hrun, bind_outcome, emit_run.
  destruct (Ready Dir fuel (GetPath l []) (start sc)) as [o1 w1].
  cbn [fst snd] in *. rewrite emit_run. cbn [fst snd].
  rewrite !emit_trace, <- app_assoc. cbn [app]. rewrite Ht1.
  split; [done|]. split; [done|]. split; [done|]. split; [done|].
  split; [done|].
  assert (Hr : ∀ ev, ev ∈ revs → ready_event ev)
    by (by apply Forall_forall).
  split.
  - intros ev [Hev|Hev]%elem_of_app.
    + apply Hr in Hev. destruct ev; cbn in *; try done; (split; [tauto|done]).
    + rewrite !elem_of_cons in Hev.
      destruct Hev as [->|[->|?%elem_of_nil]]; try done;
        (split; [cbn; tauto|done]).
  - intros e' [Hev|Hev]%elem_of_app.
    + by apply Hr in Hev.
    + rewrite !elem_of_cons in Hev.
      destruct Hev as [?|[?|?%elem_of_nil]]; [done| |done]. by simplify_eq.
Qed.

(** Listen closes [ready] before it does anything that a listener is
    there for: whatever it spawns, hands to PostProcess, waits for,
    cleans up or receives comes after the closing of [ready], and in such
    a run nothing is ever sent on [ready]. *)
Theorem Listen_closes_ready_first (fuel : nat) (l : Listener)
    (sc : list tick) (t1 t2 : list event) (ev : event) :
  let t := trace (Listen Dir fuel l (start sc)).2 in
  t = t1 ++ ev :: t2 → after_ready ev →
  EvReadyClose ∈ t1 ∧ ∀ e, EvReadySend e ∉ t.
Proof.
  cbv zeta. intros Ht Hev.
  assert (Hnot : ¬ ready_event ev) by (destruct ev; cbn in *; tauto).
  assert (Hin : ev ∈ trace (Listen Dir fuel l (start sc)).2)
    by (rewrite Ht, elem_of_app, elem_of_cons; auto).
  destruct (Listen_reads fuel l sc)
    as [revs Hr Ho|revs e' Hr Ho|revs levs Hr Hl Ho|revs levs devs Hr Hl Hd].
  - rewrite Forall_forall in Hr. by apply Hr in Hin.
  - apply elem_of_app in Hin as [Hin|Hin].
    + rewrite Forall_forall in Hr. by apply Hr in Hin.
    + rewrite !elem_of_cons in Hin.
      destruct Hin as [->|[->|?%elem_of_nil]]; done.
  - symmetry in Ht.
    destruct (split_after ready_event revs levs t1 t2 ev EvReadyClose)
      as (l1' & -> & _); [done|done|by destruct ev|done|].
    split; [rewrite elem_of_app, elem_of_cons; auto|].
    intros e [He|He]%elem_of_app.
    + rewrite Forall_forall in Hr. by apply Hr in He.
    + apply elem_of_cons in He as [?|He]; [done|].
      rewrite Forall_forall in Hl. by apply Hl in He.
  - symmetry in Ht.
    destruct (split_after ready_event revs
                (levs ++ EvDone :: EvCloseShutdown :: devs) t1 t2 ev
                EvReadyClose)
      as (l1' & -> & _); [done|done|by destruct ev|done|].
    split; [rewrite elem_of_app, elem_of_cons; auto|].
    intros e [He|He]%elem_of_app.
    + rewrite Forall_forall in Hr. by apply Hr in He.
    + apply elem_of_cons in He as [?|He]; [done|].
      apply elem_of_app in He as [He|He].
      * rewrite Forall_forall in Hl. by apply Hl in He.
      * rewrite !elem_of_cons in He. destruct He as [?|[?|He]]; [done..|].
        rewrite Forall_forall in Hd. by apply Hd in He.
Qed.

(** Listen returns in one of two ways only: after sending its error on
    [ready]; or after its deferred function ran, which calls the hook
    Done once, closes [_shutdown] next and from then on only receives
    completions, listing and spawning nothing any more. *)
Theorem Listen_returns_after_cleanup (fuel : nat) (l : Listener)
    (sc : list tick) :
  let o := (Listen Dir fuel l (start sc)).1 in
  let t := trace (Listen Dir fuel l (start sc)).2 in
  o = Done tt →
  (∃ e, last t = Some (EvReadySend e) ∧ (EvDone ∉ t))
  ∨ (∃ t1 devs, t = t1 ++ EvDone :: EvCloseShutdown :: devs
       ∧ EvReadyClose ∈ t1 ∧ (EvDone ∉ t1) ∧ Forall drain_event devs).
Proof.
  cbv zeta. intros Hdone.
  destruct (Listen_reads fuel l sc)
    as [revs Hr Ho|revs e' Hr Ho|revs levs Hr Hl Ho|revs levs devs Hr Hl Hd].
  - by destruct (Ho tt).
  - left. exists e'. split.
    + by rewrite last_app.
    + intros [He|He]%elem_of_app.
      * rewrite Forall_forall in Hr. by apply Hr in He.
      * rewrite !elem_of_cons in He.
        destruct He as [?|[?|?%elem_of_nil]]; done.
  - by destruct (Ho tt).
  - right. exists (revs ++ EvReadyClose :: levs), devs.
    split; [by rewrite <- app_assoc|].
    split; [rewrite elem_of_app, elem_of_cons; auto|]. split; [|done].
    intros [He|He]%elem_of_app.
    + rewrite Forall_forall in Hr. by apply Hr in He.
    + apply elem_of_cons in He as [?|He]; [done|].
      rewrite Forall_forall in Hl. by apply Hl in He.
Qed.

End Listeners.

(** *** Start without a master *)

Import group.

(** What holds of Start all along when [master] is nil. *)
Record NilInv (s : state) : Prop := {
  nil_ready : ready s = ChEmpty;
  nil_slaves : slaves s = [];
  nil_launch : ∀ rest, main s ≠ AtLaunch rest;
  nil_shutdown : main s = AtSelectReady ∨ shutdown s = true;
  nil_done : done s = true → master s = Exited;
  nil_master : master s = Idle ∨ master s = Leaving ∨ master s = Exited;
  nil_woken : master s ≠ Idle → _shutdown s = true;
  nil_closed : _shutdown s = true → main s = AtWait ∨ main s = Returned
}.

Lemma NilInv_init : NilInv (Start_init None).
Proof. split; cbn; try done; auto. Qed.

Lemma NilInv_step (listeners : list Listener) (lb : label) (s s' : state) :
  NilInv s → Start_step listeners lb s = Some s' → NilInv s'.
Proof.
  intros [Hr Hs Hl Hsh Hd Hm Hw Hc] Hstep.
  destruct s as [p m sl r d sh ish w]; cbn in *. subst r sl.
  destruct lb as [|mv|i mv|c|]; cbn in Hstep.
  - destruct sh; simplify_eq. split; cbn; auto.
  - unfold master_step in Hstep; cbn in Hstep.
    destruct mv, m; cbn in Hstep; try destruct ish; simplify_eq;
      try (by destruct Hm as [?|[?|?]]);
      split; cbn; auto; try done; try tauto;
      try (intros Hx; by apply Hd in Hx).
  - unfold slave_step in Hstep. cbn in Hstep. done.
  - unfold select_step in Hstep; cbn in Hstep.
    destruct p, c; try done; try destruct d; try destruct sh;
      simplify_eq;
      try (by (split; cbn; auto; try done; try tauto;
               try (intros Hx; destruct (Hc Hx); done)));
      try (specialize (Hd eq_refl); subst m;
           destruct (Hc (Hw ltac:(done))); done).
  - unfold main_step in Hstep; cbn in Hstep.
    destruct p as [|rest| | | |]; try done.
    + by destruct (Hl rest).
    + destruct ish; simplify_eq. split; cbn; auto; try done.
      destruct Hsh; [done|auto].
    + destruct w; simplify_eq. split; cbn; auto; try done.
      destruct Hsh; [done|auto].
Qed.

(** Start with a nil master starts no listener, whichever are given: the
    goroutine that stands for the master only waits for [_shutdown], so
    nothing ever arrives on [ready], and Start gets past its first select
    only when the caller has closed [shutdown]. *)
Theorem Start_without_master (listeners : list Listener) (ls : list label)
    (s : state) :
  Start_run listeners ls (Start_init None) = Some s →
  slaves s = []
  ∧ (main s ≠ AtSelectReady → shutdown s = true)
  ∧ (∀ rest, main s ≠ AtLaunch rest).
Proof.
  intros Hrun.
  assert (Hinv : NilInv s).
  { revert s Hrun. induction ls as [|lb ls IH] using rev_ind; intros s Hrun.
    - cbn in Hrun. simplify_eq. apply NilInv_init.
    - rewrite Start_run_snoc in Hrun.
      destruct (Start_run listeners ls (Start_init None)) as [s0|];
        [|done].
      cbn in Hrun. eapply NilInv_step; [by apply IH|done]. }
  destruct Hinv as [_ Hs Hl Hsh _ _ _ _]. split; [done|]. split; [|done].
  intros Hne. by destruct Hsh.
Qed.

(** *** Runs *)

Module runs.
Import zzk.runs.

(** A listener whose own Ready refuses. *)
Definition refusing : Listener :=
  {| GetPath nodes := foldl (λ p n, p +:+ "/" +:+ n) "/hosts/h1" nodes;
     Listener_Ready := Some (errors_New "not ready");
     PostProcess processing := processing |}.

(** The path is there, the listener refuses: the refusal is sent on
    [ready] and Listen returns. *)
Lemma Listen_start_failure_witness :
  let r := Listen Dir 20 refusing (start [on tree2 changed]) in
  r.1 = Done tt
  ∧ trace r.2 = [EvExists "/hosts/h1" (true, None); EvErrorf;
                 EvReadySend (errors_New "not ready")]
  ∧ workers r.2 = []
  ∧ ∀ ev, ev ∈ trace r.2 → ¬ after_ready ev ∧ ev ≠ EvReadyClose.
Proof.
  cbv zeta.
  assert (Hr0 : Ready Dir 20 (GetPath refusing []) (start [on tree2 changed])
                = (Done None,
                   {| script := [];
                      trace := [EvExists "/hosts/h1" (true, None)];
                      workers := [] |}))
    by (by vm_compute).
  destruct (Listen_start_failure Dir 20 refusing [on tree2 changed]
              (errors_New "not ready"))
    as (Ho & Ht & _ & _ & Hw & Hall & _).
  { right. by rewrite Hr0. }
  rewrite Hr0 in Ht. cbn [snd trace app] in Ht.
  split; [exact Ho|]. split; [exact Ht|]. split; [exact Hw|exact Hall].
Defined.

(** The store fails while the path is looked up: the error of Ready is
    what is sent on [ready], and the listener is not asked. *)
Example Listen_start_failure_store :
  let broken := {| tree := tree2; fault := Some (ErrConn "connection lost");
                   fired := changed |} in
  let r := Listen Dir 20 host_listener (start [broken]) in
  r.1 = Done tt
  ∧ trace r.2
    = [EvExists "/hosts/h1" (false, Some (ErrConn "connection lost"));
       EvErrorf; EvReadySend (ErrConn "connection lost")].
Proof. by vm_compute. Qed.

Lemma Listen_closes_ready_first_witness :
  let t := trace (Listen Dir 20 host_listener
                    (start [on tree2 changed; on tree2 changed])).2 in
  t = [EvExists "/hosts/h1" (true, None); EvReadyClose;
       EvChildrenW "/hosts/h1" (Ok ["A"; "B"])]
      ++ EvSpawn "A" :: [EvSpawn "B";
                         EvPostProcess (tracked [EvSpawn "A"; EvSpawn "B"])]
  ∧ ∀ e, EvReadySend e ∉ t.
Proof.
  cbv zeta.
  assert (Ht : trace (Listen Dir 20 host_listener
                        (start [on tree2 changed; on tree2 changed])).2
               = [EvExists "/hosts/h1" (true, None); EvReadyClose;
                  EvChildrenW "/hosts/h1" (Ok ["A"; "B"])]
                 ++ EvSpawn "A"
                 :: [EvSpawn "B";
                     EvPostProcess (tracked [EvSpawn "A"; EvSpawn "B"])])
    by (by vm_compute).
  split; [exact Ht|].
  apply (Listen_closes_ready_first Dir 20 host_listener
           [on tree2 changed; on tree2 changed] _ _ (EvSpawn "A") Ht I).
Defined.

Lemma Listen_returns_after_cleanup_witness :
  let r := Listen Dir 20 host_listener (start removal) in
  (∃ e, last (trace r.2) = Some (EvReadySend e) ∧ (EvDone ∉ trace r.2))
  ∨ (∃ t1 devs, trace r.2 = t1 ++ EvDone :: EvCloseShutdown :: devs
       ∧ EvReadyClose ∈ t1 ∧ (EvDone ∉ t1) ∧ Forall drain_event devs).
Proof.
  apply (Listen_returns_after_cleanup Dir 20 host_listener removal).
  by vm_compute.
Defined.

(** The caller closes [shutdown]; Start, which has no master, closes
    [_shutdown] and returns without having started the listener it was
    given. *)
Lemma Start_without_master_witness :
  ∃ s, Start_run [host_listener]
         [Caller; Select CaseShutdown; Select CaseShutdown; Step; Master Wake;
          Step] (Start_init None) = Some s
       ∧ main s = Returned
       ∧ slaves s = [].
Proof.
  eexists. split; [reflexivity|]. split; [reflexivity|].
  exact (proj1 (Start_without_master [host_listener]
                  [Caller; Select CaseShutdown; Select CaseShutdown; Step;
                   Master Wake; Step] _ eq_refl)).
Defined.

(** The master cannot start: Start takes the error from [ready] and the
    dependent is never launched. *)
Lemma Start_master_fails_witness :
  ∃ s, Start_run [host_listener]
         [Master (Fail ErrShutdown); Select CaseReady; Master Deferred;
          Select CaseDone; Step; Step]
         (Start_init (Some host_listener)) = Some s
       ∧ main s = Returned
       ∧ slaves s = [].
Proof.
  eexists. split; [reflexivity|]. split; [reflexivity|].
  apply (Start_master_fails (Some host_listener) [host_listener]
           [Master (Fail ErrShutdown); Select CaseReady; Master Deferred;
            Select CaseDone; Step; Step] _ ErrShutdown eq_refl).
  rewrite !elem_of_cons. auto.
Defined.

(** Two dependents are launched and have both exited when Start is back. *)
Lemma Start_joins_dependents_witness :
  ∃ s, Start_run [host_listener; refusing]
         [Master CloseReady; Select CaseReady; Step; Step; Step;
          Slave 0 CloseReady; Slave 1 (Fail (errors_New "not ready"));
          Caller; Select CaseShutdown; Step; Slave 1 Deferred;
          Slave 0 LeaveLoop; Slave 0 Unwound; Slave 0 Deferred; Step]
         (Start_init (Some host_listener)) = Some s
       ∧ main s = Returned
       ∧ _shutdown s = true
       ∧ Forall (λ g, g = Exited) (slaves s)
       ∧ (slaves s = [] ∨ length (slaves s) = 2%nat).
Proof.
  assert (Hrun :
    Start_run [host_listener; refusing]
      [Master CloseReady; Select CaseReady; Step; Step; Step;
       Slave 0 CloseReady; Slave 1 (Fail (errors_New "not ready"));
       Caller; Select CaseShutdown; Step; Slave 1 Deferred;
       Slave 0 LeaveLoop; Slave 0 Unwound; Slave 0 Deferred; Step]
      (Start_init (Some host_listener))
    = Some {| main := Returned; master := Listening;
              slaves := [Exited; Exited]; ready := ChClosed; done := false;
              shutdown := true; _shutdown := true; wg := O |})
    by (by vm_compute).
  eexists. split; [exact Hrun|]. split; [reflexivity|].
  exact (Start_joins_dependents (Some host_listener)
           [host_listener; refusing] _ _ Hrun eq_refl).
Defined.

(** The master leaves by itself; Start sees [done] closed and the
    goroutine of the master is over. *)
Lemma Start_done_joins_master_witness :
  ∃ s, Start_run []
         [Master CloseReady; Select CaseReady; Step; Master LeaveLoop;
          Master Unwound; Master Deferred; Select CaseDone; Step; Step]
         (Start_init (Some host_listener)) = Some s
       ∧ main s = Returned
       ∧ master s = Exited.
Proof.
  eexists. split; [reflexivity|]. split; [reflexivity|].
  apply (Start_done_joins_master (Some host_listener) []
           [Master CloseReady; Select CaseReady; Step; Master LeaveLoop;
            Master Unwound; Master Deferred; Select CaseDone; Step; Step]
           _ eq_refl).
  rewrite !elem_of_cons. auto 10.
Defined.

End runs.

End listeners.
